(** * keypiano: MIDI codec, playback scheduler, metronome and audio engine

    A shallow embedding of the parts of the keypiano sources that carry the
    MIDI file codec ([services/midiIO.ts], both the hand-rolled binary
    version and the version delegating to a MIDI library), the look-ahead
    playback scheduler of the application component and the playback by
    timeouts that came before it, the metronome, the sample selection and
    the active-source bookkeeping of [services/audioEngine.ts], the pitch
    helpers of [constants.ts] and the handlers of the computer keyboard of
    the application component.

    Conventions of the embedding.
    - JavaScript integers that go through the bit operators are [Z] with the
      32-bit wrap-around of [ToInt32] written out ([JS32]).
    - JavaScript numbers that hold integers outside of the bit operators
      (pitch numbers, octaves, transpositions, velocities) are [Z], exact at
      any size: the rounding of a double beyond 2^53 is not modelled.
    - JavaScript numbers that carry times (milliseconds, seconds, beats per
      minute) are exact rationals [Q]: rounding of binary floating point is
      not modelled.  Division by zero (which yields an infinity or NaN in
      the source) is outside the model: a statement that depends on a
      quotient says that the divisor is not zero, or is evaluated on
      concrete data.
    - A [DataView] is a list of bytes; an access outside of it throws, which
      the embedding returns as [Throws RangeError].
    - Loops that the source can spin in forever take fuel and return
      [Diverges] when it runs out. *)

From stdpp Require Import gmap strings list.
From Stdlib Require Import ZArith QArith Qround Qabs Lia Lqa String Ascii List Bool.
From Stdlib Require Import DecimalString DecimalZ DecimalPos Sorted.
Import ListNotations.

Local Open Scope Z_scope.

(** ** Outcomes of fallible code *)

Inductive exn : Type :=
| RangeError        (* DataView access outside of the buffer *)
| InvalidMidiHeader (* new Error('Invalid MIDI header') *).

Inductive outcome (A : Type) : Type :=
| Ok (a : A)
| Throws (e : exn)
| Diverges.

Arguments Ok {A} a.
Arguments Throws {A} e.
Arguments Diverges {A}.

Definition obind {A B} (m : outcome A) (k : A -> outcome B) : outcome B :=
  match m with
  | Ok a => k a
  | Throws e => Throws e
  | Diverges => Diverges
  end.

Notation "'let*' x ':=' m 'in' k" := (obind m (fun x => k))
  (at level 10, x pattern, m at level 100, k at level 200).

(** ** 32-bit integer operators of JavaScript *)

Module JS32.

(** [ToInt32]: reduce modulo 2^32 into the signed range. *)
Definition toInt32 (z : Z) : Z :=
  let m := z mod 2 ^ 32 in
  if m <? 2 ^ 31 then m else m - 2 ^ 32.

(** [a & b] *)
Definition and (a b : Z) : Z := toInt32 (Z.land (toInt32 a) (toInt32 b)).
(** [a | b] *)
Definition or (a b : Z) : Z := toInt32 (Z.lor (toInt32 a) (toInt32 b)).
(** [a << n] *)
Definition shl (a n : Z) : Z := toInt32 (Z.shiftl (toInt32 a) (n mod 32)).
(** [a >> n] (sign propagating) *)
Definition sar (a n : Z) : Z := Z.shiftr (toInt32 a) (n mod 32).

End JS32.

(** ** Variable-length quantities (hand-rolled codec) *)

(** First loop of [writeVarInt]:
    [while ((value >>= 7)) { buffer <<= 8; buffer |= ((value & 0x7F) | 0x80); }] *)
Fixpoint writeVarInt_pack (fuel : nat) (value buffer : Z) : outcome Z :=
  match fuel with
  | O => Diverges
  | S fuel' =>
      let value := JS32.sar value 7 in
      if value =? 0 then Ok buffer
      else
        let buffer := JS32.shl buffer 8 in
        let buffer := JS32.or buffer (JS32.or (JS32.and value 0x7F) 0x80) in
        writeVarInt_pack fuel' value buffer
  end.

(** Second loop of [writeVarInt]:
    [while (true) { bytes.push(buffer & 0xFF); if (buffer & 0x80) buffer >>= 8; else break; }] *)
Fixpoint writeVarInt_emit (fuel : nat) (buffer : Z) (bytes : list Z) : outcome (list Z) :=
  match fuel with
  | O => Diverges
  | S fuel' =>
      let bytes := bytes ++ [JS32.and buffer 0xFF] in
      if JS32.and buffer 0x80 =? 0 then Ok bytes
      else writeVarInt_emit fuel' (JS32.sar buffer 8) bytes
  end.

Definition writeVarInt_fuel (fuel : nat) (value : Z) : outcome (list Z) :=
  let* buffer := writeVarInt_pack fuel value (JS32.and value 0x7F) in
  writeVarInt_emit fuel buffer [].

(** A 32-bit value leaves both loops after at most five rounds, or never
    ([writeVarInt_fuel_enough] below): eight rounds of fuel decide. *)
Definition writeVarInt (value : Z) : outcome (list Z) := writeVarInt_fuel 8 value.

(** [view.getUint8(i)] *)
Definition getUint8 (view : list Z) (i : Z) : outcome Z :=
  if i <? 0 then Throws RangeError
  else match nth_error view (Z.to_nat i) with
       | Some b => Ok b
       | None => Throws RangeError
       end.

(** The [do ... while (byte & 0x80)] loop of [readVarInt], on the bytes from
    [offset + length] on: each round reads the next byte, so the recursion
    follows the buffer. *)
Fixpoint readVarInt_loop (rest : list Z) (result length : Z) : outcome (Z * Z) :=
  match rest with
  | [] => Throws RangeError
  | byte :: rest' =>
      let result := JS32.or (JS32.shl result 7) (JS32.and byte 0x7f) in
      let length := length + 1 in
      if JS32.and byte 0x80 =? 0 then Ok (result, length)
      else readVarInt_loop rest' result length
  end.

Definition readVarInt (view : list Z) (offset : Z) : outcome (Z * Z) :=
  if offset <? 0 then Throws RangeError
  else readVarInt_loop (skipn (Z.to_nat offset) view) 0 0.

(** The encoding the format prescribes for a value below 2^28: groups of
    seven bits, most significant group first, the top bit set on all but the
    last byte. *)
Definition vlq_bytes (v : Z) : list Z :=
  if v <? 2 ^ 7 then [v]
  else if v <? 2 ^ 14 then [v / 2 ^ 7 + 128; v mod 128]
  else if v <? 2 ^ 21 then [v / 2 ^ 14 + 128; (v / 2 ^ 7) mod 128 + 128; v mod 128]
  else [v / 2 ^ 21 + 128; (v / 2 ^ 14) mod 128 + 128; (v / 2 ^ 7) mod 128 + 128; v mod 128].

(** ** Pitch names *)

Definition NOTE_NAMES : list string :=
  ["C"; "C#"; "D"; "D#"; "E"; "F"; "F#"; "G"; "G#"; "A"; "A#"; "B"]%string.

(** Decimal rendering of an integer, as string interpolation of a number
    that holds an integer does. *)
Definition string_of_Z (z : Z) : string := NilZero.string_of_int (Z.to_int z).

(** [names[i]] inside a template literal: an index outside of the array
    reads [undefined]. *)
Definition nameAt (names : list string) (i : Z) : string :=
  if i <? 0 then "undefined"%string else nth (Z.to_nat i) names "undefined"%string.

(** [`${NOTE_NAMES[midi % 12]}${Math.floor(midi / 12) - 1}`]; [%] is the
    remainder of the truncating division, which is negative for a negative
    number that is no multiple of 12. *)
Definition midiToNote (midi : Z) : string :=
  let octave := midi / 12 - 1 in
  let nameIdx := Z.rem midi 12 in
  (nameAt NOTE_NAMES nameIdx +:+ string_of_Z octave)%string.

(** The two tables filled by [initNotes] for [i] from 0 to 127: the entries
    the two objects hold as their own. *)
Definition MIDI_TO_NOTE (i : Z) : option string :=
  if (0 <=? i) && (i <? 128) then Some (midiToNote i) else None.

Definition NOTE_TO_MIDI : gmap string Z :=
  fold_left (fun m i => <[midiToNote (Z.of_nat i) := Z.of_nat i]> m) (seq 0 128) ∅.

(** *** The pattern [/([A-G][#b]?)(-?\d+)/] *)

Definition is_note_letter (c : ascii) : bool :=
  let n := N_of_ascii c in ((65 <=? n) && (n <=? 71))%N.

Definition is_accidental (c : ascii) : bool :=
  (Ascii.eqb c "#" || Ascii.eqb c "b")%char.

Definition is_digit (c : ascii) : bool :=
  let n := N_of_ascii c in ((48 <=? n) && (n <=? 57))%N.

(** The longest run of digits at the head of [s], and what follows it. *)
Fixpoint take_digits (s : string) : string * string :=
  match s with
  | String c s' =>
      if is_digit c then let (ds, rest) := take_digits s' in (String c ds, rest)
      else (EmptyString, s)
  | EmptyString => (EmptyString, EmptyString)
  end.

(** A match of the pattern that starts at the first character of [s]: the
    two capture groups.  Both optional parts are greedy; giving one back
    never helps, since the character given back is neither a sign nor a
    digit. *)
Definition match_note_here (s : string) : option (string * string) :=
  match s with
  | String c s1 =>
      if is_note_letter c then
        let (name, s2) :=
          match s1 with
          | String a s1' =>
              if is_accidental a then (String c (String a EmptyString), s1')
              else (String c EmptyString, s1)
          | EmptyString => (String c EmptyString, s1)
          end in
        let (sign, s3) :=
          match s2 with
          | String m s2' =>
              if Ascii.eqb m "-" then (String m EmptyString, s2')
              else (EmptyString, s2)
          | EmptyString => (EmptyString, s2)
          end in
        let (ds, _) := take_digits s3 in
        match ds with
        | EmptyString => None
        | _ => Some (name, (sign +:+ ds)%string)
        end
      else None
  | EmptyString => None
  end.

(** [note.match(/([A-G][#b]?)(-?\d+)/)]: the leftmost match. *)
Fixpoint match_note (s : string) : option (string * string) :=
  match match_note_here s with
  | Some r => Some r
  | None =>
      match s with
      | String _ s' => match_note s'
      | EmptyString => None
      end
  end.

Definition digit_value (c : ascii) : Z := Z.of_N (N_of_ascii c) - 48.

Fixpoint digits_value (acc : Z) (s : string) : Z :=
  match s with
  | String c s' => digits_value (acc * 10 + digit_value c) s'
  | EmptyString => acc
  end.

(** [parseInt] on a string of the shape [-?\d+]. *)
Definition parseInt (s : string) : Z :=
  match s with
  | String c s' => if Ascii.eqb c "-" then - digits_value 0 s' else digits_value 0 s
  | EmptyString => 0
  end.

(** [NOTE_NAMES.indexOf(name)], -1 when absent. *)
Fixpoint indexOf_from (i : Z) (names : list string) (name : string) : Z :=
  match names with
  | [] => -1
  | n :: names' => if String.eqb n name then i else indexOf_from (i + 1) names' name
  end.

Definition indexOf (names : list string) (name : string) : Z := indexOf_from 0 names name.

Definition flatMap (name : string) : option string :=
  if String.eqb name "Db" then Some "C#"%string
  else if String.eqb name "Eb" then Some "D#"%string
  else if String.eqb name "Gb" then Some "F#"%string
  else if String.eqb name "Ab" then Some "G#"%string
  else if String.eqb name "Bb" then Some "A#"%string
  else None.

(** [noteToMidi] of the codec that delegates to the MIDI library. *)
Definition noteToMidi (note : string) : Z :=
  match match_note note with
  | None => 60
  | Some (name, octStr) =>
      let octave := parseInt octStr in
      let name := match flatMap name with Some sharp => sharp | None => name end in
      let idx := indexOf NOTE_NAMES name in
      (octave + 1) * 12 + idx
  end.

(** *** The language of the pattern, stated on its own

    A string parses as a note name when it contains a name, [A-G] with an
    optional [#] or [b], directly followed by an octave, an optional minus
    sign and one or more digits. *)

Fixpoint all_digits (s : string) : bool :=
  match s with
  | EmptyString => true
  | String c s' => is_digit c && all_digits s'
  end.

Definition is_digits (s : string) : bool :=
  match s with
  | EmptyString => false
  | _ => all_digits s
  end.

Definition is_name (s : string) : bool :=
  match s with
  | String c EmptyString => is_note_letter c
  | String c (String a EmptyString) => is_note_letter c && is_accidental a
  | _ => false
  end.

Definition is_octave (s : string) : bool :=
  match s with
  | String c s' => if Ascii.eqb c "-" then is_digits s' else is_digits s
  | EmptyString => false
  end.

Definition matches_pattern (s : string) : Prop :=
  exists pre name oct post,
    s = (pre +:+ name +:+ oct +:+ post)%string /\ is_name name = true /\ is_octave oct = true.

(** ** Events *)

Inductive EventType : Type := on | off.

Inductive InstrumentID : Type :=
| salamander | hq_piano | electric_grand_piano | drawbar_organ
| acoustic_guitar_steel | string_ensemble_1 | lead_1_square | synth_drum.

(** [AppEvent] of the codec, which is also the [RecordedEvent] of the
    application component (whose extra [code] field only feeds the
    on-screen keyboard and is left out). *)
Record AppEvent : Type := mkEvent {
  time : Q;               (* milliseconds *)
  type : EventType;
  note : string;
  transpose : Z;
  instrumentId : InstrumentID;
  velocity : option Z     (* [None]: the field is absent *)
}.

Definition Qlt_bool (a b : Q) : bool := negb (Qle_bool b a).

(** [Array.prototype.sort] with a comparator that returns a number: a stable
    sort (elements that compare as equal keep their order).  For a
    comparator that is a consistent ordering, as [a.time - b.time] is, the
    result is the one the language prescribes. *)
Fixpoint js_sort_insert {A} (cmp : A -> A -> Q) (x : A) (l : list A) : list A :=
  match l with
  | [] => [x]
  | y :: l' =>
      if Qlt_bool (cmp y x) 0 then y :: js_sort_insert cmp x l'
      else x :: l
  end.

Definition js_sort {A} (cmp : A -> A -> Q) (l : list A) : list A :=
  fold_right (js_sort_insert cmp) [] l.

Definition byTime (a b : AppEvent) : Q := (time a - time b)%Q.

(** [Math.round]: to the nearest integer, halves upwards. *)
Definition Math_round (x : Q) : Z := Qfloor (x + (1 # 2))%Q.

(** [Math.max(0, Math.min(127, n))] *)
Definition clamp127 (n : Z) : Z := Z.max 0 (Z.min 127 n).

(** ** The hand-rolled binary codec *)

Module MidiBinary.

Definition PPQ : Z := 480.
Definition BPM : Z := 120.
Definition MS_PER_TICK : Q := (60000 / inject_Z (BPM * PPQ))%Q.

(** *** Export *)

(** The names under which every plain object answers: [NOTE_TO_MIDI] is an
    object literal, and a read under one of these finds the function or the
    object inherited from [Object.prototype], not [undefined]. *)
Definition INHERITED_NAMES : list string :=
  ["constructor"; "hasOwnProperty"; "isPrototypeOf"; "propertyIsEnumerable";
   "toLocaleString"; "toString"; "valueOf"; "__proto__";
   "__defineGetter__"; "__defineSetter__"; "__lookupGetter__"; "__lookupSetter__"]%string.

Definition inherited (name : string) : bool :=
  existsb (String.eqb name) INHERITED_NAMES.

(** The body of [sortedEvents.forEach(evt => ...)] on the pair
    ([trackBytes], [lastTime]).  An event under whose name [NOTE_TO_MIDI]
    answers [undefined] leaves the callback after its delta time was pushed.
    Under an inherited name the value read is not a number: adding the
    transpose makes a string of it, the clamp gives [NaN], and the byte that
    the [Uint8Array] holds for it is 0. *)
Definition encodeEvent (st : list Z * Q) (evt : AppEvent) : outcome (list Z * Q) :=
  let '(trackBytes, lastTime) := st in
  let deltaMs := (time evt - lastTime)%Q in
  let deltaTicks := Math_round (deltaMs / MS_PER_TICK) in
  let lastTime := time evt in
  let* vlq := writeVarInt deltaTicks in
  let trackBytes := trackBytes ++ vlq in
  let found :=
    match NOTE_TO_MIDI !! note evt with
    | Some midiNum => Some (clamp127 (midiNum + transpose evt))
    | None => if inherited (note evt) then Some 0 else None
    end in
  match found with
  | None => Ok (trackBytes, lastTime)
  | Some midiNum =>
      let channel := 0 in
      match type evt with
      | on =>
          let vel := match velocity evt with
                     | Some v => if v =? 0 then 80 else v
                     | None => 80
                     end in
          Ok (trackBytes ++ [JS32.or 0x90 channel; midiNum; vel], lastTime)
      | off =>
          Ok (trackBytes ++ [JS32.or 0x80 channel; midiNum; 0], lastTime)
      end
  end.

Fixpoint encodeEvents (st : list Z * Q) (evts : list AppEvent) : outcome (list Z * Q) :=
  match evts with
  | [] => Ok st
  | evt :: evts' => let* st' := encodeEvent st evt in encodeEvents st' evts'
  end.

(** The track data: the events followed by the End of Track meta event. *)
Definition trackBytesOf (events : list AppEvent) : outcome (list Z) :=
  let sortedEvents := js_sort byTime events in
  let* (trackBytes, _) := encodeEvents ([], 0%Q) sortedEvents in
  Ok (trackBytes ++ [0x00; 0xFF; 0x2F; 0x00]).

Definition header : list Z :=
  [0x4D; 0x54; 0x68; 0x64;
   0x00; 0x00; 0x00; 0x06;
   0x00; 0x00;
   0x00; 0x01;
   JS32.and (JS32.sar PPQ 8) 0xFF; JS32.and PPQ 0xFF].

Definition trackHeader (len : Z) : list Z :=
  [0x4D; 0x54; 0x72; 0x6B;
   JS32.and (JS32.sar len 24) 0xFF;
   JS32.and (JS32.sar len 16) 0xFF;
   JS32.and (JS32.sar len 8) 0xFF;
   JS32.and len 0xFF].

(** The bytes of the [Blob] that [generateMidiFile] returns; building the
    [Uint8Array] reduces every element modulo 256. *)
Definition generateMidiFile (events : list AppEvent) : outcome (list Z) :=
  let* trackBytes := trackBytesOf events in
  Ok (map (fun b => b mod 256)
          (header ++ trackHeader (Z.of_nat (length trackBytes)) ++ trackBytes)).

(** *** Import *)

(** [view.getUint16(i)] and [view.getUint32(i)], big-endian. *)
Definition getUint16 (view : list Z) (i : Z) : outcome Z :=
  let* b0 := getUint8 view i in
  let* b1 := getUint8 view (i + 1) in
  Ok (b0 * 256 + b1).

Definition getUint32 (view : list Z) (i : Z) : outcome Z :=
  let* b0 := getUint8 view i in
  let* b1 := getUint8 view (i + 1) in
  let* b2 := getUint8 view (i + 2) in
  let* b3 := getUint8 view (i + 3) in
  Ok (((b0 * 256 + b1) * 256 + b2) * 256 + b3).

(** What the loop over a track's events reads and writes. *)
Record TrackState : Type := mkTrack {
  cursor : Z;
  usPerBeat : Z;
  events : list AppEvent;
  currentTimeTicks : Z;
  currentTimeMs : Q;
  lastStatus : Z
}.

Definition noteName (n : Z) : string :=
  match MIDI_TO_NOTE n with Some s => s | None => "C4"%string end.

(** One round of [while (cursor < endOfTrack)]. *)
Definition trackEvent (view : list Z) (ppq : Z) (s : TrackState) : outcome TrackState :=
  let* (deltaTicks, deltaLen) := readVarInt view (cursor s) in
  let cur := cursor s + deltaLen in
  let ticks := currentTimeTicks s + deltaTicks in
  let deltaMs := (inject_Z (deltaTicks * usPerBeat s) / inject_Z (ppq * 1000))%Q in
  let ms := (currentTimeMs s + deltaMs)%Q in
  let* status0 := getUint8 view cur in
  let '(status, last, cur) :=
    if JS32.and status0 0x80 =? 0 then (lastStatus s, lastStatus s, cur)
    else (status0, status0, cur + 1) in
  let eventType := JS32.sar status 4 in
  if eventType =? 0x8 then
    let* n := getUint8 view cur in
    let* vel := getUint8 view (cur + 1) in
    Ok (mkTrack (cur + 2) (usPerBeat s)
          (events s ++ [mkEvent ms off (noteName n) 0 salamander (Some vel)])
          ticks ms last)
  else if eventType =? 0x9 then
    let* n := getUint8 view cur in
    let* vel := getUint8 view (cur + 1) in
    if vel =? 0 then
      Ok (mkTrack (cur + 2) (usPerBeat s)
            (events s ++ [mkEvent ms off (noteName n) 0 salamander (Some 0)])
            ticks ms last)
    else
      Ok (mkTrack (cur + 2) (usPerBeat s)
            (events s ++ [mkEvent ms on (noteName n) 0 salamander (Some vel)])
            ticks ms last)
  else if eventType =? 0xF then
    if status =? 0xFF then
      let* ty := getUint8 view cur in
      let* (len, lenBytes) := readVarInt view (cur + 1) in
      let cur := cur + 1 + lenBytes in
      let* us :=
        if ty =? 0x51 then
          let* b0 := getUint8 view cur in
          let* b1 := getUint8 view (cur + 1) in
          let* b2 := getUint8 view (cur + 2) in
          Ok (JS32.or (JS32.or (JS32.shl b0 16) (JS32.shl b1 8)) b2)
        else Ok (usPerBeat s) in
      Ok (mkTrack (cur + len) us (events s) ticks ms last)
    else
      Ok (mkTrack (cur + 1) (usPerBeat s) (events s) ticks ms last)
  else if (eventType =? 0xC) || (eventType =? 0xD) then
    Ok (mkTrack (cur + 1) (usPerBeat s) (events s) ticks ms last)
  else
    Ok (mkTrack (cur + 2) (usPerBeat s) (events s) ticks ms last).

(** [while (cursor < endOfTrack) { ... }].  A meta event may declare a
    negative length (a five-byte quantity wraps in 32 bits) and send the
    cursor backwards, so the loop takes fuel. *)
Fixpoint trackLoop (fuel : nat) (view : list Z) (ppq endOfTrack : Z) (s : TrackState)
  : outcome TrackState :=
  if cursor s <? endOfTrack then
    match fuel with
    | O => Diverges
    | S fuel' =>
        let* s' := trackEvent view ppq s in
        trackLoop fuel' view ppq endOfTrack s'
    end
  else Ok s.

(** [for (let t = 0; t < numTracks; t++) { ... }] on the state that
    outlives a track: the cursor, the tempo and the events. *)
Fixpoint tracksLoop (fuel : nat) (view : list Z) (ppq : Z) (numTracks : nat)
    (cur us : Z) (evs : list AppEvent) : outcome (list AppEvent) :=
  match numTracks with
  | O => Ok evs
  | S numTracks' =>
      let* _ := getUint8 view cur in
      let* _ := getUint8 view (cur + 1) in
      let* _ := getUint8 view (cur + 2) in
      let* _ := getUint8 view (cur + 3) in
      let cur := cur + 4 in
      let* trackLen := getUint32 view cur in
      let cur := cur + 4 in
      let endOfTrack := cur + trackLen in
      let* s := trackLoop fuel view ppq endOfTrack (mkTrack cur us evs 0 0%Q 0) in
      tracksLoop fuel view ppq numTracks' (cursor s) (usPerBeat s) (events s)
  end.

Definition MThd : list Z := [0x4D; 0x54; 0x68; 0x64].

Definition parseMidiFile_fuel (fuel : nat) (view : list Z) : outcome (list AppEvent) :=
  let* h0 := getUint8 view 0 in
  let* h1 := getUint8 view 1 in
  let* h2 := getUint8 view 2 in
  let* h3 := getUint8 view 3 in
  if negb (bool_decide ([h0; h1; h2; h3] = MThd)) then Throws InvalidMidiHeader
  else
    let cur := 8 in
    let* format := getUint16 view cur in
    let cur := cur + 2 in
    let* numTracks := getUint16 view cur in
    let cur := cur + 2 in
    let* timeDivision := getUint16 view cur in
    let cur := cur + 2 in
    let ppq := if JS32.and timeDivision 0x8000 =? 0 then timeDivision else 480 in
    let usPerBeat := 500000 in
    let* evs := tracksLoop fuel view ppq (Z.to_nat numTracks) cur usPerBeat [] in
    Ok (js_sort byTime evs).

(** Every round of the track loop that does not go backwards consumes a
    byte, so the size of the buffer is the natural amount of fuel; a result
    other than [Diverges] is the same with any larger amount. *)
Definition parseMidiFile (view : list Z) : outcome (list AppEvent) :=
  parseMidiFile_fuel (S (length view)) view.

End MidiBinary.

(** ** The codec that delegates to a MIDI library (export side)

    The library itself is not part of the repository.  What the export
    function computes before it hands over is the list of notes it offers to
    [track.addNote]; that list is what is modelled. *)

Module MidiTone.

Record Note : Type := mkNote {
  midi : Z;
  ntime : Q;        (* seconds *)
  duration : Q;     (* seconds *)
  nvelocity : Q
}.

(** [pendingNotes], keyed by the unclamped pitch number. *)
Record Pending : Type := mkPending { startTime : Q; pvelocity : Q }.

Definition pairEvent (st : gmap Z Pending * list Note) (evt : AppEvent)
  : gmap Z Pending * list Note :=
  let '(pendingNotes, notes) := st in
  let rawMidi := noteToMidi (note evt) in
  let finalMidi := rawMidi + transpose evt in
  let clampedMidi := clamp127 finalMidi in
  let key := finalMidi in
  match type evt with
  | on =>
      let vel := match velocity evt with
                 | Some v => if v =? 0 then 80 else v
                 | None => 80
                 end in
      (<[key := mkPending (time evt / 1000) (inject_Z vel / 127)]> pendingNotes, notes)
  | off =>
      match pendingNotes !! key with
      | Some pending =>
          let endTime := (time evt / 1000)%Q in
          let d := (endTime - startTime pending)%Q in
          let d := if Qle_bool d 0 then 0.05%Q else d in
          (delete key pendingNotes,
           notes ++ [mkNote clampedMidi (startTime pending) d (pvelocity pending)])
      | None => st
      end
  end.

(** The notes offered to the library by [generateMidiFile]. *)
Definition notesOf (events : list AppEvent) : list Note :=
  snd (fold_left pairEvent (js_sort byTime events) (∅, [])).

(** The comparator of the import side:
    [if (Math.abs(a.time - b.time) < 0.1) return typeA - typeB; return a.time - b.time]. *)
Definition typeRank (t : EventType) : Q := match t with off => 0 | on => 1 end.

Definition compareImported (a b : AppEvent) : Q :=
  if Qlt_bool (Qabs (time a - time b)) 0.1 then (typeRank (type a) - typeRank (type b))%Q
  else (time a - time b)%Q.

End MidiTone.

(** ** The audio engine *)

Inductive SustainLevel : Type := OFF | SHORT | LONG.

Inductive MetronomeSound : Type := beep | click | woodblock.

(** What the engine asks of the audio graph.  A number stands for a buffer
    source together with its gain node. *)
Inductive AudioOp : Type :=
| SourceStart (id : nat) (buffer : string) (distance : Z) (gain : Q) (startTime : Q)
| SourceRelease (id : nat) (t : Q) (release : Q)
| MetronomeTick (sound : MetronomeSound) (t : Q).

Record AudioEngine : Type := mkEngine {
  ctx : bool;                        (* [this.ctx] is set *)
  masterGain : bool;                 (* [this.masterGain] is set *)
  isLoaded : bool;
  buffers : list string;             (* keys of [this.buffers], in insertion order *)
  sustainLevel : SustainLevel;
  currentInstrument : InstrumentID;
  activeSources : gmap string nat;
  nextNoteTime : Q;
  timerID : bool;                    (* a scheduler timeout is pending *)
  isMetronomePlaying : bool;
  bpm : Q;
  metronomeSound : MetronomeSound;
  nextNode : nat;                    (* the next source to be created *)
  audio : list AudioOp               (* requests made so far, oldest first *)
}.

Definition with_sources (e : AudioEngine) (m : gmap string nat) (n : nat)
    (op : AudioOp) : AudioEngine :=
  mkEngine (ctx e) (masterGain e) (isLoaded e) (buffers e) (sustainLevel e)
    (currentInstrument e) m (nextNoteTime e) (timerID e) (isMetronomePlaying e)
    (bpm e) (metronomeSound e) n (audio e ++ [op]).

Definition with_metronome (e : AudioEngine) (next : Q) (timer playing : bool) (b : Q)
  : AudioEngine :=
  mkEngine (ctx e) (masterGain e) (isLoaded e) (buffers e) (sustainLevel e)
    (currentInstrument e) (activeSources e) next timer playing
    b (metronomeSound e) (nextNode e) (audio e).

Definition with_tick (e : AudioEngine) (op : AudioOp) : AudioEngine :=
  mkEngine (ctx e) (masterGain e) (isLoaded e) (buffers e) (sustainLevel e)
    (currentInstrument e) (activeSources e) (nextNoteTime e) (timerID e)
    (isMetronomePlaying e) (bpm e) (metronomeSound e) (nextNode e) (audio e ++ [op]).

(** [`${note}_${transpose}`] *)
Definition mapKey (note : string) (transpose : Z) : string :=
  (note +:+ "_" +:+ string_of_Z transpose)%string.

Fixpoint endsWith_b (s : string) : bool :=
  match s with
  | EmptyString => false
  | String c EmptyString => Ascii.eqb c "b"
  | String _ s' => endsWith_b s'
  end.

Definition getNoteNumber (note : string) : Z :=
  match match_note note with
  | None => 0
  | Some (name, octStr) =>
      let name :=
        if endsWith_b name then
          match flatMap name with Some sharp => sharp | None => name end
        else name in
      let index := indexOf NOTE_NAMES name in
      let octave := parseInt octStr in
      octave * 12 + index + 12
  end.

(** The loop of [getClosestBuffer]: [None] for the distance is [Infinity]. *)
Definition closer (midi : Z) (acc : option Z * string) (note : string) : option Z * string :=
  let bufferMidi := getNoteNumber note in
  let dist := midi - bufferMidi in
  match fst acc with
  | None => (Some dist, note)
  | Some minDist => if Z.abs dist <? Z.abs minDist then (Some dist, note) else acc
  end.

Definition getClosestBuffer (e : AudioEngine) (midi : Z) : option (string * Z) :=
  match buffers e with
  | [] => None
  | _ =>
      match fold_left (closer midi) (buffers e) (None, EmptyString) with
      | (Some minDist, String c s) => Some (String c s, minDist)
      | _ => None
      end
  end.

Definition releaseTime (e : AudioEngine) : Q :=
  let release :=
    match sustainLevel e with
    | LONG => 2.0
    | SHORT => 0.5
    | OFF => 0.2
    end%Q in
  match currentInstrument e with
  | string_ensemble_1 | lead_1_square =>
      match sustainLevel e with SHORT => 1.0%Q | _ => release end
  | _ => release
  end.

(** [when || this.ctx.currentTime] *)
Definition orNow (when now : Q) : Q := if Qeq_bool when 0 then now else when.

(** [stopNote(note, transpose, when)] when the audio clock reads [now].  The
    timeout that later disconnects the nodes is not modelled. *)
Definition stopNote (e : AudioEngine) (now : Q) (note : string) (transpose : Z) (when : Q)
  : AudioEngine :=
  let key := mapKey note transpose in
  match activeSources e !! key with
  | Some active =>
      if ctx e then
        let t := orNow when now in
        with_sources e (delete key (activeSources e)) (nextNode e)
          (SourceRelease active t (releaseTime e))
      else e
  | None => e
  end.

(** [playNote(note, transpose, velocity, when)]; an absent velocity takes
    the default of the parameter.  An immediate play also asks a suspended
    context to resume; whether the context is suspended is not part of the
    engine here, so that request leaves no trace. *)
Definition playNote (e : AudioEngine) (now : Q) (note : string) (transpose : Z)
    (velocity : option Z) (when : Q) : AudioEngine :=
  if negb (ctx e) || negb (isLoaded e) || negb (masterGain e) then e
  else
    let velocity := match velocity with Some v => v | None => 100 end in
    let key := mapKey note transpose in
    let e := if Qeq_bool when 0 then stopNote e now note transpose 0 else e in
    let baseMidi := getNoteNumber note in
    if baseMidi =? 0 then e
    else
      let targetMidi := baseMidi + transpose in
      match getClosestBuffer e targetMidi with
      | None => e
      | Some (buffer, distance) =>
          let source := nextNode e in
          let normalizedVel := (inject_Z (clamp127 velocity) / 127)%Q in
          let gainValue := (normalizedVel * normalizedVel)%Q in
          let startTime := orNow when now in
          with_sources e (<[key := source]> (activeSources e)) (S source)
            (SourceStart source buffer distance gainValue startTime)
      end.

(** *** Metronome *)

Definition scheduleAheadTime : Q := 0.1.

Definition setBPM (e : AudioEngine) (b : Q) : AudioEngine :=
  with_metronome e (nextNoteTime e) (timerID e) (isMetronomePlaying e) b.

(** [scheduleMetronomeTick(time)]: a sound is requested only when the
    context and the master gain exist. *)
Definition scheduleMetronomeTick (e : AudioEngine) (t : Q) : AudioEngine :=
  if negb (ctx e) || negb (masterGain e) then e
  else with_tick e (MetronomeTick (metronomeSound e) t).

Definition nextNextNoteTime (e : AudioEngine) : AudioEngine :=
  let secondsPerBeat := (60 / bpm e)%Q in
  with_metronome e (nextNoteTime e + secondsPerBeat)%Q (timerID e) (isMetronomePlaying e)
    (bpm e).

(** [while (this.nextNoteTime < this.ctx.currentTime + this.scheduleAheadTime)] *)
Fixpoint schedulerLoop (fuel : nat) (e : AudioEngine) (now : Q) : outcome AudioEngine :=
  if Qlt_bool (nextNoteTime e) (now + scheduleAheadTime) then
    match fuel with
    | O => Diverges
    | S fuel' =>
        schedulerLoop fuel' (nextNextNoteTime (scheduleMetronomeTick e (nextNoteTime e))) now
    end
  else Ok e.

(** One run of the metronome's [scheduler()]; it re-arms its timeout while
    the metronome is on. *)
Definition scheduler (fuel : nat) (e : AudioEngine) (now : Q) : outcome AudioEngine :=
  if negb (ctx e) then Ok e
  else
    let* e := schedulerLoop fuel e now in
    Ok (if isMetronomePlaying e
        then with_metronome e (nextNoteTime e) true (isMetronomePlaying e) (bpm e)
        else e).

Definition startMetronome (fuel : nat) (e : AudioEngine) (now : Q) (b : Q)
  : outcome AudioEngine :=
  if isMetronomePlaying e then Ok e
  else
    let e := with_metronome e (nextNoteTime e) (timerID e) true b in
    if ctx e then
      scheduler fuel (with_metronome e (now + 0.05)%Q (timerID e) true b) now
    else Ok e.

Definition stopMetronome (e : AudioEngine) : AudioEngine :=
  with_metronome e (nextNoteTime e) false false (bpm e).

(** The times of the metronome sounds requested so far. *)
Definition tickTimesOf (ops : list AudioOp) : list Q :=
  flat_map (fun op => match op with MetronomeTick _ t => [t] | _ => [] end) ops.

Definition tickTimes (e : AudioEngine) : list Q := tickTimesOf (audio e).

(** [n] times that start at [x] and are [d] apart, each computed from the one
    before by one addition, and the time that comes after them. *)
Fixpoint grid (x d : Q) (n : nat) : list Q :=
  match n with
  | O => []
  | S n' => x :: grid (x + d)%Q d n'
  end.

Fixpoint gridEnd (x d : Q) (n : nat) : Q :=
  match n with
  | O => x
  | S n' => gridEnd (x + d)%Q d n'
  end.

(** ** The playback scheduler of the application component *)

(** Calls made on the audio engine, oldest first. *)
Inductive Call : Type :=
| PlayNote (note : string) (transpose : Z) (velocity : option Z) (when : Q)
| StopNote (note : string) (transpose : Z) (when : Q).

(** The state and the refs that playback reads and writes.  The sets that
    drive the on-screen keys ([playbackKeys], [playbackNotes]), the stave
    triggers and their index are projections of the same events and are
    left out. *)
Record Player : Type := mkPlayer {
  engine : AudioEngine;              (* the [audioEngine] singleton *)
  calls : list Call;                 (* [playNote] and [stopNote] calls made on it *)
  recording : list AppEvent;         (* [recordingRef.current] *)
  elapsedTime : Q;                   (* milliseconds *)
  isPlayingBack : bool;
  playbackSpeed : Q;                 (* [playbackSpeedRef.current] *)
  isPracticeMode : bool;             (* [isPracticeModeRef.current] *)
  audioContextStartTime : Q;         (* [audioContextStartTimeRef.current], seconds *)
  audioCursor : nat;                 (* [audioCursorRef.current] *)
  playbackStartOffset : Q;           (* [playbackStartOffsetRef.current], milliseconds *)
  workerTicking : bool;              (* the worker's interval is running *)
  animFrame : bool;                  (* a frame of [visualLoop] is requested *)
  resumeCalls : nat                  (* the player's calls of [resumeIfSuspended] *)
}.

(** [audioEngine.currentTime]: [this.ctx?.currentTime || 0]. *)
Definition currentTime (e : AudioEngine) (clock : Q) : Q := if ctx e then clock else 0.

Definition callPlay (p : Player) (clock : Q) (n : string) (tr : Z) (vel : option Z) (when : Q)
  : Player :=
  mkPlayer (playNote (engine p) clock n tr vel when) (calls p ++ [PlayNote n tr vel when])
    (recording p) (elapsedTime p) (isPlayingBack p) (playbackSpeed p) (isPracticeMode p)
    (audioContextStartTime p) (audioCursor p) (playbackStartOffset p)
    (workerTicking p) (animFrame p) (resumeCalls p).

Definition callStop (p : Player) (clock : Q) (n : string) (tr : Z) (when : Q) : Player :=
  mkPlayer (stopNote (engine p) clock n tr when) (calls p ++ [StopNote n tr when])
    (recording p) (elapsedTime p) (isPlayingBack p) (playbackSpeed p) (isPracticeMode p)
    (audioContextStartTime p) (audioCursor p) (playbackStartOffset p)
    (workerTicking p) (animFrame p) (resumeCalls p).

Definition with_cursor (p : Player) (i : nat) : Player :=
  mkPlayer (engine p) (calls p) (recording p) (elapsedTime p) (isPlayingBack p)
    (playbackSpeed p) (isPracticeMode p) (audioContextStartTime p) i
    (playbackStartOffset p) (workerTicking p) (animFrame p) (resumeCalls p).

Definition with_speed (p : Player) (anchor speed : Q) : Player :=
  mkPlayer (engine p) (calls p) (recording p) (elapsedTime p) (isPlayingBack p)
    speed (isPracticeMode p) anchor (audioCursor p)
    (playbackStartOffset p) (workerTicking p) (animFrame p) (resumeCalls p).

Definition with_position (p : Player) (elapsed offset : Q) : Player :=
  mkPlayer (engine p) (calls p) (recording p) elapsed (isPlayingBack p)
    (playbackSpeed p) (isPracticeMode p) (audioContextStartTime p) (audioCursor p)
    offset (workerTicking p) (animFrame p) (resumeCalls p).

Definition with_transport (p : Player) (playing ticking frame : bool) : Player :=
  mkPlayer (engine p) (calls p) (recording p) (elapsedTime p) playing
    (playbackSpeed p) (isPracticeMode p) (audioContextStartTime p) (audioCursor p)
    (playbackStartOffset p) ticking frame (resumeCalls p).

(** [audioEngine.resumeIfSuspended()]: the call asks a suspended audio
    context to resume and touches nothing else; the player counts it. *)
Definition callResume (p : Player) : Player :=
  mkPlayer (engine p) (calls p) (recording p) (elapsedTime p) (isPlayingBack p)
    (playbackSpeed p) (isPracticeMode p) (audioContextStartTime p) (audioCursor p)
    (playbackStartOffset p) (workerTicking p) (animFrame p) (S (resumeCalls p)).

(** Track time in seconds, as [runAudioScheduler] computes it. *)
Definition trackPlayTime (p : Player) (clock : Q) : Q :=
  let currentCtxTime := currentTime (engine p) clock in
  let startOffsetSec := (playbackStartOffset p / 1000)%Q in
  ((currentCtxTime - audioContextStartTime p) * playbackSpeed p + startOffsetSec)%Q.

(** [absolutePlayTime] of an event. *)
Definition absolutePlayTime (p : Player) (evt : AppEvent) : Q :=
  let startOffsetSec := (playbackStartOffset p / 1000)%Q in
  (audioContextStartTime p + (time evt / 1000 - startOffsetSec) / playbackSpeed p)%Q.

(** The branch of the scheduling loop for one event. *)
Definition scheduleEvent (currentCtxTime clock : Q) (p : Player) (evt : AppEvent) : Player :=
  match type evt with
  | on =>
      if Qlt_bool (currentCtxTime - 0.05) (absolutePlayTime p evt) then
        if negb (isPracticeMode p) then
          callPlay p clock (note evt) (transpose evt) (velocity evt) (absolutePlayTime p evt)
        else p
      else p
  | off => callStop p clock (note evt) (transpose evt) (absolutePlayTime p evt)
  end.

(** [while (nextIdx < events.length) { ... nextIdx++ }] on the events from
    [nextIdx] on; the player carries [nextIdx] in its cursor field. *)
Fixpoint scheduleLoop (scheduleUntil currentCtxTime clock : Q) (rest : list AppEvent)
    (p : Player) : Player :=
  match rest with
  | [] => p
  | evt :: rest' =>
      if Qlt_bool scheduleUntil (time evt / 1000) then p
      else
        let p := scheduleEvent currentCtxTime clock p evt in
        scheduleLoop scheduleUntil currentCtxTime clock rest'
          (with_cursor p (S (audioCursor p)))
  end.

(** [pausePlayback] *)
Definition pausePlayback (p : Player) (clock : Q) : Player :=
  let p := with_transport p false false false in
  callStop p clock "C4" 0 0.

(** [events[events.length - 1]] *)
Definition lastEventOf (evts : list AppEvent) : option AppEvent :=
  nth_error evts (length evts - 1).

(** [runAudioScheduler], called on every tick of the worker. *)
Definition runAudioScheduler (p : Player) (clock : Q) : Player :=
  match recording p with
  | [] => p
  | _ =>
      let currentCtxTime := currentTime (engine p) clock in
      let speed := playbackSpeed p in
      let trackTime := trackPlayTime p clock in
      let scheduleUntil := (trackTime + 0.1 * speed)%Q in
      let p := scheduleLoop scheduleUntil currentCtxTime clock
                 (skipn (audioCursor p) (recording p)) p in
      match lastEventOf (recording p) with
      | Some lastEvent =>
          if Qlt_bool (time lastEvent / 1000 + 1.0) trackTime then
            let p := with_transport p (isPlayingBack p) false (animFrame p) in
            let p := pausePlayback p clock in
            with_position p 0 0
          else p
      | None => p
      end
  end.

(** [changePlaybackSpeed] *)
Definition changePlaybackSpeed (p : Player) (clock : Q) (newSpeed : Q) : Player :=
  if isPlayingBack p then
    let now := currentTime (engine p) clock in
    let currentTrackTimeSec := ((now - audioContextStartTime p) * playbackSpeed p)%Q in
    with_speed p (now - currentTrackTimeSec / newSpeed)%Q newSpeed
  else with_speed p (audioContextStartTime p) newSpeed.

(** [while (idx < events.length && events[idx].time < elapsedTime) idx++] *)
Fixpoint fastForward (elapsed : Q) (evts : list AppEvent) (idx : nat) : nat :=
  match evts with
  | [] => idx
  | evt :: evts' =>
      if Qlt_bool (time evt) elapsed then fastForward elapsed evts' (S idx) else idx
  end.

(** [startPlayback] *)
Definition startPlayback (p : Player) (clock : Q) : Player :=
  match lastEventOf (recording p) with
  | None => p
  | Some lastEvent =>
      let p := callResume p in
      let lastEventTime := time lastEvent in
      let p :=
        if Qle_bool lastEventTime (elapsedTime p) then
          with_cursor (with_position p 0 0) 0%nat
        else
          with_cursor (with_position p (elapsedTime p) (elapsedTime p))
            (fastForward (elapsedTime p) (recording p) 0%nat) in
      let p := with_speed p (currentTime (engine p) clock) (playbackSpeed p) in
      with_transport p true true true
  end.

(** [togglePlayback] *)
Definition togglePlayback (p : Player) (clock : Q) : Player :=
  if isPlayingBack p then pausePlayback p clock else startPlayback p clock.

(** [handleStopFullReset], outside of a recording session. *)
Definition handleStopFullReset (p : Player) (clock : Q) : Player :=
  with_cursor (with_position (pausePlayback p clock) 0 0) 0%nat.

(** What [visualLoop] does to the position shown to the user.  With events
    to show it asks for the next frame; without, it returns and no frame is
    left requested. *)
Definition visualLoop (p : Player) (clock : Q) : Player :=
  match recording p with
  | [] => with_transport p (isPlayingBack p) (workerTicking p) false
  | _ =>
      let currentCtxTime := currentTime (engine p) clock in
      let currentTrackTimeMs :=
        ((currentCtxTime - audioContextStartTime p) * playbackSpeed p * 1000
         + playbackStartOffset p)%Q in
      with_position p (if Qlt_bool 0 currentTrackTimeMs then currentTrackTimeMs else 0)
        (playbackStartOffset p)
  end.

(** What can happen to a player, with the reading of the audio clock. *)
Inductive Step : Type :=
| Tick (clock : Q)                  (* the worker posts a tick *)
| Frame (clock : Q)                 (* an animation frame runs [visualLoop] *)
| SetSpeed (clock : Q) (speed : Q)
| Toggle (clock : Q)                (* the play / pause control *)
| StopReset (clock : Q).            (* the stop control *)

Definition step (p : Player) (s : Step) : Player :=
  match s with
  | Tick clock => if workerTicking p then runAudioScheduler p clock else p
  | Frame clock => if animFrame p then visualLoop p clock else p
  | SetSpeed clock speed => changePlaybackSpeed p clock speed
  | Toggle clock => togglePlayback p clock
  | StopReset clock => handleStopFullReset p clock
  end.

Definition run (p : Player) (steps : list Step) : Player := fold_left step steps p.

(** Whether an underscore occurs in a string. *)
Fixpoint has_underscore (s : string) : bool :=
  match s with
  | EmptyString => false
  | String c s' => Ascii.eqb c "_" || has_underscore s'
  end.

(** An engine after [init]: context and master gain created, one sample
    loaded, nothing sounding, metronome off. *)
Definition readyEngine : AudioEngine :=
  mkEngine true true true ["C4"%string] SHORT salamander ∅ 0 false false 120 beep 0 [].

(** ** Playback by timeouts (the application component before the scheduler)

    The earlier playback sets one timeout per event and keeps the set of
    the notes it has started, [activePlaybackNotes], to silence them on
    pause. *)

Module Legacy.

Inductive Timeout : Type :=
| EventTimeout (delay : Q) (evt : AppEvent)
| EndTimeout (delay : Q).

Record Player : Type := mkPlayer {
  recordedEvents : list AppEvent;
  elapsedTime : Q;
  isPlayingBack : bool;
  playbackTimeouts : list Timeout;       (* pending timeouts *)
  activePlaybackNotes : list string;     (* a [Set], in insertion order *)
  calls : list Call
}.

(** [Set.prototype.add] and [delete]. *)
Definition setAdd (k : string) (l : list string) : list string :=
  if existsb (String.eqb k) l then l else l ++ [k].

Definition setDelete (k : string) (l : list string) : list string :=
  List.filter (fun x => negb (String.eqb k x)) l.

(** The callback of the timeout of one event. *)
Definition fire (p : Player) (evt : AppEvent) : Player :=
  let key := mapKey (note evt) (transpose evt) in
  match type evt with
  | on =>
      mkPlayer (recordedEvents p) (elapsedTime p) (isPlayingBack p) (playbackTimeouts p)
        (setAdd key (activePlaybackNotes p))
        (calls p ++ [PlayNote (note evt) (transpose evt) None 0])
  | off =>
      mkPlayer (recordedEvents p) (elapsedTime p) (isPlayingBack p) (playbackTimeouts p)
        (setDelete key (activePlaybackNotes p))
        (calls p ++ [StopNote (note evt) (transpose evt) 0])
  end.

(** [key.split('_')] *)
Fixpoint split_underscore (s : string) : list string :=
  match s with
  | EmptyString => [EmptyString]
  | String c s' =>
      if Ascii.eqb c "_" then EmptyString :: split_underscore s'
      else
        match split_underscore s' with
        | piece :: pieces => String c piece :: pieces
        | [] => [String c EmptyString]
        end
  end.

(** [const [note, transpose] = key.split('_'); audioEngine.stopNote(note,
    parseInt(transpose))].  A key without a second piece that reads as an
    integer would make a call with a transpose that is not a number, which
    no entry of the engine carries; no call stands for it here. *)
Definition stopCallOf (key : string) : list Call :=
  match split_underscore key with
  | n :: t :: _ => if is_octave t then [StopNote n (parseInt t) 0] else []
  | _ => []
  end.

(** [pausePlayback] *)
Definition pausePlayback (p : Player) : Player :=
  mkPlayer (recordedEvents p) (elapsedTime p) false []
    []
    (calls p ++ flat_map stopCallOf (activePlaybackNotes p)).

(** [startPlayback] *)
Definition startPlayback (p : Player) : Player :=
  match lastEventOf (recordedEvents p) with
  | None => p
  | Some lastEvent =>
      let lastEventTime := time lastEvent in
      let restart := Qle_bool lastEventTime (elapsedTime p) in
      let startOffset := if restart then 0%Q else elapsedTime p in
      let eventsToPlay :=
        List.filter (fun e => Qle_bool startOffset (time e)) (recordedEvents p) in
      let timeouts :=
        map (fun evt => EventTimeout (time evt - startOffset)%Q evt) eventsToPlay in
      let timeUntilEnd := (lastEventTime - startOffset + 500)%Q in
      let timeouts :=
        if Qlt_bool 0 timeUntilEnd then timeouts ++ [EndTimeout timeUntilEnd] else timeouts in
      mkPlayer (recordedEvents p) startOffset true (playbackTimeouts p ++ timeouts)
        (activePlaybackNotes p) (calls p)
  end.

End Legacy.

(** *** What a run of the scheduler hands over, stated on its own *)

(** The calls that dealing with one event amounts to: an Off makes one stop;
    an On makes one play unless it is more than 50 ms late or practice mode
    silences it. *)
Definition callsFor (p : Player) (currentCtxTime : Q) (evt : AppEvent) : list Call :=
  match type evt with
  | on =>
      if Qlt_bool (currentCtxTime - 0.05) (absolutePlayTime p evt)
         && negb (isPracticeMode p)
      then [PlayNote (note evt) (transpose evt) (velocity evt) (absolutePlayTime p evt)]
      else []
  | off => [StopNote (note evt) (transpose evt) (absolutePlayTime p evt)]
  end.

(** Two players that differ at most in the engine, the calls and the
    cursor. *)
Definition sameTransport (p p' : Player) : Prop :=
  recording p' = recording p /\ elapsedTime p' = elapsedTime p /\
  isPlayingBack p' = isPlayingBack p /\ playbackSpeed p' = playbackSpeed p /\
  isPracticeMode p' = isPracticeMode p /\
  audioContextStartTime p' = audioContextStartTime p /\
  playbackStartOffset p' = playbackStartOffset p /\
  workerTicking p' = workerTicking p /\ animFrame p' = animFrame p.




(** The ticks of a run that find the worker running, each with the player
    it finds and its reading of the audio clock. *)
Fixpoint ticksOf (q : Player) (steps : list Step) : list (Player * Q) :=
  match steps with
  | [] => []
  | s :: steps' =>
      match s with
      | Tick clock => if workerTicking q then [(q, clock)] else []
      | _ => []
      end ++ ticksOf (step q s) steps'
  end.




(** How often a pair was played, and stopped, in a list of calls. *)
Definition isPlayOf (n : string) (tr : Z) (c : Call) : bool :=
  match c with
  | PlayNote n' tr' _ _ => String.eqb n n' && (tr =? tr')
  | StopNote _ _ _ => false
  end.

Definition isStopOf (n : string) (tr : Z) (c : Call) : bool :=
  match c with
  | StopNote n' tr' _ => String.eqb n n' && (tr =? tr')
  | PlayNote _ _ _ _ => false
  end.

Definition playsOf (n : string) (tr : Z) (cs : list Call) : nat :=
  length (List.filter (isPlayOf n tr) cs).

Definition stopsOf (n : string) (tr : Z) (cs : list Call) : nat :=
  length (List.filter (isStopOf n tr) cs).

(** Sources in the map were all created before the next one. *)
Definition fresh (e : AudioEngine) : Prop :=
  forall key id, activeSources e !! key = Some id -> (id < nextNode e)%nat.

(** *** Sources that sound

    A source sounds once its start was requested and as long as no release
    was.  The engine is in order when the map holds exactly the sources that
    sound, each under one key. *)

Definition startedIn (ops : list AudioOp) (id : nat) : bool :=
  existsb (fun op => match op with
                     | SourceStart i _ _ _ _ => Nat.eqb i id
                     | _ => false
                     end) ops.

Definition releasedIn (ops : list AudioOp) (id : nat) : bool :=
  existsb (fun op => match op with
                     | SourceRelease i _ _ => Nat.eqb i id
                     | _ => false
                     end) ops.

Definition inOrder (e : AudioEngine) : Prop :=
  fresh e /\
  (forall id, startedIn (audio e) id = true -> (id < nextNode e)%nat) /\
  (forall id, releasedIn (audio e) id = true -> (id < nextNode e)%nat) /\
  (forall key id, activeSources e !! key = Some id ->
                  startedIn (audio e) id = true /\ releasedIn (audio e) id = false) /\
  (forall id, startedIn (audio e) id = true -> releasedIn (audio e) id = false ->
              exists key, activeSources e !! key = Some id) /\
  (forall k1 k2 id, activeSources e !! k1 = Some id -> activeSources e !! k2 = Some id ->
                    k1 = k2).

(** Immediate plays, and stops. *)
Inductive KeyOp : Type :=
| PlayNow (clock : Q) (note : string) (transpose : Z) (velocity : option Z)
| Stop (clock : Q) (note : string) (transpose : Z) (when : Q).

Definition keyOp (e : AudioEngine) (op : KeyOp) : AudioEngine :=
  match op with
  | PlayNow clock n t vel => playNote e clock n t vel 0
  | Stop clock n t when => stopNote e clock n t when
  end.

(** A player right after its recording was loaded: a ready engine, nothing
    called yet, stopped at position 0, speed 1, practice mode off. *)
Definition player0 (evts : list AppEvent) : Player :=
  mkPlayer readyEngine [] evts 0 false 1 false 0 0%nat 0 false false 0%nat.

(** ** Concrete inputs *)

(** Two events that agree, their times as rationals. *)
Definition sameEvent (a b : AppEvent) : Prop :=
  time a == time b /\ type a = type b /\ note a = note b /\ transpose a = transpose b
  /\ instrumentId a = instrumentId b /\ velocity a = velocity b.

(** The header chunk of a format 0 file with one track and 480 pulses per
    quarter note. *)
Definition header480 : list Z :=
  [0x4D; 0x54; 0x68; 0x64; 0x00; 0x00; 0x00; 0x06; 0x00; 0x00; 0x00; 0x01; 0x01; 0xE0].

Definition MTrk (len : Z) : list Z := [0x4D; 0x54; 0x72; 0x6B; 0x00; 0x00; 0x00; len].

(** Delta 0, Note On 60 velocity 100; delta 240, Note Off 60 velocity 0;
    End of Track. *)
Definition oneNoteFile : list Z :=
  header480 ++ MTrk 13 ++
  [0x00; 0x90; 0x3C; 0x64;
   0x81; 0x70; 0x80; 0x3C; 0x00;
   0x00; 0xFF; 0x2F; 0x00].

(** A legato pair: Note On 60 at tick 0; at tick 480 the Note On of 62 is
    written before the Note Off of 60 (delta 0); Note Off 62 at tick 960. *)
Definition legatoFile : list Z :=
  header480 ++ MTrk 22 ++
  [0x00; 0x90; 0x3C; 0x64;
   0x83; 0x60; 0x90; 0x3E; 0x64;
   0x00; 0x80; 0x3C; 0x00;
   0x83; 0x60; 0x80; 0x3E; 0x00;
   0x00; 0xFF; 0x2F; 0x00].

(** One note, D4, held for a second. *)
Definition tuneD4 : list AppEvent :=
  [mkEvent 0 on "D4" 0 salamander (Some 100);
   mkEvent 1000 off "D4" 0 salamander None].

(** Two notes that start 60 ms apart. *)
Definition tuneTwo : list AppEvent :=
  [mkEvent 0 on "C4" 0 salamander (Some 100);
   mkEvent 60 on "D4" 0 salamander (Some 100);
   mkEvent 500 off "C4" 0 salamander None;
   mkEvent 500 off "D4" 0 salamander None].

(** One short note. *)
Definition tuneShort : list AppEvent :=
  [mkEvent 0 on "C4" 0 salamander (Some 100);
   mkEvent 100 off "C4" 0 salamander None].

(** Playback of [tuneD4] started at 1 s on the audio clock, and the first
    tick of the worker 25 ms later. *)
Definition heldRun : Player := run (player0 tuneD4) [Toggle 1; Tick 1.025].



(** Playback of [tuneShort] paused at 50 ms, resumed from there at 2 s, and
    drawn once at 3.1 s, which is past the end of the tune by more than a
    second. *)
Definition endRun : Player :=
  run (player0 tuneShort)
    [Toggle 1; Tick 1; Frame 1.05; Toggle 1.05; Toggle 2; Frame 3.1].

(** ** Pitch helpers of the application and of the engine *)

(** [getTransposedNote] of [constants.ts]; [%] is the remainder of the
    truncating division. *)
Definition getTransposedNote (note : string) (semitones : Z) : string :=
  match match_note note with
  | None => note
  | Some (name, octStr) =>
      let octave := parseInt octStr in
      let name := match flatMap name with Some sharp => sharp | None => name end in
      let index := indexOf NOTE_NAMES name in
      if index =? -1 then note
      else
        let totalIndex := index + octave * 12 + semitones in
        let newOctave := totalIndex / 12 in
        let newIndex := Z.rem (Z.rem totalIndex 12 + 12) 12 in
        (nameAt NOTE_NAMES newIndex +:+ string_of_Z newOctave)%string
  end.

(** [getRootKeyName] *)
Definition getRootKeyName (transpose : Z) : string :=
  let idx := Z.rem transpose 12 in
  let idx := if idx <? 0 then idx + 12 else idx in
  (nameAt NOTE_NAMES idx +:+ "(" +:+ string_of_Z (transpose / 12) +:+ ")")%string.

(** [midiNumberToNote] of [constants.ts] *)
Definition midiNumberToNote (midi : Z) : string :=
  let name := nameAt NOTE_NAMES (Z.rem midi 12) in
  let octave := midi / 12 - 1 in
  (name +:+ string_of_Z octave)%string.

(** [midiToStandard] of the audio engine *)
Definition midiToStandard (midi : Z) : string :=
  let name := nameAt NOTE_NAMES (Z.rem midi 12) in
  let oct := midi / 12 - 1 in
  (name +:+ string_of_Z oct)%string.

Definition GM_NAMES : list string :=
  ["C"; "Db"; "D"; "Eb"; "E"; "F"; "Gb"; "G"; "Ab"; "A"; "Bb"; "B"]%string.

(** [getNoteNameForGM] *)
Definition getNoteNameForGM (midi : Z) : string :=
  let name := nameAt GM_NAMES (Z.rem midi 12) in
  let oct := midi / 12 - 1 in
  (name +:+ string_of_Z oct)%string.

(** The sharp spelling of a name: what every helper looks up. *)
Definition sharpOf (name : string) : string :=
  match flatMap name with Some sharp => sharp | None => name end.

(** ** What the decoder reads and returns *)

(** Whether the reader goes on after a byte: [byte & 0x80]. *)
Definition continues (byte : Z) : Prop := JS32.and byte 0x80 <> 0.


(** What every event that the decoder returns looks like. *)
Definition decodedShape (e : AppEvent) : Prop :=
  transpose e = 0 /\ instrumentId e = salamander /\
  (exists v, velocity e = Some v /\ (type e = on -> v <> 0)) /\
  is_Some (NOTE_TO_MIDI !! note e).

(** No variable-length quantity of the buffer, read at any offset, is
    negative: none has a fifth byte that sets bit 31. *)
Definition lengthsNonNegative (view : list Z) : Prop :=
  forall offset value len, readVarInt view offset = Ok (value, len) -> 0 <= value.

(** The same, checked offset by offset. *)
Definition lengthsNonNegative_b (view : list Z) : bool :=
  forallb (fun offset =>
             match readVarInt view (Z.of_nat offset) with
             | Ok (value, _) => 0 <=? value
             | _ => true
             end) (seq 0 (length view)).

(** *** A recording and what comes back of it from a file *)

(** The tick of the exported file that an event falls on. *)
Definition tickOf (e : AppEvent) : Z := Math_round (time e / MidiBinary.MS_PER_TICK).

(** The data bytes of the message that the export writes for an event. *)
Definition pitchOf (e : AppEvent) : Z :=
  clamp127 (match NOTE_TO_MIDI !! note e with Some m => m | None => 0 end + transpose e).

Definition velocityByte (e : AppEvent) : Z :=
  match type e with
  | on => match velocity e with
          | Some v => if v =? 0 then 80 else v
          | None => 80
          end
  | off => 0
  end.

(** An event that the export writes as a message the import reads back: its
    name is in the table, its time is a whole number of ticks that a
    variable-length quantity can carry, and the velocity of an On fits a
    byte. *)
Definition exportable (e : AppEvent) : Prop :=
  is_Some (NOTE_TO_MIDI !! note e) /\
  0 <= tickOf e < 2 ^ 28 /\
  time e == inject_Z (tickOf e) * MidiBinary.MS_PER_TICK /\
  (type e = on -> 0 < velocityByte e < 256).

(** The event that comes back. *)
Definition reimported (e : AppEvent) : AppEvent :=
  mkEvent (time e) (type e) (midiToNote (pitchOf e)) 0 salamander (Some (velocityByte e)).

Definition statusOf (e : AppEvent) : Z := match type e with on => 0x90 | off => 0x80 end.

Definition msgOf (e : AppEvent) : list Z := [statusOf e; pitchOf e; velocityByte e].

Fixpoint trackData (last : Z) (l : list AppEvent) : list Z :=
  match l with
  | [] => []
  | e :: l' => vlq_bytes (tickOf e - last) ++ msgOf e ++ trackData (tickOf e) l'
  end.

Definition EOT : list Z := [0x00; 0xFF; 0x2F; 0x00].

Definition isByte (b : Z) : Prop := 0 <= b < 256.

(** The time the encoder holds as the last one after the events of [l]. *)
Definition lastTimeOf (l : list AppEvent) : Q :=
  match lastEventOf l with Some x => time x | None => 0%Q end.

(** ** What the library-based export offers *)

(** A note that the library can take: a pitch of the MIDI range and a
    duration above zero. *)
Definition noteOk (n : MidiTone.Note) : Prop :=
  0 <= MidiTone.midi n <= 127 /\ (0 < MidiTone.duration n)%Q.

Definition countType (t : EventType) (evts : list AppEvent) : nat :=
  length (List.filter (fun e => match type e, t with
                                | on, on | off, off => true
                                | _, _ => false
                                end) evts).

(** ** Samples, gains and calls of the engine *)

(** The sample maps of the two pianos: note name and file. *)
Definition SALAMANDER_MAP : list (string * string) :=
  [("A0", "A0.mp3"); ("C1", "C1.mp3"); ("D#1", "Ds1.mp3"); ("F#1", "Fs1.mp3"); ("A1", "A1.mp3");
   ("C2", "C2.mp3"); ("D#2", "Ds2.mp3"); ("F#2", "Fs2.mp3"); ("A2", "A2.mp3");
   ("C3", "C3.mp3"); ("D#3", "Ds3.mp3"); ("F#3", "Fs3.mp3"); ("A3", "A3.mp3");
   ("C4", "C4.mp3"); ("D#4", "Ds4.mp3"); ("F#4", "Fs4.mp3"); ("A4", "A4.mp3");
   ("C5", "C5.mp3"); ("D#5", "Ds5.mp3"); ("F#5", "Fs5.mp3"); ("A5", "A5.mp3");
   ("C6", "C6.mp3"); ("D#6", "Ds6.mp3"); ("F#6", "Fs6.mp3"); ("A6", "A6.mp3");
   ("C7", "C7.mp3"); ("D#7", "Ds7.mp3"); ("F#7", "Fs7.mp3"); ("A7", "A7.mp3");
   ("C8", "C8.mp3")]%string.

Definition HQ_PIANO_MAP : list (string * string) :=
  [("A0", "A0.mp3");
   ("C1", "C1.mp3"); ("D#1", "Eb1.mp3"); ("F#1", "Gb1.mp3"); ("A1", "A1.mp3");
   ("C2", "C2.mp3"); ("D#2", "Eb2.mp3"); ("F#2", "Gb2.mp3"); ("A2", "A2.mp3");
   ("C3", "C3.mp3"); ("D#3", "Eb3.mp3"); ("F#3", "Gb3.mp3"); ("A3", "A3.mp3");
   ("C4", "C4.mp3"); ("D#4", "Eb4.mp3"); ("F#4", "Gb4.mp3"); ("A4", "A4.mp3");
   ("C5", "C5.mp3"); ("D#5", "Eb5.mp3"); ("F#5", "Gb5.mp3"); ("A5", "A5.mp3");
   ("C6", "C6.mp3"); ("D#6", "Eb6.mp3"); ("F#6", "Gb6.mp3"); ("A6", "A6.mp3");
   ("C7", "C7.mp3"); ("D#7", "Eb7.mp3"); ("F#7", "Gb7.mp3"); ("A7", "A7.mp3");
   ("C8", "C8.mp3")]%string.

(** [map[key] = value] on an object literal: a new key goes last, a known
    key keeps its place. *)
Fixpoint objSet (key value : string) (map : list (string * string)) : list (string * string) :=
  match map with
  | [] => [(key, value)]
  | (k, v) :: map' =>
      if String.eqb k key then (k, value) :: map' else (k, v) :: objSet key value map'
  end.

(** [map[key]] as a condition: every value is a file name, which is truthy,
    so the test is whether the key is there. *)
Definition objHas (key : string) (map : list (string * string)) : bool :=
  existsb (fun kv => String.eqb (fst kv) key) map.

(** [for (let i = 21; i <= 108; i += 3) map[midiToStandard(i)] = ...], with
    the number of rounds that are left as fuel. *)
Fixpoint gmLoop (rounds : nat) (i : Z) (map : list (string * string)) : list (string * string) :=
  match rounds with
  | O => map
  | S rounds' =>
      if i <=? 108 then
        let noteName := getNoteNameForGM i in
        gmLoop rounds' (i + 3) (objSet (midiToStandard i) (noteName +:+ ".mp3")%string map)
      else map
  end.

(** The map that [loadInstrument] hands to [loadSamples]. *)
Definition instrumentMap (instrumentId : InstrumentID) : list (string * string) :=
  match instrumentId with
  | salamander => SALAMANDER_MAP
  | hq_piano => HQ_PIANO_MAP
  | _ =>
      let map := gmLoop 31 21 [] in
      if negb (objHas "C4" map) then objSet "C4" "C4.mp3" map else map
  end.


(** Whether the notes of [keys] hit every third pitch from 21 (A0) to 108
    (C8). *)
Definition coversThirds (keys : list string) : bool :=
  forallb (fun j => existsb (fun k => getNoteNumber k =? 21 + 3 * Z.of_nat j) keys) (seq 0 30).

Definition noEmptyKey (keys : list string) : bool :=
  forallb (fun k => negb (String.eqb k "")) keys.

(** A request whose gain lies between 0 and 1. *)
Definition gainOk (op : AudioOp) : Prop :=
  match op with
  | SourceStart _ _ _ gain _ => (0 <= gain <= 1)%Q
  | _ => True
  end.

(** A call on the engine, made when the audio clock reads [fst]. *)
Definition engineCall (e : AudioEngine) (c : Q * Call) : AudioEngine :=
  match snd c with
  | PlayNote n t vel when => playNote e (fst c) n t vel when
  | StopNote n t when => stopNote e (fst c) n t when
  end.

(** A source that was started and can no longer be reached: no key of the
    map leads to it and no release was asked for it. *)
Definition orphaned (e : AudioEngine) (id : nat) : Prop :=
  (id < nextNode e)%nat /\ fresh e /\
  (forall key, activeSources e !! key <> Some id) /\
  startedIn (audio e) id = true /\ releasedIn (audio e) id = false.

(** *** Notes that sound during the playback by timeouts *)

Definition pairEqb (a b : string * Z) : bool :=
  String.eqb (fst a) (fst b) && (snd a =? snd b).

(** The pairs held as started, after the callback of one more event. *)
Definition holdStep (held : list (string * Z)) (evt : AppEvent) : list (string * Z) :=
  let nt := (note evt, transpose evt) in
  match type evt with
  | on => if existsb (pairEqb nt) held then held else held ++ [nt]
  | off => List.filter (fun x => negb (pairEqb nt x)) held
  end.

(** Whether a pair sounds after the callbacks of [evts]: its latest event
    among them is an On. *)
Definition soundsAfter (evts : list AppEvent) (n : string) (t : Z) (before : bool) : bool :=
  fold_left (fun b evt =>
               if pairEqb (note evt, transpose evt) (n, t)
               then match type evt with on => true | off => false end
               else b) evts before.

Definition keyOf (nt : string * Z) : string := mapKey (fst nt) (snd nt).

(** ** The computer keyboard (application component)

    [playNoteByCode] and [stopNoteByCode] are the handlers of key-down and
    key-up (and of the mouse on the on-screen keys).  Each event is handled
    in a task of its own: the updater that a handler passes to
    [setActiveKeys], which also writes [activeKeysRef], has run when the
    next handler starts, so the state and the ref hold the same set, the
    one field [activeKeys] below.  [Date.now()] reads one value during a
    handler.  State that only feeds the display ([tempTranspose] next to
    its ref, the time stamp of a stave trigger) is left out. *)

Module Keys.

Definition IMMUNE_TO_MODIFIERS : list string :=
  ["NumLock"; "NumpadDivide"; "NumpadMultiply"; "NumpadSubtract";
   "Numpad7"; "Numpad8"; "Numpad9"; "NumpadAdd";
   "Numpad4"; "Numpad5"; "Numpad6";
   "Numpad1"; "Numpad2"; "Numpad3"; "NumpadEnter";
   "Numpad0"; "NumpadDecimal";
   "Insert"; "Home"; "PageUp"; "Delete"; "End"; "PageDown";
   "ArrowUp"; "ArrowLeft"; "ArrowDown"; "ArrowRight"]%string.

(** The keys of the table of actions in [handleFunctionKey]. *)
Definition ACTION_KEYS : list string :=
  ["Escape"; "F1"; "F2"; "F3"; "F4"; "F5"; "F6"; "F7"; "F8"; "F9"; "F10"; "F11"; "F12";
   "Coffee"]%string.

Definition has (k : string) (l : list string) : bool := existsb (String.eqb k) l.

Record Keyboard : Type := mkKeyboard {
  activeKeys : list string;              (* a [Set], in insertion order *)
  tempTranspose : Z;                     (* [tempTransposeRef.current] *)
  lastShiftLeftReleaseTime : Z;          (* milliseconds of [Date.now()] *)
  transposeBase : Z;                     (* [synthStateRef.current] *)
  octaveShift : Z;
  volume : Q;
  isRecording : bool;
  recordingStartTime : Z;
  recordingRef : list AppEvent;          (* [recordingRef.current] *)
  currentInstrument : InstrumentID;
  currentKeyMap : gmap string string;
  triggerNotes : list string;            (* the notes of [triggerNotes] *)
  engine : AudioEngine
}.

Definition with_keys (s : Keyboard) (keys : list string) : Keyboard :=
  mkKeyboard keys (tempTranspose s) (lastShiftLeftReleaseTime s) (transposeBase s)
    (octaveShift s) (volume s) (isRecording s) (recordingStartTime s) (recordingRef s)
    (currentInstrument s) (currentKeyMap s) (triggerNotes s) (engine s).

Definition with_modifiers (s : Keyboard) (t : Z) (released : Z) : Keyboard :=
  mkKeyboard (activeKeys s) t released (transposeBase s)
    (octaveShift s) (volume s) (isRecording s) (recordingStartTime s) (recordingRef s)
    (currentInstrument s) (currentKeyMap s) (triggerNotes s) (engine s).

Definition with_sound (s : Keyboard) (rec : list AppEvent) (trig : list string)
    (e : AudioEngine) : Keyboard :=
  mkKeyboard (activeKeys s) (tempTranspose s) (lastShiftLeftReleaseTime s) (transposeBase s)
    (octaveShift s) (volume s) (isRecording s) (recordingStartTime s) rec
    (currentInstrument s) (currentKeyMap s) trig e.

(** [updateModifiers] *)
Definition updateModifiers (s : Keyboard) (now : Z) (code : string) (isDown : bool)
  : Keyboard :=
  if String.eqb code "ShiftLeft" then
    let released := if negb isDown then now else lastShiftLeftReleaseTime s in
    let isCtrl := has "ControlLeft" (activeKeys s) in
    let newT := if isCtrl then (if isDown then 0 else -1) else (if isDown then 1 else 0) in
    with_modifiers s newT released
  else if String.eqb code "ControlLeft" then
    let isShift := has "ShiftLeft" (activeKeys s) in
    let newT := if isShift then (if isDown then 0 else 1) else (if isDown then -1 else 0) in
    with_modifiers s newT (lastShiftLeftReleaseTime s)
  else s.

(** [getEffectiveTranspose]; an empty code is falsy. *)
Definition getEffectiveTranspose (s : Keyboard) (now : Z) (code : string) : Z :=
  let effectiveTranspose := tempTranspose s in
  let given := negb (String.eqb code "") in
  if given && has code IMMUNE_TO_MODIFIERS then 0
  else if given && (effectiveTranspose =? 0) && String.prefix "Numpad" code then
    if now - lastShiftLeftReleaseTime s <? 100 then 1 else effectiveTranspose
  else effectiveTranspose.

(** [handleFunctionKey]: the fourteen actions reach into the rest of the
    component and are a parameter here. *)
Definition handleFunctionKey (actions : string -> Keyboard -> Keyboard) (code : string)
    (s : Keyboard) : Keyboard :=
  if has code ACTION_KEYS then actions code s else s.

(** [currentKeyMap[code]], when it is truthy. *)
Definition noteOfCode (s : Keyboard) (code : string) : option string :=
  match currentKeyMap s !! code with
  | Some note => if String.eqb note "" then None else Some note
  | None => None
  end.

(** [playNoteByCode(code)] when [Date.now()] reads [now] and the audio clock
    [clock]. *)
Definition playNoteByCode (actions : string -> Keyboard -> Keyboard) (s : Keyboard)
    (now : Z) (clock : Q) (code : string) : Keyboard :=
  let s :=
    if has code ["Escape"; "Coffee"]%string || String.prefix "F" code
    then handleFunctionKey actions code s else s in
  let s := updateModifiers s now code true in
  let s :=
    match noteOfCode s code with
    | Some note =>
        let effectiveTranspose := getEffectiveTranspose s now code in
        let totalTranspose := transposeBase s + octaveShift s * 12 + effectiveTranspose in
        let vel := Z.min 127 (Qfloor (volume s * 100)) in
        let finalNote := getTransposedNote note totalTranspose in
        let e := playNote (engine s) clock note totalTranspose (Some vel) 0 in
        let rec :=
          if isRecording s
          then recordingRef s ++
               [mkEvent (inject_Z (now - recordingStartTime s)) on note totalTranspose
                  (currentInstrument s) (Some vel)]
          else recordingRef s in
        with_sound s rec [finalNote] e
    | None => s
    end in
  with_keys s (Legacy.setAdd code (activeKeys s)).

(** [stopNoteByCode(code)] *)
Definition stopNoteByCode (s : Keyboard) (now : Z) (clock : Q) (code : string) : Keyboard :=
  let s := updateModifiers s now code false in
  let s :=
    match noteOfCode s code with
    | Some note =>
        let base := transposeBase s + octaveShift s * 12 in
        let effectiveTranspose := getEffectiveTranspose s now code in
        let totalTranspose := base + effectiveTranspose in
        let e := stopNote (engine s) clock note totalTranspose 0 in
        let e := stopNote e clock note base 0 in
        let e := stopNote e clock note (base + 1) 0 in
        let e := stopNote e clock note (base - 1) 0 in
        let rec :=
          if isRecording s
          then recordingRef s ++
               [mkEvent (inject_Z (now - recordingStartTime s)) off note totalTranspose
                  (currentInstrument s) None]
          else recordingRef s in
        with_sound s rec (triggerNotes s) e
    | None => s
    end in
  with_keys s (Legacy.setDelete code (activeKeys s)).

(** A key goes down or up. *)
Inductive KeyEvent : Type :=
| KeyDown (code : string) (now : Z) (clock : Q)
| KeyUp (code : string) (now : Z) (clock : Q).

Definition codeOf (ev : KeyEvent) : string :=
  match ev with KeyDown code _ _ | KeyUp code _ _ => code end.

Definition keyEvent (actions : string -> Keyboard -> Keyboard) (s : Keyboard) (ev : KeyEvent)
  : Keyboard :=
  match ev with
  | KeyDown code now clock => playNoteByCode actions s now clock code
  | KeyUp code now clock => stopNoteByCode s now clock code
  end.

(** The modifier that the keys held down amount to. *)
Definition heldModifier (keys : list string) : Z :=
  (if has "ShiftLeft" keys then 1 else 0) - (if has "ControlLeft" keys then 1 else 0).

End Keys.

(** The default key map, [MAP_FREEPIANO]: key code and note. *)
Definition MAP_FREEPIANO : list (string * string) :=
  [("Backquote", "B4"); ("Digit1", "C5"); ("Digit2", "D5"); ("Digit3", "E5"); ("Digit4", "F5");
   ("Digit5", "G5"); ("Digit6", "A5"); ("Digit7", "B5"); ("Digit8", "C6"); ("Digit9", "D6");
   ("Digit0", "E6"); ("Minus", "F6"); ("Equal", "G6"); ("Backspace", "A6");
   ("Tab", "B3"); ("KeyQ", "C4"); ("KeyW", "D4"); ("KeyE", "E4"); ("KeyR", "F4"); ("KeyT", "G4");
   ("KeyY", "A4"); ("KeyU", "B4"); ("KeyI", "C5"); ("KeyO", "D5"); ("KeyP", "E5");
   ("BracketLeft", "F5"); ("BracketRight", "G5"); ("Backslash", "A5");
   ("CapsLock", "B2"); ("KeyA", "C3"); ("KeyS", "D3"); ("KeyD", "E3"); ("KeyF", "F3");
   ("KeyG", "G3"); ("KeyH", "A3"); ("KeyJ", "B3"); ("KeyK", "C4"); ("KeyL", "D4");
   ("Semicolon", "E4"); ("Quote", "F4"); ("Enter", "G4");
   ("KeyZ", "C2"); ("KeyX", "D2"); ("KeyC", "E2"); ("KeyV", "F2"); ("KeyB", "G2"); ("KeyN", "A2");
   ("KeyM", "B2"); ("Comma", "C3"); ("Period", "D3"); ("Slash", "E3"); ("ShiftRight", "F3");
   ("NumLock", "F5"); ("NumpadDivide", "G5"); ("NumpadMultiply", "A5"); ("NumpadSubtract", "B5");
   ("Numpad7", "B4"); ("Numpad8", "C5"); ("Numpad9", "D5"); ("NumpadAdd", "E5");
   ("Numpad4", "F4"); ("Numpad5", "G4"); ("Numpad6", "A4");
   ("Numpad1", "C4"); ("Numpad2", "D4"); ("Numpad3", "E4"); ("NumpadEnter", "B3");
   ("Numpad0", "G3"); ("NumpadDecimal", "A3");
   ("Insert", "F6"); ("Home", "G6"); ("PageUp", "A6");
   ("Delete", "C6"); ("End", "D6"); ("PageDown", "E6");
   ("ArrowUp", "F3"); ("ArrowLeft", "C3"); ("ArrowDown", "D3"); ("ArrowRight", "E3")]%string.

(** The keyboard of a component that was just mounted, on a ready engine:
    no key held, the default key map and volume, not recording. *)
Definition keyboard0 : Keys.Keyboard :=
  Keys.mkKeyboard [] 0 0 0 0 0.8 false 0 [] salamander (list_to_map MAP_FREEPIANO) []
    readyEngine.

(** Q is pressed while the left Shift is held, and released after it. *)
Definition shiftedQ : list Keys.KeyEvent :=
  [Keys.KeyDown "ShiftLeft" 1000 1; Keys.KeyDown "KeyQ" 1100 1.1;
   Keys.KeyUp "ShiftLeft" 1200 1.2; Keys.KeyUp "KeyQ" 1300 1.3].

(** Function keys that do nothing. *)
Definition noActions (code : string) (s : Keys.Keyboard) : Keys.Keyboard := s.

(** The keys of the engine, each the doing of a key that is held: its note,
    at the base transposition or one semitone beside it. *)
Definition heldSources (s : Keys.Keyboard) : Prop :=
  forall key id,
    activeSources (Keys.engine s) !! key = Some id ->
    exists code note tau,
      In code (Keys.activeKeys s) /\ Keys.noteOfCode s code = Some note /\ -1 <= tau <= 1 /\
      key = mapKey note (Keys.transposeBase s + Keys.octaveShift s * 12 + tau).

Definition keysInv (s : Keys.Keyboard) : Prop :=
  Keys.tempTranspose s = Keys.heldModifier (Keys.activeKeys s) /\
  (ctx (Keys.engine s) = false -> activeSources (Keys.engine s) = ∅) /\
  heldSources s.

(** ** Further concrete inputs *)

(** An engine with every sample of the Salamander piano loaded. *)
Definition loadedEngine : AudioEngine :=
  mkEngine true true true (map fst SALAMANDER_MAP) SHORT salamander ∅ 0 false false 120 beep 0 [].

(** A recording that starts 5 ms before time zero. *)
Definition tuneEarly : list AppEvent :=
  [mkEvent (-5) on "C4" 0 salamander (Some 100)].

(** A file that is not a MIDI file. *)
Definition riffFile : list Z := [0x52; 0x49; 0x46; 0x46; 0x00; 0x00].

(** A ready engine in which C4 sounds, played at 1 s. *)
Definition soundingEngine : AudioEngine := playNote readyEngine 1 "C4" 0 (Some 100) 0.

(** A playback by timeouts of [tuneD4] that has started. *)
Definition legacyD4 : Legacy.Player := Legacy.mkPlayer tuneD4 0 true [] [] [].

(** The first event of [tuneD4]. *)
Definition tuneD4On : list AppEvent := [mkEvent 0 on "D4" 0 salamander (Some 100)].

(** Playback of [tuneTwo] started at 1 s on the audio clock. *)
Definition startedTwo : Player := run (player0 tuneTwo) [Toggle 1].

(** * Properties *)

#[local] Arguments String.append !_ _ / : simpl nomatch.

(** ** The 32-bit operators on small values *)

Section Int32Facts.

Lemma toInt32_id z : - 2 ^ 31 <= z < 2 ^ 31 -> JS32.toInt32 z = z.
Proof.
intros Hz. unfold JS32.toInt32.
destruct (Z.ltb_spec (z mod 2 ^ 32) (2 ^ 31)); Z.div_mod_to_equations; lia.
Qed.

(** [a & (2^n - 1)] for a non-negative 32-bit [a]. *)
Lemma and_ones a n :
  0 <= a < 2 ^ 31 -> 0 <= n <= 31 -> JS32.and a (Z.ones n) = a mod 2 ^ n.
Proof.
intros Ha Hn. unfold JS32.and.
assert (Hp : 2 ^ n <= 2 ^ 31) by (apply Z.pow_le_mono_r; lia).
assert (Ho : 0 <= Z.ones n < 2 ^ 31).
{ rewrite Z.ones_equiv. lia. }
rewrite (toInt32_id a), (toInt32_id (Z.ones n)) by lia.
rewrite Z.land_ones by lia.
apply toInt32_id. pose proof (Z.mod_pos_bound a (2 ^ n)). lia.
Qed.

Lemma and_0x7F a : 0 <= a < 2 ^ 31 -> JS32.and a 0x7F = a mod 128.
Proof. intros. apply (and_ones a 7); lia. Qed.

Lemma and_0xFF a : 0 <= a < 2 ^ 31 -> JS32.and a 0xFF = a mod 256.
Proof. intros. apply (and_ones a 8); lia. Qed.

(** Bit 7 alone. *)
Lemma land_128 a : 0 <= a -> Z.land a 128 = if a mod 256 <? 128 then 0 else 128.
Proof.
intros Ha. apply Z.bits_inj'. intros n Hn.
rewrite Z.land_spec.
change 128 with (2 ^ 7) at 1. rewrite Z.pow2_bits_eqb by lia.
destruct (Z.eqb_spec 7 n) as [<- | Hne].
- rewrite andb_true_r.
  rewrite <- (Z.mod_pow2_bits_low a 8 7) by lia. change (2 ^ 8) with 256.
  rewrite Z.testbit_eqb by lia. change (2 ^ 7) with 128.
  destruct (Z.ltb_spec (a mod 256) 128).
  + rewrite Z.div_small by (pose proof (Z.mod_pos_bound a 256); lia). reflexivity.
  + replace (a mod 256 / 128) with 1
      by (pose proof (Z.mod_pos_bound a 256); Z.div_mod_to_equations; lia).
    reflexivity.
- rewrite andb_false_r.
  destruct (a mod 256 <? 128).
  + now rewrite Z.bits_0.
  + change 128 with (2 ^ 7). rewrite Z.pow2_bits_eqb by lia.
    symmetry. now apply Z.eqb_neq.
Qed.

Lemma and_0x80 a :
  0 <= a < 2 ^ 31 -> (JS32.and a 0x80 =? 0) = (a mod 256 <? 128).
Proof.
intros Ha. unfold JS32.and.
rewrite (toInt32_id a), (toInt32_id 128) by lia.
rewrite land_128 by lia.
destruct (a mod 256 <? 128); reflexivity.
Qed.

Lemma sar_small a n :
  0 <= a < 2 ^ 31 -> 0 <= n < 32 -> JS32.sar a n = a / 2 ^ n.
Proof.
intros Ha Hn. unfold JS32.sar.
rewrite toInt32_id by lia. rewrite Z.mod_small by lia.
apply Z.shiftr_div_pow2. lia.
Qed.

(** Bits that do not overlap add up. *)
Lemma lor_shifted a b n :
  0 <= n -> 0 <= b < 2 ^ n -> Z.lor (a * 2 ^ n) b = a * 2 ^ n + b.
Proof.
intros Hn Hb.
assert (Hd : Z.land (a * 2 ^ n) b = 0).
{ apply Z.bits_inj'. intros k Hk. rewrite Z.land_spec, Z.bits_0.
  destruct (Z.ltb_spec k n).
  - rewrite Z.mul_pow2_bits_low by lia. reflexivity.
  - rewrite <- (Z.mod_small b (2 ^ n)) by lia.
    rewrite Z.mod_pow2_bits_high by lia. apply andb_false_r. }
rewrite <- Z.lxor_lor by assumption.
symmetry. now apply Z.add_nocarry_lxor.
Qed.

Lemma or_0x80 g : 0 <= g < 128 -> JS32.or g 0x80 = g + 128.
Proof.
intros Hg. unfold JS32.or.
rewrite (toInt32_id g), (toInt32_id 128) by lia.
rewrite Z.lor_comm. change 128 with (1 * 2 ^ 7) at 1.
rewrite lor_shifted by lia.
replace (1 * 2 ^ 7 + g) with (g + 128) by lia. apply toInt32_id. lia.
Qed.

(** [(a << n) | b] when nothing is shifted out and [b] fits below. *)
Lemma shl_or a b n :
  0 <= n < 31 -> 0 <= a < 2 ^ (31 - n) -> 0 <= b < 2 ^ n ->
  JS32.or (JS32.shl a n) b = a * 2 ^ n + b.
Proof.
intros Hn Ha Hb.
assert (Hpow : 2 ^ (31 - n) * 2 ^ n = 2 ^ 31).
{ rewrite <- Z.pow_add_r by lia. f_equal. lia. }
assert (Hpn : 0 < 2 ^ n) by (apply Z.pow_pos_nonneg; lia).
assert (Hle : 2 ^ n <= 2 ^ 31) by (apply Z.pow_le_mono_r; lia).
assert (Hle' : 2 ^ (31 - n) <= 2 ^ 31) by (apply Z.pow_le_mono_r; lia).
assert (Hprod : 0 <= a * 2 ^ n /\ a * 2 ^ n + 2 ^ n <= 2 ^ 31) by nia.
unfold JS32.or, JS32.shl.
rewrite (toInt32_id a) by lia.
rewrite Z.mod_small by lia.
rewrite Z.shiftl_mul_pow2 by lia.
rewrite (toInt32_id (a * 2 ^ n)) by lia.
rewrite (toInt32_id (a * 2 ^ n)) by lia.
rewrite (toInt32_id b) by lia.
rewrite lor_shifted by lia.
apply toInt32_id. lia.
Qed.

End Int32Facts.

(** ** Variable-length quantities *)

Ltac vlq_arith := Z.div_mod_to_equations; lia.

(** Equality of two lists of the same shape, element by element. *)
Ltac list_eq :=
  repeat match goal with
         | |- Ok _ = Ok _ => f_equal
         | |- _ :: _ = _ :: _ => f_equal
         end.

Section VarInt.

Lemma pack_stop fuel value buffer :
  0 <= value < 128 -> writeVarInt_pack (S fuel) value buffer = Ok buffer.
Proof.
intros Hv. cbn [writeVarInt_pack].
rewrite sar_small by lia. change (2 ^ 7) with 128.
rewrite Z.div_small by lia. reflexivity.
Qed.

Lemma pack_go fuel value buffer :
  128 <= value < 2 ^ 31 -> 0 <= buffer < 2 ^ 23 ->
  writeVarInt_pack (S fuel) value buffer =
  writeVarInt_pack fuel (value / 128) (buffer * 256 + ((value / 128) mod 128 + 128)).
Proof.
intros Hv Hb. cbn [writeVarInt_pack].
rewrite sar_small by lia. change (2 ^ 7) with 128.
assert (Hq : 0 < value / 128 < 2 ^ 31) by vlq_arith.
destruct (Z.eqb_spec (value / 128) 0); [lia |].
rewrite and_0x7F by lia.
rewrite or_0x80 by (apply Z.mod_pos_bound; lia).
rewrite (shl_or buffer _ 8); [reflexivity | lia | simpl; lia |].
pose proof (Z.mod_pos_bound (value / 128) 128). change (2 ^ 8) with 256. lia.
Qed.

Lemma emit_stop fuel buffer bytes :
  0 <= buffer < 2 ^ 31 -> buffer mod 256 < 128 ->
  writeVarInt_emit (S fuel) buffer bytes = Ok (bytes ++ [buffer mod 256]).
Proof.
intros Hb Hlow. cbn [writeVarInt_emit].
rewrite and_0x80, and_0xFF by lia.
destruct (Z.ltb_spec (buffer mod 256) 128); [reflexivity | lia].
Qed.

Lemma emit_go fuel buffer bytes :
  0 <= buffer < 2 ^ 31 -> 128 <= buffer mod 256 ->
  writeVarInt_emit (S fuel) buffer bytes =
  writeVarInt_emit fuel (buffer / 256) (bytes ++ [buffer mod 256]).
Proof.
intros Hb Hhigh. cbn [writeVarInt_emit].
rewrite and_0x80, and_0xFF by lia.
destruct (Z.ltb_spec (buffer mod 256) 128); [lia |].
rewrite sar_small by lia. reflexivity.
Qed.

Lemma read_stop rest result len byte :
  0 <= result < 2 ^ 24 -> 0 <= byte < 128 ->
  readVarInt_loop (byte :: rest) result len = Ok (result * 128 + byte, len + 1).
Proof.
intros Hr Hb. cbn [readVarInt_loop].
rewrite and_0x80 by lia. rewrite and_0x7F by lia.
rewrite (Z.mod_small byte 256), (Z.mod_small byte 128) by lia.
destruct (Z.ltb_spec byte 128); [| lia].
rewrite (shl_or result byte 7); [reflexivity | lia | simpl; lia | simpl; lia].
Qed.

Lemma read_go rest result len byte :
  0 <= result < 2 ^ 24 -> 128 <= byte < 256 ->
  readVarInt_loop (byte :: rest) result len =
  readVarInt_loop rest (result * 128 + (byte - 128)) (len + 1).
Proof.
intros Hr Hb. cbn [readVarInt_loop].
rewrite and_0x80 by lia. rewrite and_0x7F by lia.
rewrite (Z.mod_small byte 256) by lia.
destruct (Z.ltb_spec byte 128); [lia |].
replace (byte mod 128) with (byte - 128) by vlq_arith.
rewrite (shl_or result _ 7); [reflexivity | lia | simpl; lia | simpl; lia].
Qed.

(** On the legal range the writer produces the prescribed bytes. *)
Lemma writeVarInt_bytes v : 0 <= v < 2 ^ 28 -> writeVarInt v = Ok (vlq_bytes v).
Proof.
intros Hv. unfold writeVarInt, writeVarInt_fuel, vlq_bytes.
rewrite and_0x7F by lia.
change (2 ^ 7) with 128. change (2 ^ 14) with 16384. change (2 ^ 21) with 2097152.
destruct (Z.ltb_spec v 128) as [H1 | H1].
{ rewrite pack_stop by lia. cbn [obind].
  rewrite emit_stop by vlq_arith. cbn [app]. do 2 f_equal. vlq_arith. }
rewrite pack_go by vlq_arith.
destruct (Z.ltb_spec v 16384) as [H2 | H2].
{ rewrite pack_stop by vlq_arith. cbn [obind].
  rewrite emit_go by vlq_arith.
  rewrite emit_stop by vlq_arith. cbn [app].
  list_eq; vlq_arith. }
rewrite pack_go by vlq_arith.
destruct (Z.ltb_spec v 2097152) as [H3 | H3].
{ rewrite pack_stop by vlq_arith. cbn [obind].
  do 2 rewrite emit_go by vlq_arith.
  rewrite emit_stop by vlq_arith. cbn [app].
  list_eq; vlq_arith. }
rewrite pack_go by vlq_arith.
rewrite pack_stop by vlq_arith. cbn [obind].
do 3 rewrite emit_go by vlq_arith.
rewrite emit_stop by vlq_arith. cbn [app].
list_eq; vlq_arith.
Qed.

Lemma vlq_bytes_length v : (1 <= length (vlq_bytes v) <= 4)%nat.
Proof.
unfold vlq_bytes.
destruct (v <? 2 ^ 7), (v <? 2 ^ 14), (v <? 2 ^ 21); cbn [length]; lia.
Qed.

(** The reader on the prescribed bytes, whatever follows them. *)
Lemma readVarInt_loop_bytes v rest :
  0 <= v < 2 ^ 28 ->
  readVarInt_loop (vlq_bytes v ++ rest) 0 0 = Ok (v, Z.of_nat (length (vlq_bytes v))).
Proof.
intros Hv. unfold vlq_bytes.
change (2 ^ 7) with 128. change (2 ^ 14) with 16384. change (2 ^ 21) with 2097152.
destruct (Z.ltb_spec v 128) as [H1 | H1].
{ cbn [app length]. rewrite read_stop by lia. f_equal. }
destruct (Z.ltb_spec v 16384) as [H2 | H2].
{ cbn [app length]. rewrite read_go by vlq_arith.
  rewrite read_stop by vlq_arith. do 2 f_equal. vlq_arith. }
destruct (Z.ltb_spec v 2097152) as [H3 | H3].
{ cbn [app length]. do 2 rewrite read_go by vlq_arith.
  rewrite read_stop by vlq_arith. do 2 f_equal. vlq_arith. }
cbn [app length]. do 3 rewrite read_go by vlq_arith.
rewrite read_stop by vlq_arith. do 2 f_equal. vlq_arith.
Qed.

End VarInt.

(** C7.  For every value from 0 to 2^28 - 1 the writer returns at most four
    bytes, and the reader, started where they begin in any buffer, returns
    the value and the number of bytes written. *)
Theorem vlq_roundtrip (v : Z) (pre post : list Z) :
  0 <= v < 2 ^ 28 ->
  exists bytes,
    writeVarInt v = Ok bytes /\
    (length bytes <= 4)%nat /\
    readVarInt (pre ++ bytes ++ post) (Z.of_nat (length pre))
    = Ok (v, Z.of_nat (length bytes)).
Proof.
intros Hv. exists (vlq_bytes v). split; [| split].
- now apply writeVarInt_bytes.
- apply vlq_bytes_length.
- unfold readVarInt.
  destruct (Z.ltb_spec (Z.of_nat (length pre)) 0); [lia |].
  rewrite Nat2Z.id, skipn_app, skipn_all, Nat.sub_diag. cbn [skipn app].
  now apply readVarInt_loop_bytes.
Qed.

Lemma vlq_roundtrip_witness :
  0 <= 240 < 2 ^ 28 /\
  exists bytes,
    writeVarInt 240 = Ok bytes /\
    (length bytes <= 4)%nat /\
    readVarInt ([0x00; 0x90] ++ bytes ++ [0x80]) (Z.of_nat (length [0x00; 0x90]))
    = Ok (240, Z.of_nat (length bytes)).
Proof.
split; [lia |]. apply (vlq_roundtrip 240 [0x00; 0x90] [0x80]). lia.
Defined.

(** *** Eight rounds of fuel decide [writeVarInt] *)

Section WriterFuel.

Lemma toInt32_range z : - 2 ^ 31 <= JS32.toInt32 z < 2 ^ 31.
Proof.
unfold JS32.toInt32.
destruct (Z.ltb_spec (z mod 2 ^ 32) (2 ^ 31)); Z.div_mod_to_equations; lia.
Qed.

Lemma sar_div a n : 0 <= n < 32 -> JS32.sar a n = JS32.toInt32 a / 2 ^ n.
Proof.
intros Hn. unfold JS32.sar. rewrite Z.mod_small by lia.
apply Z.shiftr_div_pow2. lia.
Qed.

Lemma pack_eq fuel value buffer :
  writeVarInt_pack (S fuel) value buffer
  = if JS32.sar value 7 =? 0 then Ok buffer
    else writeVarInt_pack fuel (JS32.sar value 7)
           (JS32.or (JS32.shl buffer 8) (JS32.or (JS32.and (JS32.sar value 7) 0x7F) 0x80)).
Proof. reflexivity. Qed.

Lemma emit_eq fuel buffer bytes :
  writeVarInt_emit (S fuel) buffer bytes
  = if JS32.and buffer 0x80 =? 0 then Ok (bytes ++ [JS32.and buffer 0xFF])
    else writeVarInt_emit fuel (JS32.sar buffer 8) (bytes ++ [JS32.and buffer 0xFF]).
Proof. reflexivity. Qed.

(** A negative value never leaves the first loop: shifting keeps the sign. *)
Lemma pack_negative fuel : forall value buffer,
  JS32.sar value 7 < 0 -> writeVarInt_pack fuel value buffer = Diverges.
Proof.
induction fuel as [| fuel IH]; intros value buffer Hneg; [reflexivity |].
rewrite pack_eq.
destruct (Z.eqb_spec (JS32.sar value 7) 0) as [E | _]; [lia |].
apply IH.
pose proof (toInt32_range value) as Hr.
rewrite (sar_div value) in Hneg by lia.
rewrite (sar_div (JS32.sar value 7)) by lia.
rewrite (sar_div value) by lia.
rewrite (toInt32_id (JS32.toInt32 value / 2 ^ 7)) by vlq_arith.
vlq_arith.
Qed.

(** A value that is not negative leaves it within five rounds. *)
Lemma pack_returns n : forall value buffer,
  0 <= JS32.sar value 7 < 128 ^ Z.of_nat n ->
  exists b, writeVarInt_pack (S n) value buffer = Ok b.
Proof.
induction n as [| n IH]; intros value buffer Hv; rewrite pack_eq.
- change (128 ^ Z.of_nat 0) with 1 in Hv.
  destruct (Z.eqb_spec (JS32.sar value 7) 0); [eauto | lia].
- destruct (Z.eqb_spec (JS32.sar value 7) 0); [eauto |].
  apply IH.
  rewrite Nat2Z.inj_succ, Z.pow_succ_r in Hv by lia.
  pose proof (toInt32_range value) as Hr.
  rewrite (sar_div value) in Hv by lia.
  rewrite (sar_div (JS32.sar value 7)) by lia.
  rewrite (sar_div value) by lia.
  rewrite (toInt32_id (JS32.toInt32 value / 2 ^ 7)) by vlq_arith.
  change (2 ^ 7) with 128 in *.
  split; [apply Z.div_pos; lia |].
  apply Z.div_lt_upper_bound; lia.
Qed.

Lemma pack_more_fuel fuel : forall value buffer b,
  writeVarInt_pack fuel value buffer = Ok b ->
  writeVarInt_pack (S fuel) value buffer = Ok b.
Proof.
induction fuel as [| fuel IH]; intros value buffer b; [discriminate |].
rewrite (pack_eq (S fuel)), pack_eq.
destruct (JS32.sar value 7 =? 0); [trivial | apply IH].
Qed.

Lemma pack_decided fuel value buffer :
  (5 <= fuel)%nat ->
  writeVarInt_pack fuel value buffer = writeVarInt_pack 5 value buffer.
Proof.
intros Hfuel.
destruct (Z.lt_ge_cases (JS32.sar value 7) 0) as [Hneg | Hpos].
- now rewrite !pack_negative.
- destruct (pack_returns 4 value buffer) as [b Hb].
  { split; [exact Hpos |]. pose proof (toInt32_range value).
    rewrite sar_div by lia. change (128 ^ Z.of_nat 4) with (2 ^ 28). vlq_arith. }
  rewrite Hb. induction Hfuel as [| fuel Hfuel IH]; [exact Hb |].
  now apply pack_more_fuel.
Qed.

(** In the second loop a negative buffer of one byte never ends. *)
Lemma emit_negative fuel : forall buffer bytes,
  - 128 <= JS32.toInt32 buffer < 0 -> writeVarInt_emit fuel buffer bytes = Diverges.
Proof.
induction fuel as [| fuel IH]; intros buffer bytes Hb; [reflexivity |].
rewrite emit_eq.
assert (Hbit : JS32.and buffer 0x80 = 128).
{ unfold JS32.and. rewrite (toInt32_id 128) by lia.
  assert (Hl : Z.land (JS32.toInt32 buffer) 128 = 128).
  { apply Z.bits_inj'. intros n Hn. rewrite Z.land_spec.
    change 128 with (2 ^ 7). rewrite Z.pow2_bits_eqb by lia.
    destruct (Z.eqb_spec 7 n) as [<- | _]; [| apply andb_false_r].
    rewrite andb_true_r, Z.testbit_eqb by lia.
    replace (JS32.toInt32 buffer / 2 ^ 7) with (-1) by vlq_arith. reflexivity. }
  rewrite Hl. reflexivity. }
rewrite Hbit. cbn [Z.eqb].
apply IH. rewrite sar_div by lia.
replace (JS32.toInt32 buffer / 2 ^ 8) with (-1) by vlq_arith.
vm_compute. split; [discriminate | reflexivity].
Qed.

(** Whether a byte-sized buffer continues is its sign. *)
Lemma and_0x80_byte buffer :
  0 <= JS32.toInt32 buffer < 128 -> JS32.and buffer 0x80 = 0.
Proof.
intros Hb. unfold JS32.and. rewrite (toInt32_id 128) by lia.
rewrite land_128 by lia.
rewrite Z.mod_small by lia.
destruct (Z.ltb_spec (JS32.toInt32 buffer) 128); [reflexivity | lia].
Qed.

Lemma emit_decided_byte buffer bytes fuel fuel' :
  - 128 <= JS32.toInt32 buffer < 128 -> (1 <= fuel)%nat -> (1 <= fuel')%nat ->
  writeVarInt_emit fuel buffer bytes = writeVarInt_emit fuel' buffer bytes.
Proof.
intros Hb Hf Hf'.
destruct fuel as [| fuel]; [lia |]. destruct fuel' as [| fuel']; [lia |].
destruct (Z.lt_ge_cases (JS32.toInt32 buffer) 0) as [Hneg | Hpos].
- now rewrite !emit_negative by lia.
- rewrite !emit_eq, and_0x80_byte by lia. reflexivity.
Qed.

Lemma emit_decided_step M n :
  0 < M <= 2 ^ 23 ->
  (forall buffer bytes fuel fuel',
     - M <= JS32.toInt32 buffer < M -> (n <= fuel)%nat -> (n <= fuel')%nat ->
     writeVarInt_emit fuel buffer bytes = writeVarInt_emit fuel' buffer bytes) ->
  forall buffer bytes fuel fuel',
    - (256 * M) <= JS32.toInt32 buffer < 256 * M ->
    (S n <= fuel)%nat -> (S n <= fuel')%nat ->
    writeVarInt_emit fuel buffer bytes = writeVarInt_emit fuel' buffer bytes.
Proof.
intros HM Hdec buffer bytes fuel fuel' Hb Hf Hf'.
destruct fuel as [| fuel]; [lia |]. destruct fuel' as [| fuel']; [lia |].
rewrite !emit_eq.
destruct (JS32.and buffer 128 =? 0); [reflexivity |].
apply Hdec; try lia.
rewrite sar_div by lia.
rewrite (toInt32_id (JS32.toInt32 buffer / 2 ^ 8)) by vlq_arith.
vlq_arith.
Qed.

Lemma emit_decided buffer bytes fuel fuel' :
  (4 <= fuel)%nat -> (4 <= fuel')%nat ->
  writeVarInt_emit fuel buffer bytes = writeVarInt_emit fuel' buffer bytes.
Proof.
intros Hf Hf'.
apply (emit_decided_step (2 ^ 23) 3); try assumption; [lia | |].
- apply (emit_decided_step (2 ^ 15) 2); [lia |].
  apply (emit_decided_step (2 ^ 7) 1); [lia |].
  intros b bs f f' Hb. now apply emit_decided_byte.
- pose proof (toInt32_range buffer). lia.
Qed.

(** More fuel than eight rounds changes nothing, whatever the value. *)
Lemma writeVarInt_fuel_enough fuel value :
  (8 <= fuel)%nat -> writeVarInt_fuel fuel value = writeVarInt value.
Proof.
intros Hfuel. unfold writeVarInt, writeVarInt_fuel.
rewrite (pack_decided fuel) by lia. rewrite (pack_decided 8) by lia.
destruct (writeVarInt_pack 5 value (JS32.and value 127)) as [b | e |]; cbn [obind];
  try reflexivity.
apply emit_decided; lia.
Qed.

End WriterFuel.

(** One value past the legal range the fifth group is shifted out of the
    32-bit buffer, whose sign bit then keeps the second loop running. *)
Example writeVarInt_too_large :
  forall fuel, (8 <= fuel)%nat -> writeVarInt_fuel fuel (2 ^ 28) = Diverges.
Proof. intros fuel Hfuel. now rewrite writeVarInt_fuel_enough. Qed.

Example writeVarInt_240 : writeVarInt 240 = Ok [0x81; 0x70].
Proof. reflexivity. Qed.

Example readVarInt_240 : readVarInt [0x00; 0x81; 0x70; 0x80] 1 = Ok (240, 2).
Proof. reflexivity. Qed.

(** ** Comparisons of rationals *)

Lemma Qlt_bool_iff a b : Qlt_bool a b = true <-> (a < b)%Q.
Proof.
unfold Qlt_bool. rewrite negb_true_iff.
destruct (Qle_bool b a) eqn:E.
- apply Qle_bool_iff in E. split; [discriminate | intros H; lra].
- split; [intros _ | reflexivity].
  apply Qnot_le_lt. intros H. apply Qle_bool_iff in H. congruence.
Qed.

Lemma Qlt_bool_false a b : Qlt_bool a b = false <-> (b <= a)%Q.
Proof.
unfold Qlt_bool. rewrite negb_false_iff. apply Qle_bool_iff.
Qed.

(** ** The decoder *)

Section DecoderFuel.

Lemma obind_not_diverges {A B} (m : outcome A) (k : A -> outcome B) :
  obind m k <> Diverges -> m <> Diverges.
Proof. destruct m; cbn; congruence. Qed.

Lemma trackLoop_eq view ppq endOfTrack fuel s :
  MidiBinary.trackLoop fuel view ppq endOfTrack s
  = if MidiBinary.cursor s <? endOfTrack then
      match fuel with
      | O => Diverges
      | S fuel' =>
          let* s' := MidiBinary.trackEvent view ppq s in
          MidiBinary.trackLoop fuel' view ppq endOfTrack s'
      end
    else Ok s.
Proof. destruct fuel; reflexivity. Qed.

(** More fuel does not change a result. *)
Lemma trackLoop_more_fuel view ppq endOfTrack fuel : forall s,
  MidiBinary.trackLoop fuel view ppq endOfTrack s <> Diverges ->
  MidiBinary.trackLoop (S fuel) view ppq endOfTrack s
  = MidiBinary.trackLoop fuel view ppq endOfTrack s.
Proof.
induction fuel as [| fuel IH]; intros s Hres;
  rewrite (trackLoop_eq _ _ _ (S _)); rewrite trackLoop_eq in Hres |- *;
  destruct (MidiBinary.cursor s <? endOfTrack); try reflexivity; try congruence.
destruct (MidiBinary.trackEvent view ppq s) as [s' | e |]; cbn [obind] in *;
  [| reflexivity | congruence].
now apply IH.
Qed.

Lemma trackLoop_fuel_le view ppq endOfTrack fuel fuel' s :
  (fuel <= fuel')%nat ->
  MidiBinary.trackLoop fuel view ppq endOfTrack s <> Diverges ->
  MidiBinary.trackLoop fuel' view ppq endOfTrack s
  = MidiBinary.trackLoop fuel view ppq endOfTrack s.
Proof.
intros Hle Hres. induction Hle as [| fuel' Hle IH]; [reflexivity |].
rewrite <- IH. apply trackLoop_more_fuel. now rewrite IH.
Qed.

Lemma tracksLoop_fuel_le view ppq fuel fuel' numTracks : forall cur us evs,
  (fuel <= fuel')%nat ->
  MidiBinary.tracksLoop fuel view ppq numTracks cur us evs <> Diverges ->
  MidiBinary.tracksLoop fuel' view ppq numTracks cur us evs
  = MidiBinary.tracksLoop fuel view ppq numTracks cur us evs.
Proof.
induction numTracks as [| n IH]; intros cur us evs Hle Hres; [reflexivity |].
cbn [MidiBinary.tracksLoop] in *.
repeat match goal with
       | |- context [obind (getUint8 ?v ?i) _] =>
           destruct (getUint8 v i); cbn [obind] in *; [| reflexivity | reflexivity]
       | |- context [obind (MidiBinary.getUint32 ?v ?i) _] =>
           destruct (MidiBinary.getUint32 v i); cbn [obind] in *; [| reflexivity | reflexivity]
       end.
match goal with
| |- context [MidiBinary.trackLoop fuel' _ _ ?e ?s] =>
    assert (Hloop : MidiBinary.trackLoop fuel view ppq e s <> Diverges)
      by (now apply obind_not_diverges in Hres);
    rewrite (trackLoop_fuel_le view ppq e fuel fuel' s Hle Hloop);
    destruct (MidiBinary.trackLoop fuel view ppq e s) as [s' | |]; cbn [obind] in *;
      [| reflexivity | reflexivity]
end.
now apply IH.
Qed.

Lemma parseMidiFile_fuel_le view fuel fuel' :
  (fuel <= fuel')%nat ->
  MidiBinary.parseMidiFile_fuel fuel view <> Diverges ->
  MidiBinary.parseMidiFile_fuel fuel' view = MidiBinary.parseMidiFile_fuel fuel view.
Proof.
intros Hle Hres. unfold MidiBinary.parseMidiFile_fuel in *.
repeat match goal with
       | |- context [obind (getUint8 ?v ?i) _] =>
           destruct (getUint8 v i); cbn [obind] in *; [| reflexivity | reflexivity]
       end.
destruct (negb _); [reflexivity |].
repeat match goal with
       | |- context [obind (MidiBinary.getUint16 ?v ?i) _] =>
           destruct (MidiBinary.getUint16 v i); cbn [obind] in *; [| reflexivity | reflexivity]
       end.
match goal with
| |- context [MidiBinary.tracksLoop fuel' ?v ?q ?n ?c ?u ?e] =>
    rewrite (tracksLoop_fuel_le v q fuel fuel' n c u e Hle);
      [reflexivity | now apply obind_not_diverges in Hres]
end.
Qed.

(** What the decoder returns with the fuel of [parseMidiFile], it returns
    with any larger amount. *)
Lemma parseMidiFile_enough view evs fuel :
  MidiBinary.parseMidiFile view = Ok evs ->
  (length view < fuel)%nat ->
  MidiBinary.parseMidiFile_fuel fuel view = Ok evs.
Proof.
unfold MidiBinary.parseMidiFile. intros Hres Hfuel.
rewrite (parseMidiFile_fuel_le view (S (length view)) fuel); [exact Hres | lia |].
rewrite Hres. discriminate.
Qed.

End DecoderFuel.

(** The sort of the decoder leaves alone a list whose times never go down:
    events of one track come out in the order of the stream, ties
    included. *)
Lemma js_sort_sorted (l : list AppEvent) :
  StronglySorted (fun a b => time a <= time b)%Q l -> js_sort byTime l = l.
Proof.
intros Hs. unfold js_sort.
induction Hs as [| x l Hs IH Hx]; cbn [fold_right]; [reflexivity |].
rewrite IH. destruct Hx as [| y l' Hxy _]; cbn [js_sort_insert]; [reflexivity |].
assert (Hnot : Qlt_bool (byTime y x) 0 = false).
{ apply Qlt_bool_false. unfold byTime. lra. }
now rewrite Hnot.
Qed.

(** C6.  The file made of the 480-PPQ header and a track with Note On 60
    (velocity 100) at delta 0, Note Off 60 at delta 240 and End of Track
    decodes to an On of C4 at 0 ms with velocity 100 and an Off of C4 at
    250 ms. *)
Theorem decode_one_note :
  exists evs,
    (forall fuel, (length oneNoteFile < fuel)%nat ->
                  MidiBinary.parseMidiFile_fuel fuel oneNoteFile = Ok evs) /\
    Forall2 sameEvent evs
      [mkEvent 0 on "C4" 0 salamander (Some 100);
       mkEvent 250 off "C4" 0 salamander (Some 0)].
Proof.
eexists. split.
- intros fuel. apply parseMidiFile_enough. vm_compute. reflexivity.
- repeat constructor.
Qed.

(** C3.  In the legato file the Note On of D4 and the Note Off of C4 carry
    the same time, 500 ms, and the decoder returns the On before the Off:
    its sort compares times only and keeps the order of the stream. *)
Theorem decode_keeps_on_before_off :
  exists evs,
    (forall fuel, (length legatoFile < fuel)%nat ->
                  MidiBinary.parseMidiFile_fuel fuel legatoFile = Ok evs) /\
    Forall2 sameEvent evs
      [mkEvent 0 on "C4" 0 salamander (Some 100);
       mkEvent 500 on "D4" 0 salamander (Some 100);
       mkEvent 500 off "C4" 0 salamander (Some 0);
       mkEvent 1000 off "D4" 0 salamander (Some 0)].
Proof.
eexists. split.
- intros fuel. apply parseMidiFile_enough. vm_compute. reflexivity.
- repeat constructor.
Qed.

(** The comparator of the import that goes through the library does put an
    Off before an On of the same time. *)
Lemma compareImported_off_first (a b : AppEvent) :
  time a == time b -> type a = off -> type b = on ->
  (MidiTone.compareImported a b < 0)%Q.
Proof.
intros Ht Ha Hb. unfold MidiTone.compareImported.
assert (Hd : time a - time b == 0) by (rewrite Ht; ring).
unfold Qlt_bool.
destruct (Qle_bool 0.1 (Qabs (time a - time b))) eqn:Hle.
- apply Qle_bool_iff in Hle. rewrite Hd in Hle.
  exfalso. apply Hle. reflexivity.
- cbn [negb]. rewrite Ha, Hb. reflexivity.
Qed.

(** ** The encoder and notes without an end *)

(** The hand-rolled encoder writes an On when it meets it, whatever follows:
    the delta time and the three bytes of the Note On message. *)
Lemma encodeEvent_on trackBytes lastTime evt m vlq :
  type evt = on ->
  NOTE_TO_MIDI !! note evt = Some m ->
  writeVarInt (Math_round ((time evt - lastTime) / MidiBinary.MS_PER_TICK)) = Ok vlq ->
  exists vel,
    MidiBinary.encodeEvent (trackBytes, lastTime) evt
    = Ok ((trackBytes ++ vlq) ++ [0x90; clamp127 (m + transpose evt); vel], time evt).
Proof.
intros Hon Hm Hvlq. unfold MidiBinary.encodeEvent.
rewrite Hvlq. cbn [obind]. rewrite Hm, Hon.
eexists. reflexivity.
Qed.

(** C5.  Given a single On of C4, the hand-rolled encoder writes its Note On
    message into the track, between the delta time and the End of Track
    event, where the empty list gives the End of Track event alone: the On
    that is never released is emitted as a note that never ends. *)
Theorem encode_emits_unpaired_on :
  MidiBinary.generateMidiFile [mkEvent 0 on "C4" 0 salamander (Some 100)]
  = Ok (header480 ++ MTrk 8 ++ [0x00; 0x90; 0x3C; 0x64; 0x00; 0xFF; 0x2F; 0x00]) /\
  MidiBinary.generateMidiFile [] = Ok (header480 ++ MTrk 4 ++ [0x00; 0xFF; 0x2F; 0x00]).
Proof. split; vm_compute; reflexivity. Qed.

(** A name that [NOTE_TO_MIDI] does not know is left out after its delta
    time; a name that every object answers for is written with pitch 0. *)
Example export_unknown_names :
  MidiBinary.generateMidiFile [mkEvent 0 on "H4" 0 salamander (Some 100)]
  = Ok (header480 ++ MTrk 5 ++ [0x00; 0x00; 0xFF; 0x2F; 0x00]) /\
  MidiBinary.generateMidiFile [mkEvent 0 on "toString" 0 salamander (Some 100)]
  = Ok (header480 ++ MTrk 8 ++ [0x00; 0x90; 0x00; 0x64; 0x00; 0xFF; 0x2F; 0x00]).
Proof. split; vm_compute; reflexivity. Qed.

(** The export that goes through the library pairs events first: a list
    without an Off offers no note at all to the library. *)
Lemma pairEvent_on_keeps_notes st evt :
  type evt = on -> snd (MidiTone.pairEvent st evt) = snd st.
Proof.
intros Hon. destruct st as [pending notes]. unfold MidiTone.pairEvent.
rewrite Hon. reflexivity.
Qed.

Lemma fold_pairEvent_on evts st :
  Forall (fun e => type e = on) evts ->
  snd (fold_left MidiTone.pairEvent evts st) = snd st.
Proof.
intros Hall. revert st.
induction Hall as [| e evts He _ IH]; intros st; cbn [fold_left]; [reflexivity |].
rewrite IH. now apply pairEvent_on_keeps_notes.
Qed.

Lemma js_sort_insert_Forall {A} (P : A -> Prop) cmp x (l : list A) :
  P x -> Forall P l -> Forall P (js_sort_insert cmp x l).
Proof.
intros Hx Hl. induction Hl as [| y l Hy Hl IH]; cbn [js_sort_insert].
- repeat constructor; assumption.
- destruct (Qlt_bool (cmp y x) 0); repeat constructor; assumption.
Qed.

Lemma js_sort_Forall {A} (P : A -> Prop) cmp (l : list A) :
  Forall P l -> Forall P (js_sort cmp l).
Proof.
intros Hl. unfold js_sort.
induction Hl as [| x l Hx Hl IH]; cbn [fold_right]; [constructor |].
now apply js_sort_insert_Forall.
Qed.

Lemma notesOf_only_on evts :
  Forall (fun e => type e = on) evts -> MidiTone.notesOf evts = [].
Proof.
intros Hall. unfold MidiTone.notesOf.
rewrite fold_pairEvent_on; [reflexivity |].
now apply js_sort_Forall.
Qed.

(** ** Note names *)

Section NoteNames.

Lemma append_assoc (a b c : string) : ((a +:+ b) +:+ c = a +:+ (b +:+ c))%string.
Proof. induction a as [| x a IH]; cbn; [reflexivity | now rewrite IH]. Qed.

Lemma digit_not_minus d : is_digit d = true -> Ascii.eqb d "-" = false.
Proof.
destruct d as [[] [] [] [] [] [] [] []]; vm_compute; congruence.
Qed.

Lemma digit_not_accidental d : is_digit d = true -> is_accidental d = false.
Proof.
destruct d as [[] [] [] [] [] [] [] []]; vm_compute; congruence.
Qed.

Lemma take_digits_spec s :
  s = (fst (take_digits s) +:+ snd (take_digits s))%string /\
  all_digits (fst (take_digits s)) = true.
Proof.
induction s as [| c s [IHs IHd]]; cbn [take_digits]; [split; reflexivity |].
destruct (is_digit c) eqn:Hc; [| split; reflexivity].
destruct (take_digits s) as [ds rest]. cbn [fst snd] in *.
split.
- cbn. f_equal. exact IHs.
- cbn [all_digits]. now rewrite Hc, IHd.
Qed.

Lemma take_digits_head d s :
  is_digit d = true -> fst (take_digits (String d s)) <> EmptyString.
Proof.
intros Hd. cbn [take_digits]. rewrite Hd.
destruct (take_digits s). cbn [fst]. discriminate.
Qed.

(** A match found at the head of [s] spells out a name and an octave that
    [s] starts with. *)
Lemma match_note_here_sound s name oct :
  match_note_here s = Some (name, oct) ->
  is_name name = true /\ is_octave oct = true /\
  exists post, s = (name +:+ oct +:+ post)%string.
Proof.
unfold match_note_here.
destruct s as [| c s1]; [discriminate |].
destruct (is_note_letter c) eqn:Hc; [| discriminate].
set (p1 := match s1 with
           | String a s1' =>
               if is_accidental a then (String c (String a EmptyString), s1')
               else (String c EmptyString, s1)
           | EmptyString => (String c EmptyString, s1)
           end).
assert (H1 : is_name (fst p1) = true /\ String c s1 = (fst p1 +:+ snd p1)%string).
{ subst p1. destruct s1 as [| a s1']; cbn; [now rewrite Hc |].
  destruct (is_accidental a) eqn:Ha; cbn; now rewrite Hc, ?Ha. }
destruct p1 as [nm s2]. cbn [fst snd] in H1. destruct H1 as [Hnm Hs].
set (p2 := match s2 with
           | String m s2' =>
               if Ascii.eqb m "-" then (String m EmptyString, s2')
               else (EmptyString, s2)
           | EmptyString => (EmptyString, s2)
           end).
assert (H2 : s2 = (fst p2 +:+ snd p2)%string /\
             (fst p2 = EmptyString \/ fst p2 = "-"%string)).
{ subst p2. destruct s2 as [| m s2']; cbn; [auto |].
  destruct (Ascii.eqb_spec m "-") as [-> | Hm]; cbn; auto. }
destruct p2 as [sign s3]. cbn [fst snd] in H2. destruct H2 as [Hs2 Hsign].
pose proof (take_digits_spec s3) as [Hs3 Hds].
destruct (take_digits s3) as [ds rest]. cbn [fst snd] in *.
destruct ds as [| d ds']; [discriminate |].
intros [= <- <-].
split; [assumption |]. split.
- cbn [all_digits] in Hds. apply andb_prop in Hds as [Hd Hds'].
  destruct Hsign as [-> | ->]; cbn.
  + rewrite (digit_not_minus d Hd). now rewrite Hd, Hds'.
  + now rewrite Hd, Hds'.
- exists rest. rewrite Hs, Hs2, Hs3.
  now rewrite !append_assoc.
Qed.

Lemma match_note_sound s name oct :
  match_note s = Some (name, oct) -> matches_pattern s.
Proof.
induction s as [| c s IH].
- cbn. discriminate.
- cbn [match_note].
  destruct (match_note_here (String c s)) as [[nm oc] |] eqn:Hhere.
  + intros [= -> ->].
    apply match_note_here_sound in Hhere as (Hn & Ho & post & Hs).
    exists EmptyString, name, oct, post. cbn [String.append]. auto.
  + intros Hrec. destruct (IH Hrec) as (pre & nm & oc & post & Hs & Hn & Ho).
    exists (String c pre), nm, oc, post. cbn [String.append]. rewrite Hs. auto.
Qed.

(** Where a name and an octave stand, the matcher finds a match. *)
Lemma match_note_here_complete name oct post :
  is_name name = true -> is_octave oct = true ->
  match_note_here (name +:+ oct +:+ post)%string <> None.
Proof.
intros Hn Ho.
assert (Hoct : forall rest,
  match (let (sign, s3) :=
           match (oct +:+ rest)%string with
           | String m s2' =>
               if Ascii.eqb m "-" then (String m EmptyString, s2')
               else (EmptyString, (oct +:+ rest)%string)
           | EmptyString => (EmptyString, (oct +:+ rest)%string)
           end in
         let (ds, _) := take_digits s3 in
         match ds with
         | EmptyString => None
         | _ => Some (name, (sign +:+ ds)%string)
         end) with
  | Some _ => True
  | None => False
  end).
{ intros rest. destruct oct as [| m oct']; [discriminate |].
  cbn [is_octave] in Ho. cbn [String.append].
  destruct (Ascii.eqb m "-") eqn:Hm.
  - destruct oct' as [| d ds]; [discriminate |]. cbn [is_digits all_digits] in Ho.
    apply andb_prop in Ho as [Hd _]. cbn [String.append].
    pose proof (take_digits_head d (ds +:+ rest)%string Hd) as Hne.
    destruct (take_digits (String d (ds +:+ rest)%string)) as [[| ? ?] ?]; cbn in *;
      [congruence | exact I].
  - cbn [is_digits all_digits] in Ho. apply andb_prop in Ho as [Hd _].
    pose proof (take_digits_head m (oct' +:+ rest)%string Hd) as Hne.
    destruct (take_digits (String m (oct' +:+ rest)%string)) as [[| ? ?] ?]; cbn in *;
      [congruence | exact I]. }
destruct name as [| c [| a [| ? ?]]]; cbn [is_name] in Hn; try discriminate.
- (* a letter alone *)
  cbn [String.append match_note_here]. rewrite Hn.
  destruct oct as [| m oct']; [discriminate |]. cbn [String.append].
  assert (Hacc : is_accidental m = false).
  { cbn [is_octave] in Ho. destruct (Ascii.eqb_spec m "-") as [-> | _]; [reflexivity |].
    cbn [is_digits all_digits] in Ho. apply andb_prop in Ho as [Hd _].
    now apply digit_not_accidental. }
  rewrite Hacc. specialize (Hoct post). cbn [String.append] in Hoct.
  intros Heq. rewrite Heq in Hoct. exact Hoct.
- (* a letter and an accidental *)
  apply andb_prop in Hn as [Hc Ha].
  cbn [String.append match_note_here]. rewrite Hc, Ha.
  specialize (Hoct post).
  intros Heq. rewrite Heq in Hoct. exact Hoct.
Qed.

Lemma match_note_complete s : matches_pattern s -> match_note s <> None.
Proof.
intros (pre & name & oct & post & -> & Hn & Ho).
induction pre as [| c pre IH]; cbn [String.append].
- pose proof (match_note_here_complete name oct post Hn Ho) as Hhere.
  destruct (name +:+ oct +:+ post)%string eqn:E; cbn [match_note];
    destruct (match_note_here _); congruence.
- cbn [match_note]. destruct (match_note_here _); [discriminate | exact IH].
Qed.

(** The matcher fails exactly on the strings outside of the pattern. *)
Lemma match_note_None s : match_note s = None <-> ~ matches_pattern s.
Proof.
split.
- intros Hnone Hm. now apply (match_note_complete s Hm).
- intros Hno. destruct (match_note s) as [[name oct] |] eqn:E; [| reflexivity].
  exfalso. apply Hno. now apply (match_note_sound s name oct).
Qed.

End NoteNames.

(** C8.  A string in which the pattern has no match converts to pitch 60;
    nothing is raised. *)
Theorem noteToMidi_default (s : string) :
  ~ matches_pattern s -> noteToMidi s = 60.
Proof.
intros Hno. unfold noteToMidi.
apply match_note_None in Hno. now rewrite Hno.
Qed.

Lemma noteToMidi_default_witness :
  ~ matches_pattern "H4" /\ noteToMidi "H4" = 60.
Proof.
assert (Hno : ~ matches_pattern "H4") by (apply match_note_None; reflexivity).
split; [exact Hno | exact (noteToMidi_default "H4" Hno)].
Defined.

Example noteToMidi_flat : noteToMidi "Eb3" = noteToMidi "D#3".
Proof. reflexivity. Qed.

Example midiToNote_60 : midiToNote 60 = "C4"%string /\ midiToNote 61 = "C#4"%string.
Proof. split; reflexivity. Qed.

(** Below 0 only the multiples of 12 find a name. *)
Example midiToNote_negative :
  midiToNote (-1) = "undefined-2"%string /\ midiToNote (-12) = "C-2"%string.
Proof. split; reflexivity. Qed.

(** ** The metronome *)

Section Metronome.

Lemma tickTimes_app ops1 ops2 :
  tickTimesOf (ops1 ++ ops2) = tickTimesOf ops1 ++ tickTimesOf ops2.
Proof. unfold tickTimesOf. now rewrite flat_map_app. Qed.

(** One round of the loop: a tick at the time that was due, when there is
    something to play it on, and one beat more on the clock of the
    metronome. *)
Lemma scheduler_round e :
  let e1 := nextNextNoteTime (scheduleMetronomeTick e (nextNoteTime e)) in
  tickTimes e1
  = tickTimes e ++ (if ctx e && masterGain e then [nextNoteTime e] else []) /\
  nextNoteTime e1 = (nextNoteTime e + 60 / bpm e)%Q /\
  bpm e1 = bpm e /\ ctx e1 = ctx e /\ masterGain e1 = masterGain e /\
  isMetronomePlaying e1 = isMetronomePlaying e /\ timerID e1 = timerID e /\
  activeSources e1 = activeSources e.
Proof.
unfold scheduleMetronomeTick, nextNextNoteTime, tickTimes.
destruct (ctx e) eqn:Hc, (masterGain e) eqn:Hm; cbn;
  rewrite ?Hc, ?Hm, ?tickTimes_app, ?app_nil_r; cbn; repeat split; reflexivity.
Qed.

(** What a finished loop has done: some number of rounds. *)
Lemma schedulerLoop_grid fuel : forall e now e',
  schedulerLoop fuel e now = Ok e' ->
  exists n,
    tickTimes e'
    = tickTimes e ++ (if ctx e && masterGain e
                      then grid (nextNoteTime e) (60 / bpm e) n else []) /\
    nextNoteTime e' = gridEnd (nextNoteTime e) (60 / bpm e) n /\
    bpm e' = bpm e /\ ctx e' = ctx e /\ masterGain e' = masterGain e /\
    isMetronomePlaying e' = isMetronomePlaying e /\ timerID e' = timerID e /\
    activeSources e' = activeSources e.
Proof.
induction fuel as [| fuel IH]; intros e now e'; cbn [schedulerLoop];
  destruct (Qlt_bool (nextNoteTime e) (now + scheduleAheadTime)) eqn:Hdue;
  try discriminate.
- intros [= <-]. exists 0%nat. cbn [grid gridEnd].
  destruct (ctx e && masterGain e); rewrite app_nil_r; repeat split; reflexivity.
- intros Hloop. apply IH in Hloop as (n & Ht & Hn & Hb & Hc & Hm & Hp & Hti & Ha).
  pose proof (scheduler_round e) as (Rt & Rn & Rb & Rc & Rm & Rp & Rti & Ra).
  cbv zeta in *.
  exists (S n). cbn [grid gridEnd].
  rewrite Ht, Hn, Hb, Hc, Hm, Hp, Hti, Ha, Rt, Rn, Rb, Rc, Rm, Rp, Rti, Ra.
  destruct (ctx e && masterGain e); rewrite <- ?app_assoc; cbn [app];
    repeat split; reflexivity.
- intros [= <-]. exists 0%nat. cbn [grid gridEnd].
  destruct (ctx e && masterGain e); rewrite app_nil_r; repeat split; reflexivity.
Qed.

(** With a positive tempo the loop ends: [n] rounds are enough as soon as
    [n] beats reach past the scheduling horizon. *)
Lemma schedulerLoop_ends n : forall e now fuel,
  (0 < bpm e)%Q ->
  (now + scheduleAheadTime - nextNoteTime e < inject_Z (Z.of_nat n) * (60 / bpm e))%Q ->
  (n <= fuel)%nat ->
  exists e', schedulerLoop fuel e now = Ok e'.
Proof.
induction n as [| n IH]; intros e now fuel Hb Hreach Hfuel.
- assert (Hdue : Qlt_bool (nextNoteTime e) (now + scheduleAheadTime) = false).
  { apply Qlt_bool_false. change (inject_Z (Z.of_nat 0)) with 0%Q in Hreach.
    rewrite Qmult_0_l in Hreach. lra. }
  exists e. destruct fuel; cbn [schedulerLoop]; now rewrite Hdue.
- destruct fuel as [| fuel]; [lia |]. cbn [schedulerLoop].
  destruct (Qlt_bool (nextNoteTime e) (now + scheduleAheadTime)); [| now exists e].
  pose proof (scheduler_round e) as (_ & Rn & Rb & _). cbv zeta in *.
  apply IH; [now rewrite Rb | | lia].
  rewrite Rn, Rb.
  rewrite Nat2Z.inj_succ, <- Z.add_1_r, inject_Z_plus in Hreach.
  change (inject_Z 1) with 1%Q in Hreach.
  remember (60 / bpm e)%Q as d. remember (inject_Z (Z.of_nat n)) as k.
  rewrite Qmult_plus_distr_l, Qmult_1_l in Hreach. lra.
Qed.

Lemma schedulerLoop_fuel e now :
  (0 < bpm e)%Q ->
  exists n, forall fuel, (n <= fuel)%nat -> exists e', schedulerLoop fuel e now = Ok e'.
Proof.
intros Hb.
set (d := (60 / bpm e)%Q).
assert (Hd : (0 < d)%Q).
{ subst d. apply Qlt_shift_div_l; [assumption | lra]. }
set (x := ((now + scheduleAheadTime - nextNoteTime e) / d)%Q).
exists (Z.to_nat (Z.max 0 (Qfloor x + 1))).
intros fuel Hfuel.
apply (schedulerLoop_ends (Z.to_nat (Z.max 0 (Qfloor x + 1))) e now fuel Hb);
  [| exact Hfuel].
fold d. rewrite Z2Nat.id by lia.
assert (Hx : (x < inject_Z (Z.max 0 (Qfloor x + 1)))%Q).
{ eapply Qlt_le_trans; [apply Qlt_floor |].
  rewrite <- Zle_Qle. lia. }
apply (Qmult_lt_compat_r _ _ d Hd) in Hx.
assert (Hxd : (x * d == now + scheduleAheadTime - nextNoteTime e)%Q).
{ subst x. field. lra. }
rewrite Hxd in Hx. exact Hx.
Qed.

End Metronome.

(** C9.  Setting the tempo changes nothing but the tempo: no request that was
    made is touched and the time of the next tick stays where it was.  From
    then on every tick is one addition of 60 / bpm away from the one before:
    a run of the scheduler (which ends, given enough fuel) requests ticks at
    the old next-tick time and at steps of 60 / bpm after it. *)
Theorem bpm_change_keeps_grid (e : AudioEngine) (newBpm now : Q) :
  (0 < newBpm)%Q ->
  let e1 := setBPM e newBpm in
  (audio e1 = audio e /\ nextNoteTime e1 = nextNoteTime e /\
   isMetronomePlaying e1 = isMetronomePlaying e /\ timerID e1 = timerID e) /\
  nextNoteTime (nextNextNoteTime e1) = (nextNoteTime e + 60 / newBpm)%Q /\
  exists n, forall fuel, (n <= fuel)%nat ->
    exists e2 k,
      scheduler fuel e1 now = Ok e2 /\
      tickTimes e2
      = tickTimes e ++ (if ctx e && masterGain e
                        then grid (nextNoteTime e) (60 / newBpm) k else []) /\
      nextNoteTime e2 = gridEnd (nextNoteTime e) (60 / newBpm) k /\
      bpm e2 = newBpm.
Proof.
intros Hb e1. split; [repeat split; reflexivity |]. split; [reflexivity |].
destruct (schedulerLoop_fuel e1 now Hb) as [n Hn].
exists n. intros fuel Hfuel. unfold scheduler.
destruct (ctx e1) eqn:Hc; cbn [negb].
- destruct (Hn fuel Hfuel) as [e2 Hloop]. rewrite Hloop. cbn [obind].
  apply schedulerLoop_grid in Hloop as (k & Ht & Hnext & Hbpm & _).
  exists (if isMetronomePlaying e2
          then with_metronome e2 (nextNoteTime e2) true (isMetronomePlaying e2) (bpm e2)
          else e2), k.
  split; [reflexivity |].
  assert (Hsame : forall e3,
    e3 = (if isMetronomePlaying e2
          then with_metronome e2 (nextNoteTime e2) true (isMetronomePlaying e2) (bpm e2)
          else e2) ->
    tickTimes e3 = tickTimes e2 /\ nextNoteTime e3 = nextNoteTime e2 /\ bpm e3 = bpm e2).
  { intros e3 ->. destruct (isMetronomePlaying e2); repeat split; reflexivity. }
  destruct (Hsame _ eq_refl) as (-> & -> & ->).
  rewrite Ht, Hnext, Hbpm. repeat split; reflexivity.
- exists e1, 0%nat. cbn [grid gridEnd].
  change (ctx e) with (ctx e1). rewrite Hc. cbn [andb].
  split; [reflexivity |]. split; [| split; reflexivity].
  unfold tickTimes. cbn. now rewrite app_nil_r.
Qed.

Lemma bpm_change_keeps_grid_witness :
  (0 < 90)%Q /\
  let e := with_metronome readyEngine 2 true true 120 in
  let e1 := setBPM e 90 in
  (audio e1 = audio e /\ nextNoteTime e1 = nextNoteTime e /\
   isMetronomePlaying e1 = isMetronomePlaying e /\ timerID e1 = timerID e) /\
  nextNoteTime (nextNextNoteTime e1) = (nextNoteTime e + 60 / 90)%Q /\
  exists n, forall fuel, (n <= fuel)%nat ->
    exists e2 k,
      scheduler fuel e1 2 = Ok e2 /\
      tickTimes e2
      = tickTimes e ++ (if ctx e && masterGain e
                        then grid (nextNoteTime e) (60 / 90) k else []) /\
      nextNoteTime e2 = gridEnd (nextNoteTime e) (60 / 90) k /\
      bpm e2 = 90%Q.
Proof.
split; [reflexivity |].
apply (bpm_change_keeps_grid (with_metronome readyEngine 2 true true 120) 90 2).
reflexivity.
Defined.

(** A change from 120 to 90 beats per minute with the next tick due at 2 s,
    seen at 2 s on the audio clock: one tick at 2 s, the next one due two
    thirds of a second later. *)
Example bpm_change_run :
  exists e2,
    scheduler 4 (setBPM (with_metronome readyEngine 2 true true 120) 90) 2 = Ok e2 /\
    tickTimes e2 = [2%Q] /\ nextNoteTime e2 = (2 + 60 / 90)%Q.
Proof. eexists. split; [vm_compute; reflexivity |]. split; reflexivity. Qed.

(** ** The active sources of the audio engine *)

Section ActiveSources.

Lemma has_underscore_app a b :
  has_underscore (a +:+ String "_" b)%string = true.
Proof.
induction a as [| c a IH]; cbn; [reflexivity |].
rewrite IH. apply orb_true_r.
Qed.

(** A key splits at its last underscore. *)
Lemma split_last_underscore s1 : forall s2 t1 t2,
  has_underscore t1 = false -> has_underscore t2 = false ->
  (s1 +:+ String "_" t1)%string = (s2 +:+ String "_" t2)%string ->
  s1 = s2 /\ t1 = t2.
Proof.
induction s1 as [| c s1 IH]; intros [| c' s2] t1 t2 H1 H2; cbn; intros E.
- injection E as ->. now split.
- injection E as _ ->. now rewrite has_underscore_app in H1.
- injection E as _ <-. now rewrite has_underscore_app in H2.
- injection E as -> E. destruct (IH _ _ _ H1 H2 E) as [-> ->]. now split.
Qed.

Lemma string_of_uint_no_underscore d :
  has_underscore (NilEmpty.string_of_uint d) = false.
Proof. induction d; cbn; assumption || reflexivity. Qed.

Lemma string_of_Z_no_underscore z : has_underscore (string_of_Z z) = false.
Proof.
unfold string_of_Z, NilZero.string_of_int, NilZero.string_of_uint.
destruct (Z.to_int z) as [d | d]; destruct d; cbn;
  try reflexivity; apply string_of_uint_no_underscore.
Qed.

Lemma to_int_proper z :
  Z.to_int z <> Decimal.Pos Decimal.Nil /\ Z.to_int z <> Decimal.Neg Decimal.Nil.
Proof.
destruct z as [| p | p]; cbn; split; try discriminate;
  intros [= E]; now apply (Unsigned.to_uint_nonnil p).
Qed.

Lemma string_of_Z_inj a b : string_of_Z a = string_of_Z b -> a = b.
Proof.
unfold string_of_Z. intros E. apply DecimalZ.to_int_inj.
apply (f_equal NilZero.int_of_string) in E.
destruct (to_int_proper a) as [Ha1 Ha2], (to_int_proper b) as [Hb1 Hb2].
rewrite !NilZero.isi in E by assumption. now injection E.
Qed.

(** Two pairs with the same key are the same pair. *)
Lemma mapKey_inj n1 t1 n2 t2 : mapKey n1 t1 = mapKey n2 t2 -> n1 = n2 /\ t1 = t2.
Proof.
unfold mapKey. intros E.
apply split_last_underscore in E as [-> E]; try apply string_of_Z_no_underscore.
split; [reflexivity | now apply string_of_Z_inj].
Qed.

Lemma mapKey_ne n1 t1 n2 t2 : (n1, t1) <> (n2, t2) -> mapKey n1 t1 <> mapKey n2 t2.
Proof. intros Hne E. apply mapKey_inj in E as [-> ->]. now apply Hne. Qed.

(** [stopNote] and [playNote] touch the entry of their own key only. *)
Lemma stopNote_other e now n t when (key : string) :
  key <> mapKey n t ->
  activeSources (stopNote e now n t when) !! key = activeSources e !! key.
Proof.
intros Hne. unfold stopNote.
destruct (activeSources e !! mapKey n t); [| reflexivity].
destruct (ctx e); [| reflexivity].
cbn. now rewrite lookup_delete_ne.
Qed.

Lemma playNote_other e now n t vel when (key : string) :
  key <> mapKey n t ->
  activeSources (playNote e now n t vel when) !! key = activeSources e !! key.
Proof.
intros Hne. unfold playNote.
destruct (negb (ctx e) || negb (isLoaded e) || negb (masterGain e)); [reflexivity |].
set (e1 := if Qeq_bool when 0 then stopNote e now n t 0 else e).
assert (H1 : activeSources e1 !! key = activeSources e !! key).
{ subst e1. destruct (Qeq_bool when 0); [now apply stopNote_other | reflexivity]. }
destruct (getNoteNumber n =? 0); [exact H1 |].
destruct (getClosestBuffer e1 _) as [[buffer distance] |]; [| exact H1].
cbn. now rewrite lookup_insert_ne.
Qed.

(** What [stopNote] does for a pair that sounds. *)
Lemma stopNote_active e now n t when old :
  ctx e = true -> activeSources e !! mapKey n t = Some old ->
  stopNote e now n t when
  = with_sources e (delete (mapKey n t) (activeSources e)) (nextNode e)
      (SourceRelease old (orNow when now) (releaseTime e)).
Proof. intros Hc Hold. unfold stopNote. now rewrite Hold, Hc. Qed.

Lemma stopNote_fresh e now n t when : fresh e -> fresh (stopNote e now n t when).
Proof.
intros Hf. unfold stopNote.
destruct (activeSources e !! mapKey n t); [| exact Hf].
destruct (ctx e); [| exact Hf].
intros key id. cbn. intros Hl. apply lookup_delete_Some in Hl as [_ Hl]. now apply (Hf key).
Qed.

Lemma playNote_fresh e now n t vel when : fresh e -> fresh (playNote e now n t vel when).
Proof.
intros Hf. unfold playNote.
destruct (negb (ctx e) || negb (isLoaded e) || negb (masterGain e)); [exact Hf |].
set (e1 := if Qeq_bool when 0 then stopNote e now n t 0 else e).
assert (H1 : fresh e1).
{ subst e1. destruct (Qeq_bool when 0); [now apply stopNote_fresh | exact Hf]. }
destruct (getNoteNumber n =? 0); [exact H1 |].
destruct (getClosestBuffer e1 _) as [[buffer distance] |]; [| exact H1].
intros key id. cbn. intros Hl. apply lookup_insert_Some in Hl as [[_ <-] | [_ Hl]].
- lia.
- specialize (H1 key id Hl). lia.
Qed.

Lemma startedIn_app ops1 ops2 id :
  startedIn (ops1 ++ ops2) id = startedIn ops1 id || startedIn ops2 id.
Proof. apply existsb_app. Qed.

Lemma releasedIn_app ops1 ops2 id :
  releasedIn (ops1 ++ ops2) id = releasedIn ops1 id || releasedIn ops2 id.
Proof. apply existsb_app. Qed.

(** A stop keeps the engine in order. *)
Lemma stopNote_inOrder e now n t when : inOrder e -> inOrder (stopNote e now n t when).
Proof.
intros Hord. unfold stopNote.
destruct (activeSources e !! mapKey n t) as [old |] eqn:Hold; [| exact Hord].
destruct (ctx e); [| exact Hord].
destruct Hord as (Hf & Hs & Hr & Hin & Hlive & Hinj).
assert (Hstart : forall id, startedIn (audio e ++ [SourceRelease old (orNow when now)
                                                     (releaseTime e)]) id
                            = startedIn (audio e) id).
{ intros id. rewrite startedIn_app. cbn. now rewrite !orb_false_r. }
assert (Hrel : forall id, releasedIn (audio e ++ [SourceRelease old (orNow when now)
                                                    (releaseTime e)]) id
                          = releasedIn (audio e) id || Nat.eqb old id).
{ intros id. rewrite releasedIn_app. cbn. now rewrite orb_false_r. }
unfold inOrder, fresh; cbn [with_sources activeSources audio nextNode]. repeat split.
- intros key id Hl. apply lookup_delete_Some in Hl as [_ Hl]. now apply (Hf key).
- intros id. rewrite Hstart. apply Hs.
- intros id. rewrite Hrel. intros H. apply orb_prop in H as [H | H]; [now apply Hr |].
  apply Nat.eqb_eq in H as <-. now apply (Hf (mapKey n t)).
- rewrite Hstart. apply lookup_delete_Some in H as [_ H]. now apply (Hin key).
- rewrite Hrel. apply lookup_delete_Some in H as [Hne H].
  destruct (Hin key id H) as [_ ->]. cbn [orb].
  apply Nat.eqb_neq. intros <-. apply Hne. now apply (Hinj _ _ old).
- intros id. rewrite Hstart, Hrel. intros Hst Hre.
  apply orb_false_elim in Hre as [Hre Hne]. apply Nat.eqb_neq in Hne.
  destruct (Hlive id Hst Hre) as [key Hkey]. exists key.
  apply lookup_delete_Some. split; [| exact Hkey].
  intros <-. congruence.
- intros k1 k2 id H1 H2.
  apply lookup_delete_Some in H1 as [_ H1]. apply lookup_delete_Some in H2 as [_ H2].
  now apply (Hinj _ _ id).
Qed.

Lemma stopNote_clears e now n t when :
  ctx e = true -> activeSources (stopNote e now n t when) !! mapKey n t = None.
Proof.
intros Hc. unfold stopNote.
destruct (activeSources e !! mapKey n t) eqn:Hold; [| exact Hold].
rewrite Hc. cbn. apply lookup_delete_eq.
Qed.

Lemma stopNote_ctx e now n t when : ctx (stopNote e now n t when) = ctx e.
Proof.
unfold stopNote. destruct (activeSources e !! mapKey n t); [| reflexivity].
destruct (ctx e) eqn:Hc; [exact Hc | exact Hc].
Qed.

(** An immediate play keeps the engine in order. *)
Lemma playNow_inOrder e now n t vel : inOrder e -> inOrder (playNote e now n t vel 0).
Proof.
intros Hord. unfold playNote.
destruct (ctx e) eqn:Hc; [| exact Hord].
destruct (isLoaded e); [| exact Hord].
destruct (masterGain e); [| exact Hord].
cbn [negb orb]. change (Qeq_bool 0 0) with true. cbv iota.
pose proof (stopNote_inOrder e now n t 0 Hord) as Hord1.
pose proof (stopNote_clears e now n t 0 Hc) as Hnone.
set (e1 := stopNote e now n t 0) in *.
destruct (getNoteNumber n =? 0); [exact Hord1 |].
destruct (getClosestBuffer e1 _) as [[buffer distance] |]; [| exact Hord1].
destruct Hord1 as (Hf & Hs & Hr & Hin & Hlive & Hinj).
set (op := SourceStart (nextNode e1) buffer distance _ _).
assert (Hstart : forall id, startedIn (audio e1 ++ [op]) id
                            = startedIn (audio e1) id || Nat.eqb (nextNode e1) id).
{ intros id. rewrite startedIn_app. cbn. now rewrite orb_false_r. }
assert (Hrel : forall id, releasedIn (audio e1 ++ [op]) id = releasedIn (audio e1) id).
{ intros id. rewrite releasedIn_app. cbn. now rewrite !orb_false_r. }
assert (Hnew : releasedIn (audio e1) (nextNode e1) = false).
{ destruct (releasedIn (audio e1) (nextNode e1)) eqn:E; [| reflexivity].
  apply Hr in E. lia. }
unfold inOrder, fresh; cbn [with_sources activeSources audio nextNode]. repeat split.
- intros key id Hl. apply lookup_insert_Some in Hl as [[_ <-] | [_ Hl]]; [lia |].
  specialize (Hf key id Hl). lia.
- intros id. rewrite Hstart. intros H. apply orb_prop in H as [H | H].
  + specialize (Hs id H). lia.
  + apply Nat.eqb_eq in H. lia.
- intros id. rewrite Hrel. intros H. specialize (Hr id H). lia.
- rewrite Hstart. apply lookup_insert_Some in H as [[_ <-] | [_ H]].
  + rewrite Nat.eqb_refl. apply orb_true_r.
  + destruct (Hin key id H) as [-> _]. reflexivity.
- rewrite Hrel. apply lookup_insert_Some in H as [[_ <-] | [_ H]]; [exact Hnew |].
  now destruct (Hin key id H).
- intros id. rewrite Hstart, Hrel. intros Hst Hre.
  apply orb_prop in Hst as [Hst | Hst].
  + destruct (Hlive id Hst Hre) as [key Hkey]. exists key.
    apply lookup_insert_Some. right. split; [| exact Hkey]. intros <-. congruence.
  + apply Nat.eqb_eq in Hst as <-. exists (mapKey n t). apply lookup_insert_eq.
- intros k1 k2 id H1 H2.
  apply lookup_insert_Some in H1 as [[<- <-] | [Hn1 H1]];
    apply lookup_insert_Some in H2 as [[<- E2] | [Hn2 H2]]; try reflexivity.
  + specialize (Hf k2 _ H2). lia.
  + subst id. specialize (Hf k1 _ H1). lia.
  + now apply (Hinj _ _ id).
Qed.

Lemma readyEngine_inOrder : inOrder readyEngine.
Proof.
unfold inOrder, fresh. cbn.
repeat split; intros; try discriminate;
  match goal with H : ∅ !! _ = Some _ |- _ => rewrite lookup_empty in H; discriminate end.
Qed.

(** Under immediate plays and stops the map holds exactly the sources that
    sound, each under one key: no pair ever has two sounding sources. *)
Lemma keyOps_inOrder ops : forall e, inOrder e -> inOrder (fold_left keyOp ops e).
Proof.
induction ops as [| op ops IH]; intros e Hord; cbn [fold_left]; [exact Hord |].
apply IH. destruct op; cbn [keyOp]; [now apply playNow_inOrder | now apply stopNote_inOrder].
Qed.

Lemma fresh_ready : fresh readyEngine.
Proof. intros key id. cbn. rewrite lookup_empty. discriminate. Qed.

(** So the source that an immediate retrigger starts is not the one it
    releases. *)
Lemma retrigger_source_is_new e key old :
  fresh e -> activeSources e !! key = Some old -> old <> nextNode e.
Proof. intros Hf Hold. specialize (Hf key old Hold). lia. Qed.

End ActiveSources.

(** C10.  The map is keyed by the pair, and two pairs never share a key.
    An immediate [playNote] for a pair that sounds, on an engine that is
    ready (audio context, samples loaded, master gain), first asks for the
    release of the source that sounded; when the note has a number and a
    sample is found it then starts one new source, which takes the place of
    the old one as the entry of the pair, so the map holds the same keys as
    before and the new source is not the old one; otherwise the entry is
    removed and nothing is started.  On an engine that is not ready the
    call does nothing.  Neither [playNote] nor [stopNote] changes the entry
    of another pair. *)
Theorem retrigger_replaces (e : AudioEngine) (now : Q) (note : string) (tr : Z)
    (vel : option Z) (old : nat) (note' : string) (tr' : Z) (when : Q) :
  activeSources e !! mapKey note tr = Some old ->
  (note', tr') <> (note, tr) ->
  let e' := playNote e now note tr vel 0 in
  let velocity := match vel with Some v => v | None => 100 end in
  let gain := (inject_Z (clamp127 velocity) / 127 * (inject_Z (clamp127 velocity) / 127))%Q in
  mapKey note' tr' <> mapKey note tr /\
  (ctx e && isLoaded e && masterGain e = false -> e' = e) /\
  (ctx e && isLoaded e && masterGain e = true ->
   (forall buffer distance,
      getNoteNumber note <> 0 ->
      getClosestBuffer e (getNoteNumber note + tr) = Some (buffer, distance) ->
      audio e' = audio e ++ [SourceRelease old now (releaseTime e);
                             SourceStart (nextNode e) buffer distance gain now] /\
      activeSources e' = <[mapKey note tr := nextNode e]> (activeSources e) /\
      dom (activeSources e') = dom (activeSources e) /\
      nextNode e' = S (nextNode e) /\
      (fresh e -> nextNode e <> old)) /\
   (getNoteNumber note = 0 \/ getClosestBuffer e (getNoteNumber note + tr) = None ->
      audio e' = audio e ++ [SourceRelease old now (releaseTime e)] /\
      activeSources e' = delete (mapKey note tr) (activeSources e) /\
      nextNode e' = nextNode e)) /\
  activeSources (playNote e now note tr vel when) !! mapKey note' tr'
  = activeSources e !! mapKey note' tr' /\
  activeSources (stopNote e now note tr when) !! mapKey note' tr'
  = activeSources e !! mapKey note' tr'.
Proof.
intros Hold Hne e' velocity gain.
pose proof (mapKey_ne _ _ _ _ Hne) as Hkey.
split; [exact Hkey |]. split; [| split; [| split]].
- intros Hnot. subst e'. unfold playNote.
  destruct (ctx e), (isLoaded e), (masterGain e); try discriminate; reflexivity.
- intros Hready.
  apply andb_prop in Hready as [Hready Hm]. apply andb_prop in Hready as [Hc Hl].
  assert (He' : e' = let e1 := with_sources e (delete (mapKey note tr) (activeSources e))
                               (nextNode e) (SourceRelease old now (releaseTime e)) in
                     if getNoteNumber note =? 0 then e1
                     else match getClosestBuffer e (getNoteNumber note + tr) with
                          | None => e1
                          | Some (buffer, distance) =>
                              with_sources e1
                                (<[mapKey note tr := nextNode e]> (activeSources e1))
                                (S (nextNode e))
                                (SourceStart (nextNode e) buffer distance gain now)
                          end).
  { subst e'. unfold playNote. rewrite Hc, Hl, Hm. cbn [negb orb].
    change (Qeq_bool 0 0) with true. cbv iota.
    rewrite (stopNote_active e now note tr 0 old Hc Hold).
    change (orNow 0 now) with now. reflexivity. }
  split.
  + intros buffer distance Hnum Hbuf. rewrite He'. cbv zeta.
    destruct (Z.eqb_spec (getNoteNumber note) 0); [contradiction |].
    rewrite Hbuf. cbn [with_sources audio activeSources nextNode].
    split; [now rewrite <- app_assoc |].
    split; [apply insert_delete_eq |].
    split; [| split; [reflexivity |]].
    * rewrite insert_delete_eq, dom_insert_L.
      apply subseteq_union_1_L, singleton_subseteq_l, elem_of_dom. eauto.
    * intros Hf. specialize (Hf _ _ Hold). lia.
  + intros Hnone. rewrite He'. cbv zeta.
    destruct (Z.eqb_spec (getNoteNumber note) 0) as [_ | Hnum];
      [cbn; repeat split |].
    destruct Hnone as [Hz | Hnone]; [contradiction |].
    rewrite Hnone. cbn. repeat split.
- now apply playNote_other.
- now apply stopNote_other.
Qed.

Lemma retrigger_replaces_witness :
  activeSources soundingEngine !! mapKey "C4" 0 = Some 0%nat /\
  ("D4"%string, 0) <> ("C4"%string, 0) /\
  let e := soundingEngine in
  let e' := playNote e 2 "C4" 0 (Some 100) 0 in
  let velocity := 100 in
  let gain := (inject_Z (clamp127 velocity) / 127 * (inject_Z (clamp127 velocity) / 127))%Q in
  mapKey "D4" 0 <> mapKey "C4" 0 /\
  (ctx e && isLoaded e && masterGain e = false -> e' = e) /\
  (ctx e && isLoaded e && masterGain e = true ->
   (forall buffer distance,
      getNoteNumber "C4" <> 0 ->
      getClosestBuffer e (getNoteNumber "C4" + 0) = Some (buffer, distance) ->
      audio e' = audio e ++ [SourceRelease 0 2 (releaseTime e);
                             SourceStart (nextNode e) buffer distance gain 2] /\
      activeSources e' = <[mapKey "C4" 0 := nextNode e]> (activeSources e) /\
      dom (activeSources e') = dom (activeSources e) /\
      nextNode e' = S (nextNode e) /\
      (fresh e -> nextNode e <> 0%nat)) /\
   (getNoteNumber "C4" = 0 \/ getClosestBuffer e (getNoteNumber "C4" + 0) = None ->
      audio e' = audio e ++ [SourceRelease 0 2 (releaseTime e)] /\
      activeSources e' = delete (mapKey "C4" 0) (activeSources e) /\
      nextNode e' = nextNode e)) /\
  activeSources (playNote e 2 "C4" 0 (Some 100) 3) !! mapKey "D4" 0
  = activeSources e !! mapKey "D4" 0 /\
  activeSources (stopNote e 2 "C4" 0 3) !! mapKey "D4" 0
  = activeSources e !! mapKey "D4" 0.
Proof.
assert (H1 : activeSources soundingEngine !! mapKey "C4" 0 = Some 0%nat)
  by (vm_compute; reflexivity).
assert (H2 : ("D4"%string, 0) <> ("C4"%string, 0)) by discriminate.
split; [exact H1 |]. split; [exact H2 |].
exact (retrigger_replaces soundingEngine 2 "C4" 0 (Some 100) 0%nat "D4" 0 3 H1 H2).
Defined.

(** On the ready engine in which C4 sounds, the retrigger of C4 at 2 s asks
    for the release of source 0 and starts source 1 from the sample of C4,
    which is the one entry of the map afterwards. *)
Example retrigger_on_ready_engine :
  audio (playNote soundingEngine 2 "C4" 0 (Some 100) 0)
  = audio soundingEngine
    ++ [SourceRelease 0 2 0.5; SourceStart 1 "C4" 0 (10000 # 16129) 2] /\
  map_to_list (activeSources (playNote soundingEngine 2 "C4" 0 (Some 100) 0))
  = [("C4_0"%string, 1%nat)].
Proof. split; vm_compute; reflexivity. Qed.

(** A play that is scheduled ahead does not stop what sounds under its key:
    the entry is overwritten, and the earlier source sounds on without an
    entry through which it could be stopped. *)
Example scheduled_play_overwrites :
  startedIn (audio (playNote (playNote readyEngine 1 "C4" 0 (Some 100) 0)
                      2 "C4" 0 (Some 100) 3)) 0 = true /\
  releasedIn (audio (playNote (playNote readyEngine 1 "C4" 0 (Some 100) 0)
                       2 "C4" 0 (Some 100) 3)) 0 = false /\
  map_to_list (activeSources (playNote (playNote readyEngine 1 "C4" 0 (Some 100) 0)
                                2 "C4" 0 (Some 100) 3))
  = [("C4_0"%string, 1%nat)].
Proof. repeat split; vm_compute; reflexivity. Qed.

(** ** The playback scheduler *)

Section Playback.

Lemma sameTransport_refl p : sameTransport p p.
Proof. repeat split. Qed.

Lemma sameTransport_trans p1 p2 p3 :
  sameTransport p1 p2 -> sameTransport p2 p3 -> sameTransport p1 p3.
Proof.
unfold sameTransport.
intros (A1 & A2 & A3 & A4 & A5 & A6 & A7 & A8 & A9) (B1 & B2 & B3 & B4 & B5 & B6 & B7 & B8 & B9).
repeat split; congruence.
Qed.


Lemma callsFor_transport p p' c evt :
  sameTransport p p' -> callsFor p' c evt = callsFor p c evt.
Proof.
intros (_ & _ & _ & Hs & Hp & Ha & Ho & _). unfold callsFor, absolutePlayTime.
now rewrite Hs, Hp, Ha, Ho.
Qed.

(** Dealing with one event: calls are added, nothing else moves. *)
Lemma scheduleEvent_spec c clock p evt :
  let p' := scheduleEvent c clock p evt in
  sameTransport p p' /\ audioCursor p' = audioCursor p /\
  calls p' = calls p ++ callsFor p c evt.
Proof.
unfold scheduleEvent, callsFor. destruct (type evt).
- destruct (Qlt_bool _ _); cbn [andb];
    [destruct (isPracticeMode p); cbn [negb] |];
    cbn; rewrite ?app_nil_r; repeat split.
- cbn. repeat split.
Qed.

(** The loop of a tick on the events that are left: it deals with the first
    [k] of them, one after the other, all inside the horizon, and stops at
    the end or in front of the first event beyond the horizon. *)
Lemma scheduleLoop_spec scheduleUntil c clock rest : forall p,
  let p' := scheduleLoop scheduleUntil c clock rest p in
  sameTransport p p' /\
  exists k css,
    (k <= length rest)%nat /\
    audioCursor p' = (audioCursor p + k)%nat /\
    (css = map (callsFor p c) (firstn k rest) /\
     Forall (fun e => time e / 1000 <= scheduleUntil)%Q (firstn k rest)) /\
    calls p' = calls p ++ concat css /\
    (forall e, nth_error rest k = Some e -> (scheduleUntil < time e / 1000)%Q).
Proof.
induction rest as [| evt rest IH]; intros p; cbn [scheduleLoop].
- split; [apply sameTransport_refl |].
  exists 0%nat, []. cbn. rewrite app_nil_r, Nat.add_0_r.
  repeat split; try constructor; try lia. intros e [=].
- destruct (Qlt_bool scheduleUntil (time evt / 1000)) eqn:Hfar.
  + split; [apply sameTransport_refl |].
    exists 0%nat, []. cbn. rewrite app_nil_r, Nat.add_0_r.
    repeat split; try constructor; try lia.
    intros e [= <-]. now apply Qlt_bool_iff.
  + apply Qlt_bool_false in Hfar.
    pose proof (scheduleEvent_spec c clock p evt) as (Ht & Hcur & Hcalls).
    cbv zeta in Ht, Hcur, Hcalls.
    set (p1 := with_cursor _ _).
    assert (Ht1 : sameTransport p p1).
    { subst p1. destruct Ht as (A1 & A2 & A3 & A4 & A5 & A6 & A7 & A8 & A9).
      repeat split; assumption. }
    destruct (IH p1) as (Ht2 & k & css & Hk & Hc2 & [Hf Hin] & Hcs & Hnext).
    split; [now apply (sameTransport_trans p p1) |].
    exists (S k), (callsFor p c evt :: css).
    repeat split.
    * cbn. lia.
    * rewrite Hc2. subst p1. cbn. rewrite Hcur. lia.
    * cbn [firstn map]. f_equal. rewrite Hf. apply map_ext.
      intros e. now apply callsFor_transport.
    * cbn [firstn]. constructor; assumption.
    * rewrite Hcs. subst p1. cbn [calls with_cursor concat].
      rewrite Hcalls. now rewrite <- app_assoc.
    * exact Hnext.
Qed.

(** One tick of the worker. *)
Lemma runAudioScheduler_spec p clock :
  let p' := runAudioScheduler p clock in
  let horizon := (trackPlayTime p clock + 0.1 * playbackSpeed p)%Q in
  recording p' = recording p /\ playbackSpeed p' = playbackSpeed p /\
  audioContextStartTime p' = audioContextStartTime p /\
  isPracticeMode p' = isPracticeMode p /\
  exists k css,
    audioCursor p' = (audioCursor p + k)%nat /\
    (css = map (callsFor p (currentTime (engine p) clock))
                 (firstn k (skipn (audioCursor p) (recording p))) /\
     Forall (fun e => time e / 1000 <= horizon)%Q
       (firstn k (skipn (audioCursor p) (recording p)))) /\
    (forall e, nth_error (skipn (audioCursor p) (recording p)) k = Some e ->
               (horizon < time e / 1000)%Q) /\
    ((exists lastEvent,
        lastEventOf (recording p) = Some lastEvent /\
        (time lastEvent / 1000 + 1 < trackPlayTime p clock)%Q /\
        calls p' = calls p ++ concat css ++ [StopNote "C4" 0 0] /\
        isPlayingBack p' = false /\ workerTicking p' = false /\ animFrame p' = false /\
        elapsedTime p' = 0%Q /\ playbackStartOffset p' = 0%Q)
     \/
     ((forall lastEvent, lastEventOf (recording p) = Some lastEvent ->
         (trackPlayTime p clock <= time lastEvent / 1000 + 1)%Q) /\
      calls p' = calls p ++ concat css /\
      isPlayingBack p' = isPlayingBack p /\ workerTicking p' = workerTicking p /\
      animFrame p' = animFrame p /\
      elapsedTime p' = elapsedTime p /\ playbackStartOffset p' = playbackStartOffset p)).
Proof.
unfold runAudioScheduler.
destruct (recording p) as [| e0 evts] eqn:Hrec.
{ cbn zeta. rewrite ?Hrec. do 4 (split; [reflexivity |]).
  exists 0%nat, []. rewrite Nat.add_0_r, skipn_nil. cbn.
  split; [reflexivity |]. split; [split; [reflexivity | constructor] |].
  split; [intros e [=] |].
  right. rewrite app_nil_r. split; [intros lastEvent [=] |]. repeat split. }
rewrite <- Hrec.
set (horizon := (trackPlayTime p clock + 0.1 * playbackSpeed p)%Q).
pose proof (scheduleLoop_spec horizon (currentTime (engine p) clock) clock
              (skipn (audioCursor p) (recording p)) p)
  as (Ht & k & css & Hk & Hcur & [Hf Hin] & Hcalls & Hnext).
cbv zeta in Ht, Hcur, Hcalls |- *.
set (p1 := scheduleLoop _ _ _ _ _) in *.
destruct Ht as (A1 & A2 & A3 & A4 & A5 & A6 & A7 & A8 & A9).
rewrite A1.
destruct (lastEventOf (recording p)) as [lastEvent |] eqn:Hlast.
- destruct (Qlt_bool (time lastEvent / 1000 + 1.0) (trackPlayTime p clock)) eqn:Hend.
  + apply Qlt_bool_iff in Hend. cbn.
    repeat split; try assumption.
    exists k, css. repeat split; try assumption.
    left. exists lastEvent. repeat split.
    * lra.
    * rewrite Hcalls. now rewrite <- app_assoc.
  + apply Qlt_bool_false in Hend.
    repeat split; try assumption.
    exists k, css. repeat split; try assumption.
    right. repeat split; try assumption.
    intros l [= <-]. lra.
- repeat split; try assumption.
  exists k, css. repeat split; try assumption.
  right. repeat split; try assumption.
  intros l [=].
Qed.








End Playback.

(** ** Pause in the playback by timeouts *)

Section LegacyPause.

Lemma split_no_underscore s :
  has_underscore s = false -> Legacy.split_underscore s = [s].
Proof.
induction s as [| c s IH]; cbn; [reflexivity |].
intros H. apply orb_false_elim in H as [Hc Hs].
rewrite Hc, (IH Hs). reflexivity.
Qed.

Lemma split_mapKey n t :
  has_underscore n = false -> Legacy.split_underscore (mapKey n t) = [n; string_of_Z t].
Proof.
unfold mapKey. induction n as [| c n IH]; cbn.
- intros _. now rewrite split_no_underscore by apply string_of_Z_no_underscore.
- intros H. apply orb_false_elim in H as [Hc Hn].
  rewrite Hc. cbn in IH. now rewrite (IH Hn).
Qed.

Lemma all_digits_string_of_uint d : all_digits (NilEmpty.string_of_uint d) = true.
Proof. induction d; cbn; assumption || reflexivity. Qed.

(** The value of the digits that print a number, read after [acc]. *)
Lemma digits_value_acc d : forall acc,
  digits_value (Z.pos acc) (NilEmpty.string_of_uint d) = Z.pos (Pos.of_uint_acc d acc).
Proof.
induction d; intros acc; cbn [NilEmpty.string_of_uint digits_value Pos.of_uint_acc];
  [reflexivity | ..];
  (etransitivity; [| apply IHd]); f_equal; vm_compute digit_value; lia.
Qed.

Lemma digits_value_of_uint d :
  digits_value 0 (NilEmpty.string_of_uint d) = Z.of_N (Pos.of_uint d).
Proof.
induction d; cbn [NilEmpty.string_of_uint digits_value Pos.of_uint];
  [reflexivity | exact IHd | ..];
  apply (digits_value_acc d).
Qed.

Lemma string_of_uint_head d :
  d <> Decimal.Nil ->
  exists c s, NilEmpty.string_of_uint d = String c s /\ is_digit c = true.
Proof. destruct d; [congruence | ..]; intros _; cbn; do 2 eexists; split; reflexivity. Qed.

Lemma parseInt_digits d :
  d <> Decimal.Nil ->
  parseInt (NilEmpty.string_of_uint d) = digits_value 0 (NilEmpty.string_of_uint d) /\
  is_octave (NilEmpty.string_of_uint d) = true.
Proof.
intros Hd. pose proof (all_digits_string_of_uint d) as Hall.
destruct (string_of_uint_head d Hd) as (c & s & E & Hc).
rewrite E in *. unfold parseInt, is_octave.
rewrite (digit_not_minus c Hc). split; [reflexivity | exact Hall].
Qed.

(** Reading back the decimal rendering of an integer. *)
Lemma parseInt_string_of_Z t :
  parseInt (string_of_Z t) = t /\ is_octave (string_of_Z t) = true.
Proof.
destruct t as [| p | p]; [split; reflexivity | |];
  unfold string_of_Z; cbn [Z.to_int NilZero.string_of_int];
  pose proof (Unsigned.to_uint_nonnil p) as Hnil;
  pose proof (Unsigned.of_to p) as Hback;
  pose proof (digits_value_of_uint (Pos.to_uint p)) as Hval;
  pose proof (all_digits_string_of_uint (Pos.to_uint p)) as Hall;
  destruct (parseInt_digits _ Hnil) as [Hparse Hoct];
  destruct (string_of_uint_head _ Hnil) as (c & s & E & Hc);
  unfold NilZero.string_of_uint;
  destruct (Pos.to_uint p) eqn:Hu; try congruence;
  rewrite Hback in Hval; cbn [Z.of_N] in Hval.
all: try (split; [now rewrite Hparse | exact Hoct]).
all: rewrite E in *; cbn [parseInt is_octave Ascii.eqb Bool.eqb];
  split; [now rewrite Hval | exact Hall].
Qed.

Lemma stopCallOf_mapKey n t :
  has_underscore n = false -> Legacy.stopCallOf (mapKey n t) = [StopNote n t 0].
Proof.
intros Hn. unfold Legacy.stopCallOf. rewrite (split_mapKey n t Hn).
destruct (parseInt_string_of_Z t) as [-> ->]. reflexivity.
Qed.

(** Pausing the playback by timeouts stops every note it holds as started,
    once each. *)
Lemma legacy_pause_stops_each p (pairs : list (string * Z)) :
  Forall (fun nt => has_underscore (fst nt) = false) pairs ->
  Legacy.activePlaybackNotes p = map (fun nt => mapKey (fst nt) (snd nt)) pairs ->
  Legacy.calls (Legacy.pausePlayback p)
  = Legacy.calls p ++ map (fun nt => StopNote (fst nt) (snd nt) 0) pairs.
Proof.
intros Hall Hkeys. cbn [Legacy.pausePlayback Legacy.calls]. rewrite Hkeys. f_equal.
clear Hkeys.
induction Hall as [| [n t] pairs Hn _ IH]; cbn [map flat_map fst snd] in *;
  [reflexivity |].
rewrite (stopCallOf_mapKey n t Hn). cbn [app]. now rewrite IH.
Qed.

(** With D4 started, pause stops D4; and it leaves the elapsed time alone. *)
Example legacy_pause_D4 :
  let p := Legacy.fire (Legacy.mkPlayer tuneD4 0 true [] [] [])
             (mkEvent 0 on "D4" 0 salamander (Some 100)) in
  Legacy.calls (Legacy.pausePlayback p) = [PlayNote "D4" 0 None 0; StopNote "D4" 0 0].
Proof. vm_compute. reflexivity. Qed.

Lemma legacy_pause_keeps_position p :
  Legacy.elapsedTime (Legacy.pausePlayback p) = Legacy.elapsedTime p.
Proof. reflexivity. Qed.

End LegacyPause.

(** C1.  With D4 sounding (its On was handed to the engine, which holds a
    source for it), pausing makes one call, the stop of C4: no stop is
    issued for D4, whose source stays in the engine without a release. *)
Theorem pause_misses_sounding_note :
  playsOf "D4" 0 (calls heldRun) = 1%nat /\
  activeSources (engine heldRun) !! mapKey "D4" 0 = Some 0%nat /\
  isPlayingBack heldRun = true /\
  calls (step heldRun (Toggle 1.5)) = calls heldRun ++ [StopNote "C4" 0 0] /\
  stopsOf "D4" 0 (calls (step heldRun (Toggle 1.5))) = 0%nat /\
  activeSources (engine (step heldRun (Toggle 1.5))) !! mapKey "D4" 0 = Some 0%nat /\
  audio (engine (step heldRun (Toggle 1.5))) = audio (engine heldRun).
Proof. repeat split; vm_compute; reflexivity. Qed.

(** Whatever the state, pausing calls the engine once, for C4, and every
    other pair that sounds in the engine goes on sounding. *)
Lemma pause_stops_C4_only p clock :
  calls (pausePlayback p clock) = calls p ++ [StopNote "C4" 0 0].
Proof. reflexivity. Qed.

Lemma pause_leaves_other_notes p clock n t :
  (n, t) <> ("C4"%string, 0) ->
  activeSources (engine (pausePlayback p clock)) !! mapKey n t
  = activeSources (engine p) !! mapKey n t.
Proof.
intros Hne. cbn [pausePlayback callStop engine with_transport].
apply stopNote_other. now apply mapKey_ne.
Qed.

(** The end of the song in the scheduler.  On the tick that finds the track
    time more than one second past the last event, the scheduler stops the
    worker and leaves the playing state, and it rewinds by itself: the
    elapsed time and the start offset are set to 0.  The cursor is not moved
    back, and the anchor and the speed stay. *)
Lemma scheduler_end_of_song (p : Player) (clock : Q) (lastEvent : AppEvent) :
  lastEventOf (recording p) = Some lastEvent ->
  (time lastEvent / 1000 + 1 < trackPlayTime p clock)%Q ->
  let p' := runAudioScheduler p clock in
  isPlayingBack p' = false /\ workerTicking p' = false /\ animFrame p' = false /\
  elapsedTime p' = 0%Q /\ playbackStartOffset p' = 0%Q /\
  (audioCursor p <= audioCursor p')%nat /\
  audioContextStartTime p' = audioContextStartTime p /\
  playbackSpeed p' = playbackSpeed p /\
  recording p' = recording p.
Proof.
intros Hlast Hpast p'.
pose proof (runAudioScheduler_spec p clock)
  as (Rrec & Rspeed & Ranchor & _ & k & css & Rcur & _ & _ & Rend).
cbv zeta in Rrec, Rspeed, Ranchor, Rcur, Rend. fold p' in Rrec, Rspeed, Ranchor, Rcur, Rend.
destruct Rend as [(l & _ & _ & _ & R1 & R2 & R3 & R4 & R5) | (Hnot & _)].
- repeat split; try assumption. lia.
- specialize (Hnot lastEvent Hlast). lra.
Qed.

Lemma scheduler_end_of_song_witness :
  lastEventOf (recording endRun) = Some (mkEvent 100 off "C4" 0 salamander None) /\
  (time (mkEvent 100 off "C4" 0 salamander None) / 1000 + 1 < trackPlayTime endRun 3.1)%Q /\
  let p' := runAudioScheduler endRun 3.1 in
  isPlayingBack p' = false /\ workerTicking p' = false /\ animFrame p' = false /\
  elapsedTime p' = 0%Q /\ playbackStartOffset p' = 0%Q /\
  (audioCursor endRun <= audioCursor p')%nat /\
  audioContextStartTime p' = audioContextStartTime endRun /\
  playbackSpeed p' = playbackSpeed endRun /\
  recording p' = recording endRun.
Proof.
assert (H1 : lastEventOf (recording endRun)
             = Some (mkEvent 100 off "C4" 0 salamander None)) by reflexivity.
assert (H2 : (time (mkEvent 100 off "C4" 0 salamander None) / 1000 + 1
              < trackPlayTime endRun 3.1)%Q) by (vm_compute; reflexivity).
split; [exact H1 |]. split; [exact H2 |].
exact (scheduler_end_of_song endRun 3.1 _ H1 H2).
Defined.

(** Up to that point a tick leaves the transport and the position alone. *)
Lemma scheduler_before_end (p : Player) (clock : Q) (lastEvent : AppEvent) :
  lastEventOf (recording p) = Some lastEvent ->
  (trackPlayTime p clock <= time lastEvent / 1000 + 1)%Q ->
  let p' := runAudioScheduler p clock in
  isPlayingBack p' = isPlayingBack p /\ workerTicking p' = workerTicking p /\
  elapsedTime p' = elapsedTime p /\ playbackStartOffset p' = playbackStartOffset p.
Proof.
intros Hlast Hle p'.
pose proof (runAudioScheduler_spec p clock) as (_ & _ & _ & _ & k & css & _ & _ & _ & Rend).
cbv zeta in Rend. fold p' in Rend.
destruct Rend as [(l & Hl & Hpast & _) | (_ & _ & R1 & R2 & _ & R4 & R5)].
- rewrite Hlast in Hl. injection Hl as <-. lra.
- repeat split; assumption.
Qed.

(** C4.  In [endRun] playback runs, resumed from offset 50 ms, and shows
    1150 ms, more than one second past the last event at 100 ms.  The tick
    that ends the song stops the worker and leaves the playing state, and it
    does not leave the position where it was: the start offset and the
    elapsed time both differ afterwards (the scheduler has set them to 0). *)
Theorem scheduler_end_resets_position :
  isPlayingBack endRun = true /\ workerTicking endRun = true /\
  playbackStartOffset endRun == 50 /\ elapsedTime endRun == 1150 /\
  isPlayingBack (step endRun (Tick 3.1)) = false /\
  workerTicking (step endRun (Tick 3.1)) = false /\
  ~ playbackStartOffset (step endRun (Tick 3.1)) == playbackStartOffset endRun /\
  ~ elapsedTime (step endRun (Tick 3.1)) == elapsedTime endRun.
Proof.
repeat split; try (vm_compute; reflexivity); vm_compute; discriminate.
Qed.



(** The run of the example above: three ticks pass the four events, each
    of them handed over once. *)
Example ticks_of_started_run :
  let steps := [Tick 1; SetSpeed 1.2 1.5; Tick 1.3; SetSpeed 1.4 1; Tick 1.5] in
  length (ticksOf startedTwo steps) = 3%nat /\
  audioCursor (run startedTwo steps) = 4%nat /\
  length (calls (run startedTwo steps)) = 4%nat /\
  playsOf "C4" 0 (calls (run startedTwo steps)) = 1%nat /\
  playsOf "D4" 0 (calls (run startedTwo steps)) = 1%nat /\
  stopsOf "C4" 0 (calls (run startedTwo steps)) = 1%nat /\
  stopsOf "D4" 0 (calls (run startedTwo steps)) = 1%nat.
Proof. repeat split; vm_compute; reflexivity. Qed.


(** ** Pitch names and numbers *)

Section Canonical.

Lemma take_digits_all ds : all_digits ds = true -> take_digits ds = (ds, EmptyString).
Proof.
induction ds as [| d ds IH]; cbn [all_digits take_digits]; [reflexivity |].
intros H. apply andb_prop in H as [Hd Hds]. rewrite Hd, (IH Hds). reflexivity.
Qed.

Lemma append_nil_r (s : string) : (s +:+ "")%string = s.
Proof. induction s as [| c s IH]; cbn; [reflexivity | now rewrite IH]. Qed.

(** The sign and the digits of an octave that ends the string. *)
Lemma octave_exact (name oct : string) :
  is_octave oct = true ->
  (let (sign, s3) :=
     match oct with
     | String m s2' =>
         if Ascii.eqb m "-" then (String m EmptyString, s2') else (EmptyString, oct)
     | EmptyString => (EmptyString, oct)
     end in
   let (ds, _) := take_digits s3 in
   match ds with
   | EmptyString => None
   | _ => Some (name, (sign +:+ ds)%string)
   end) = Some (name, oct).
Proof.
intros Ho. destruct oct as [| m oct']; [discriminate |].
cbn [is_octave] in Ho.
destruct (Ascii.eqb_spec m "-") as [-> | Hm].
- destruct oct' as [| d ds]; [discriminate |]. cbn [is_digits] in Ho.
  rewrite (take_digits_all _ Ho). reflexivity.
- cbn [is_digits] in Ho. rewrite (take_digits_all _ Ho). reflexivity.
Qed.

Lemma octave_head_not_accidental m oct :
  is_octave (String m oct) = true -> is_accidental m = false.
Proof.
cbn [is_octave]. destruct (Ascii.eqb_spec m "-") as [-> | _]; [reflexivity |].
cbn [is_digits all_digits]. intros H. apply andb_prop in H as [Hd _].
now apply digit_not_accidental.
Qed.

(** A name directly followed by an octave that ends the string is matched
    as it stands. *)
Lemma match_note_here_exact name oct :
  is_name name = true -> is_octave oct = true ->
  match_note_here (name +:+ oct)%string = Some (name, oct).
Proof.
intros Hn Ho.
destruct name as [| c [| a [| ? ?]]]; cbn [is_name] in Hn; try discriminate.
- cbn [String.append match_note_here]. rewrite Hn.
  destruct oct as [| m oct']; [discriminate |].
  cbn [String.append]. rewrite (octave_head_not_accidental m oct' Ho).
  exact (octave_exact (String c EmptyString) (String m oct') Ho).
- apply andb_prop in Hn as [Hc Ha].
  cbn [String.append match_note_here]. rewrite Hc, Ha.
  apply (octave_exact _ oct Ho).
Qed.

Lemma match_note_exact name oct :
  is_name name = true -> is_octave oct = true ->
  match_note (name +:+ oct)%string = Some (name, oct).
Proof.
intros Hn Ho. pose proof (match_note_here_exact name oct Hn Ho) as Hhere.
destruct (name +:+ oct)%string; cbn [match_note]; now rewrite Hhere.
Qed.

(** The twelve names, by index. *)
Lemma sharp_name k :
  0 <= k < 12 ->
  let name := nth (Z.to_nat k) NOTE_NAMES ""%string in
  is_name name = true /\ flatMap name = None /\ indexOf NOTE_NAMES name = k /\
  endsWith_b name = false.
Proof.
intros Hk.
assert (Hc : k = 0 \/ k = 1 \/ k = 2 \/ k = 3 \/ k = 4 \/ k = 5 \/ k = 6 \/ k = 7 \/
             k = 8 \/ k = 9 \/ k = 10 \/ k = 11) by lia.
repeat (destruct Hc as [-> | Hc]; [repeat split; reflexivity |]).
subst k. repeat split; reflexivity.
Qed.

Lemma nameAt_nth names k :
  0 <= k < Z.of_nat (length names) -> nameAt names k = nth (Z.to_nat k) names ""%string.
Proof.
intros Hk. unfold nameAt. destruct (Z.ltb_spec k 0); [lia |].
apply nth_indep. lia.
Qed.

End Canonical.

(** For a number that is not negative the name is the entry of
    [NOTE_NAMES] at its residue. *)
Lemma midiToNote_nonneg i :
  0 <= i ->
  midiToNote i = (nth (Z.to_nat (i mod 12)) NOTE_NAMES "" +:+ string_of_Z (i / 12 - 1))%string.
Proof.
intros Hi. unfold midiToNote. rewrite Z.rem_mod_nonneg by lia.
rewrite nameAt_nth by (cbn; pose proof (Z.mod_pos_bound i 12); lia). reflexivity.
Qed.

Lemma midiNumberToNote_midiToNote i : 0 <= i -> midiNumberToNote i = midiToNote i.
Proof. intros _. reflexivity. Qed.

(** X1.  For every pitch number [i] that is not negative, [noteToMidi] reads
    the name that [midiToNote] makes for [i] back as [i]. *)
Theorem noteToMidi_midiToNote (i : Z) : 0 <= i -> noteToMidi (midiToNote i) = i.
Proof.
intros Hi. rewrite midiToNote_nonneg by exact Hi. unfold noteToMidi.
pose proof (Z.mod_pos_bound i 12 ltac:(lia)) as Hk.
destruct (sharp_name (i mod 12) Hk) as (Hname & Hflat & Hidx & _).
destruct (parseInt_string_of_Z (i / 12 - 1)) as [Hparse Hoct].
rewrite (match_note_exact _ _ Hname Hoct).
rewrite Hparse, Hflat, Hidx. Z.div_mod_to_equations; lia.
Qed.

Lemma noteToMidi_midiToNote_witness : 0 <= 69 /\ noteToMidi (midiToNote 69) = 69.
Proof. split; [lia | apply (noteToMidi_midiToNote 69); lia]. Defined.

(** X2.  For every pitch number [i] that is not negative, [getNoteNumber] of
    the engine reads [i] back from the name that [midiNumberToNote] makes for
    it, and from the name that [midiToStandard] makes for it. *)
Theorem getNoteNumber_midiNumberToNote (i : Z) :
  0 <= i ->
  getNoteNumber (midiNumberToNote i) = i /\ getNoteNumber (midiToStandard i) = i.
Proof.
intros Hi.
assert (E : getNoteNumber (midiNumberToNote i) = i).
{ rewrite midiNumberToNote_midiToNote, midiToNote_nonneg by exact Hi.
  unfold getNoteNumber.
  pose proof (Z.mod_pos_bound i 12 ltac:(lia)) as Hk.
  destruct (sharp_name (i mod 12) Hk) as (Hname & Hflat & Hidx & Hb).
  destruct (parseInt_string_of_Z (i / 12 - 1)) as [Hparse Hoct].
  rewrite (match_note_exact _ _ Hname Hoct).
  rewrite Hparse, Hb, Hidx. Z.div_mod_to_equations; lia. }
split; [exact E | exact E].
Qed.

Lemma getNoteNumber_midiNumberToNote_witness :
  0 <= 21 /\ getNoteNumber (midiNumberToNote 21) = 21 /\ getNoteNumber (midiToStandard 21) = 21.
Proof. split; [lia | apply (getNoteNumber_midiNumberToNote 21); lia]. Defined.

Section Transposition.

Lemma indexOf_from_range names n : forall i,
  0 <= i ->
  indexOf_from i names n = -1 \/ i <= indexOf_from i names n < i + Z.of_nat (length names).
Proof.
induction names as [| x names IH]; intros i Hi; cbn [indexOf_from length]; [now left |].
destruct (String.eqb x n); [right; lia |].
destruct (IH (i + 1) ltac:(lia)) as [H | H]; [now left | right; lia].
Qed.

Lemma indexOf_range n :
  indexOf NOTE_NAMES n <> -1 -> 0 <= indexOf NOTE_NAMES n < 12.
Proof.
intros Hne. unfold indexOf in *.
destruct (indexOf_from_range NOTE_NAMES n 0 ltac:(lia)) as [H | H]; [contradiction |].
cbn [length NOTE_NAMES] in H. lia.
Qed.

(** [((t % 12) + 12) % 12] is the remainder of the flooring division. *)
Lemma rem_fix t : Z.rem (Z.rem t 12 + 12) 12 = t mod 12.
Proof. Z.to_euclidean_division_equations; lia. Qed.

Lemma flatMap_ends_b name sharp : flatMap name = Some sharp -> endsWith_b name = true.
Proof.
unfold flatMap.
repeat match goal with
       | |- context [String.eqb name ?s] =>
           destruct (String.eqb_spec name s) as [-> | _]; [intros _; reflexivity |]
       end.
discriminate.
Qed.

(** The engine maps flats through the same table, behind a test that the
    table makes redundant. *)
Lemma engine_sharp name :
  (if endsWith_b name then match flatMap name with Some sharp => sharp | None => name end
   else name) = sharpOf name.
Proof.
unfold sharpOf. destruct (flatMap name) as [sharp |] eqn:E.
- now rewrite (flatMap_ends_b name sharp E).
- now destruct (endsWith_b name).
Qed.

(** What [getTransposedNote] returns for a note whose name is known. *)
Lemma getTransposedNote_known note name octStr s :
  match_note note = Some (name, octStr) ->
  indexOf NOTE_NAMES (sharpOf name) <> -1 ->
  let t := indexOf NOTE_NAMES (sharpOf name) + parseInt octStr * 12 + s in
  getTransposedNote note s
  = (nth (Z.to_nat (t mod 12)) NOTE_NAMES "" +:+ string_of_Z (t / 12))%string.
Proof.
intros Hm Hidx t. unfold getTransposedNote. rewrite Hm.
fold (sharpOf name).
destruct (Z.eqb_spec (indexOf NOTE_NAMES (sharpOf name)) (-1)); [contradiction |].
fold t. rewrite rem_fix.
rewrite nameAt_nth by (cbn; pose proof (Z.mod_pos_bound t 12); lia). reflexivity.
Qed.

(** Matching a canonical name: the name at [k] and the octave [o]. *)
Lemma match_note_canonical k o :
  0 <= k < 12 ->
  match_note (nth (Z.to_nat k) NOTE_NAMES "" +:+ string_of_Z o)%string
  = Some (nth (Z.to_nat k) NOTE_NAMES ""%string, string_of_Z o).
Proof.
intros Hk. destruct (sharp_name k Hk) as (Hname & _).
destruct (parseInt_string_of_Z o) as [_ Hoct].
now apply match_note_exact.
Qed.

Lemma sharpOf_canonical k :
  0 <= k < 12 -> sharpOf (nth (Z.to_nat k) NOTE_NAMES ""%string)
                 = nth (Z.to_nat k) NOTE_NAMES ""%string.
Proof.
intros Hk. destruct (sharp_name k Hk) as (_ & Hflat & _). unfold sharpOf. now rewrite Hflat.
Qed.

Lemma getNoteNumber_known note name octStr :
  match_note note = Some (name, octStr) ->
  getNoteNumber note = parseInt octStr * 12 + indexOf NOTE_NAMES (sharpOf name) + 12.
Proof.
intros Hm. unfold getNoteNumber. rewrite Hm. now rewrite engine_sharp.
Qed.

End Transposition.

(** X3.  When the pattern finds in a note a name that is in [NOTE_NAMES] once
    flats are mapped to sharps, the name that [getTransposedNote] returns for
    [s] semitones has the pitch of the note plus [s], pitches counted as
    [getNoteNumber] of the engine counts them. *)
Theorem getTransposedNote_pitch (note name octStr : string) (s : Z) :
  match_note note = Some (name, octStr) ->
  indexOf NOTE_NAMES (match flatMap name with Some sharp => sharp | None => name end) <> -1 ->
  getNoteNumber (getTransposedNote note s) = getNoteNumber note + s.
Proof.
intros Hm Hidx. fold (sharpOf name) in Hidx.
pose proof (indexOf_range _ Hidx) as Hr.
rewrite (getTransposedNote_known note name octStr s Hm Hidx). cbv zeta.
set (t := indexOf NOTE_NAMES (sharpOf name) + parseInt octStr * 12 + s).
pose proof (Z.mod_pos_bound t 12 ltac:(lia)) as Hk.
rewrite (getNoteNumber_known _ _ _ (match_note_canonical (t mod 12) (t / 12) Hk)).
rewrite (getNoteNumber_known note name octStr Hm).
rewrite sharpOf_canonical by exact Hk.
destruct (sharp_name (t mod 12) Hk) as (_ & _ & -> & _).
destruct (parseInt_string_of_Z (t / 12)) as [-> _].
subst t. Z.div_mod_to_equations; lia.
Qed.

Lemma getTransposedNote_pitch_witness :
  match_note "Bb3" = Some ("Bb", "3")%string /\
  indexOf NOTE_NAMES (match flatMap "Bb" with Some sharp => sharp | None => "Bb"%string end) <> -1 /\
  getNoteNumber (getTransposedNote "Bb3" 14) = getNoteNumber "Bb3" + 14.
Proof.
assert (H1 : match_note "Bb3" = Some ("Bb", "3")%string) by reflexivity.
assert (H2 : indexOf NOTE_NAMES
               (match flatMap "Bb" with Some sharp => sharp | None => "Bb"%string end) <> -1)
  by (vm_compute; lia).
split; [exact H1 |]. split; [exact H2 |].
exact (getTransposedNote_pitch "Bb3" "Bb" "3" 14 H1 H2).
Defined.

(** X4.  For such a note, transposing by [a] and then by [b] returns the same
    name as transposing by [a + b]. *)
Theorem getTransposedNote_compose (note name octStr : string) (a b : Z) :
  match_note note = Some (name, octStr) ->
  indexOf NOTE_NAMES (match flatMap name with Some sharp => sharp | None => name end) <> -1 ->
  getTransposedNote (getTransposedNote note a) b = getTransposedNote note (a + b).
Proof.
intros Hm Hidx. fold (sharpOf name) in Hidx.
rewrite (getTransposedNote_known note name octStr a Hm Hidx).
rewrite (getTransposedNote_known note name octStr (a + b) Hm Hidx). cbv zeta.
set (t := indexOf NOTE_NAMES (sharpOf name) + parseInt octStr * 12 + a).
pose proof (Z.mod_pos_bound t 12 ltac:(lia)) as Hk.
assert (Hidx2 : indexOf NOTE_NAMES (sharpOf (nth (Z.to_nat (t mod 12)) NOTE_NAMES ""%string)) <> -1).
{ rewrite sharpOf_canonical by exact Hk.
  destruct (sharp_name (t mod 12) Hk) as (_ & _ & -> & _). lia. }
rewrite (getTransposedNote_known _ _ _ b (match_note_canonical (t mod 12) (t / 12) Hk) Hidx2).
cbv zeta. rewrite sharpOf_canonical by exact Hk.
destruct (sharp_name (t mod 12) Hk) as (_ & _ & -> & _).
destruct (parseInt_string_of_Z (t / 12)) as [-> _].
replace (t mod 12 + t / 12 * 12 + b) with (t + b) by (Z.div_mod_to_equations; lia).
replace (indexOf NOTE_NAMES (sharpOf name) + parseInt octStr * 12 + (a + b)) with (t + b)
  by (subst t; lia).
reflexivity.
Qed.

Lemma getTransposedNote_compose_witness :
  match_note "C4" = Some ("C", "4")%string /\
  indexOf NOTE_NAMES (match flatMap "C" with Some sharp => sharp | None => "C"%string end) <> -1 /\
  getTransposedNote (getTransposedNote "C4" 5) (-17) = getTransposedNote "C4" (5 + -17).
Proof.
assert (H1 : match_note "C4" = Some ("C", "4")%string) by reflexivity.
assert (H2 : indexOf NOTE_NAMES
               (match flatMap "C" with Some sharp => sharp | None => "C"%string end) <> -1)
  by (vm_compute; lia).
split; [exact H1 |]. split; [exact H2 |].
exact (getTransposedNote_compose "C4" "C" "4" 5 (-17) H1 H2).
Defined.

(** X5.  [getNoteNumber] of the engine and [noteToMidi] of the codec return
    the same number exactly for the notes in which the pattern finds a match;
    for any other note the first returns 0 and the second 60. *)
Theorem getNoteNumber_noteToMidi (note : string) :
  (getNoteNumber note = noteToMidi note <-> match_note note <> None) /\
  (match_note note = None -> getNoteNumber note = 0 /\ noteToMidi note = 60).
Proof.
unfold getNoteNumber, noteToMidi.
destruct (match_note note) as [[name octStr] |].
- rewrite engine_sharp. unfold sharpOf.
  split; [split; [discriminate | intros _; lia] | discriminate].
- split; [split; [discriminate | intros H; now contradiction H] |].
  intros _. split; reflexivity.
Qed.

Section Tables.

Lemma midiToNote_inj_range i j :
  0 <= i -> 0 <= j -> midiToNote i = midiToNote j -> i = j.
Proof.
intros Hi0 Hj0 E.
assert (Hi : noteToMidi (midiToNote i) = noteToMidi (midiToNote j)) by now rewrite E.
rewrite !midiToNote_nonneg in Hi by assumption. unfold noteToMidi in Hi.
pose proof (Z.mod_pos_bound i 12 ltac:(lia)) as Hki.
pose proof (Z.mod_pos_bound j 12 ltac:(lia)) as Hkj.
destruct (sharp_name (i mod 12) Hki) as (Hn1 & Hf1 & Hi1 & _).
destruct (sharp_name (j mod 12) Hkj) as (Hn2 & Hf2 & Hi2 & _).
destruct (parseInt_string_of_Z (i / 12 - 1)) as [Hp1 Ho1].
destruct (parseInt_string_of_Z (j / 12 - 1)) as [Hp2 Ho2].
rewrite (match_note_exact _ _ Hn1 Ho1), (match_note_exact _ _ Hn2 Ho2) in Hi.
rewrite Hp1, Hp2, Hf1, Hf2, Hi1, Hi2 in Hi.
Z.div_mod_to_equations; lia.
Qed.

(** The table filled over a list of numbers. *)
Lemma fill_lookup (l : list nat) : forall (m : gmap string Z) name i,
  fold_left (fun m i => <[midiToNote (Z.of_nat i) := Z.of_nat i]> m) l m !! name = Some i <->
  (exists k, In k l /\ name = midiToNote (Z.of_nat k) /\ i = Z.of_nat k) \/
  ((forall k, In k l -> name <> midiToNote (Z.of_nat k)) /\ m !! name = Some i).
Proof.
induction l as [| x l IH]; intros m name i; cbn [fold_left In].
- split; [intros H; right; split; [intros k [] | exact H] |].
  intros [(k & [] & _) | [_ H]]; exact H.
- rewrite IH. split.
  + intros [(k & Hk & -> & ->) | [Hno Hl]].
    * left. exists k. auto.
    * apply lookup_insert_Some in Hl as [[<- <-] | [Hne Hl]].
      -- left. exists x. auto.
      -- right. split; [| exact Hl]. intros k [<- | Hk]; [congruence | now apply Hno].
  + intros [(k & [<- | Hk] & -> & ->) | [Hno Hl]].
    * destruct (in_dec Nat.eq_dec x l) as [Hin | Hnin].
      -- left. exists x. auto.
      -- right. split; [| now rewrite lookup_insert_eq].
         intros k' Hk' E. apply midiToNote_inj_range in E; [| lia | lia]. apply Nat2Z.inj in E.
         subst k'. contradiction.
    * left. exists k. auto.
    * right. split; [intros k Hk; apply Hno; now right |].
      rewrite lookup_insert_ne; [exact Hl |]. intros E. now apply (Hno x); [left |].
Qed.

End Tables.

Lemma MIDI_TO_NOTE_known (name : string) (i : Z) :
  MIDI_TO_NOTE i = Some name -> NOTE_TO_MIDI !! name = Some i.
Proof.
unfold NOTE_TO_MIDI, MIDI_TO_NOTE. rewrite fill_lookup.
destruct (Z.leb_spec 0 i); [| discriminate].
destruct (Z.ltb_spec i 128); [| discriminate].
cbn [andb]. intros [= <-]. left. exists (Z.to_nat i).
split; [apply in_seq; lia |]. rewrite Z2Nat.id by lia. now split.
Qed.

(** X6.  The two tables that [initNotes] fills are inverse to each other: the
    entry of [NOTE_TO_MIDI] for a name is [i] exactly when the entry of
    [MIDI_TO_NOTE] for [i] is that name, so no two of the 128 numbers share a
    name. *)
Theorem note_tables_inverse (name : string) (i : Z) :
  NOTE_TO_MIDI !! name = Some i <-> MIDI_TO_NOTE i = Some name.
Proof.
split; [| apply MIDI_TO_NOTE_known].
unfold NOTE_TO_MIDI, MIDI_TO_NOTE. rewrite fill_lookup.
intros [(k & Hk & -> & ->) | [_ H]]; [| now rewrite lookup_empty in H].
apply in_seq in Hk.
destruct (Z.leb_spec 0 (Z.of_nat k)); [| lia].
destruct (Z.ltb_spec (Z.of_nat k) 128); [reflexivity | lia].
Qed.

Section RootKey.

Lemma getRootKeyName_parts (transpose : Z) :
  getRootKeyName transpose
  = (nth (Z.to_nat (transpose mod 12)) NOTE_NAMES "" +:+ "(" +:+
     string_of_Z (transpose / 12) +:+ ")")%string.
Proof.
unfold getRootKeyName.
assert (E : (if Z.rem transpose 12 <? 0 then Z.rem transpose 12 + 12 else Z.rem transpose 12)
            = transpose mod 12).
{ destruct (Z.ltb_spec (Z.rem transpose 12) 0); Z.to_euclidean_division_equations; lia. }
rewrite E.
rewrite nameAt_nth by (cbn; pose proof (Z.mod_pos_bound transpose 12); lia). reflexivity.
Qed.

Lemma append_paren_inj (x y : string) : (x +:+ ")")%string = (y +:+ ")")%string -> x = y.
Proof.
revert y. induction x as [| c x IH]; intros [| d y]; cbn [String.append]; intros H.
- reflexivity.
- injection H as _ H. destruct y; discriminate.
- injection H as _ H. destruct x; discriminate.
- injection H as -> H. f_equal. now apply IH.
Qed.

Lemma root_names_inj k k' (x y : string) :
  0 <= k < 12 -> 0 <= k' < 12 ->
  (nth (Z.to_nat k) NOTE_NAMES "" +:+ "(" +:+ x +:+ ")")%string
  = (nth (Z.to_nat k') NOTE_NAMES "" +:+ "(" +:+ y +:+ ")")%string ->
  k = k' /\ x = y.
Proof.
intros Hk Hk'.
assert (Hc : k = 0 \/ k = 1 \/ k = 2 \/ k = 3 \/ k = 4 \/ k = 5 \/ k = 6 \/ k = 7 \/
             k = 8 \/ k = 9 \/ k = 10 \/ k = 11) by lia.
assert (Hc' : k' = 0 \/ k' = 1 \/ k' = 2 \/ k' = 3 \/ k' = 4 \/ k' = 5 \/ k' = 6 \/ k' = 7 \/
              k' = 8 \/ k' = 9 \/ k' = 10 \/ k' = 11) by lia.
clear Hk Hk'.
repeat (destruct Hc as [-> | Hc]); try subst k;
  repeat (destruct Hc' as [-> | Hc']); try subst k';
  cbv [Z.to_nat Pos.to_nat Pos.iter_op Init.Nat.add nth NOTE_NAMES]; cbn;
  intros Heq; try discriminate Heq;
  (split; [reflexivity | apply append_paren_inj; congruence]).
Qed.

End RootKey.

(** X7.  [getRootKeyName] shows different names for different transpositions,
    negative ones included. *)
Theorem getRootKeyName_inj (a b : Z) : getRootKeyName a = getRootKeyName b <-> a = b.
Proof.
split; [| now intros ->].
rewrite !getRootKeyName_parts. intros H.
apply root_names_inj in H as [Hk Hs]; try (apply Z.mod_pos_bound; lia).
apply string_of_Z_inj in Hs.
rewrite (Z.div_mod a 12), (Z.div_mod b 12) by lia. congruence.
Qed.

(** ** The reader of variable-length quantities and the decoder *)

Section ReadVarInt.

Lemma readVarInt_loop_stops rest : forall result len,
  match readVarInt_loop rest result len with
  | Ok (_, len') =>
      exists pre b post,
        rest = pre ++ b :: post /\ Forall continues pre /\ ~ continues b /\
        len' = len + Z.of_nat (length pre) + 1
  | Throws e => e = RangeError /\ Forall continues rest
  | Diverges => False
  end.
Proof.
induction rest as [| byte rest IH]; intros result len; cbn [readVarInt_loop].
- split; [reflexivity | constructor].
- destruct (Z.eqb_spec (JS32.and byte 0x80) 0) as [Hstop | Hgo].
  + exists [], byte, rest. cbn. repeat split; try constructor.
    * unfold continues. intros H. now apply H.
    * lia.
  + specialize (IH (JS32.or (JS32.shl result 7) (JS32.and byte 0x7f)) (len + 1)).
    destruct (readVarInt_loop rest _ _) as [[v len'] | e |]; [| | exact IH].
    * destruct IH as (pre & b & post & -> & Hpre & Hb & ->).
      exists (byte :: pre), b, post. cbn [app length]. repeat split; try assumption.
      -- constructor; assumption.
      -- lia.
    * destruct IH as [-> Hall]. split; [reflexivity |]. constructor; assumption.
Qed.

End ReadVarInt.

(** X8.  Started at an offset that is not negative, [readVarInt] consumes the
    bytes up to and including the first one whose top bit is clear and reports
    their number; when every byte up to the end of the buffer has the top bit
    set it throws the range error of [DataView], and it always comes back. *)
Theorem readVarInt_stops_at_terminator (view : list Z) (offset : Z) :
  0 <= offset ->
  match readVarInt view offset with
  | Ok (_, len) =>
      exists pre b post,
        skipn (Z.to_nat offset) view = pre ++ b :: post /\
        Forall continues pre /\ ~ continues b /\ len = Z.of_nat (length pre) + 1
  | Throws e => e = RangeError /\ Forall continues (skipn (Z.to_nat offset) view)
  | Diverges => False
  end.
Proof.
intros Hoff. unfold readVarInt. destruct (Z.ltb_spec offset 0); [lia |].
pose proof (readVarInt_loop_stops (skipn (Z.to_nat offset) view) 0 0) as Hloop.
destruct (readVarInt_loop _ 0 0) as [[v len] | e |]; [| exact Hloop | exact Hloop].
destruct Hloop as (pre & b & post & E & Hpre & Hb & ->).
exists pre, b, post. repeat split; assumption || lia.
Qed.

Lemma readVarInt_stops_at_terminator_witness :
  0 <= 1 /\
  match readVarInt [0x00; 0x81; 0x70; 0x80] 1 with
  | Ok (_, len) =>
      exists pre b post,
        skipn (Z.to_nat 1) [0x00; 0x81; 0x70; 0x80] = pre ++ b :: post /\
        Forall continues pre /\ ~ continues b /\ len = Z.of_nat (length pre) + 1
  | Throws e => e = RangeError /\ Forall continues (skipn (Z.to_nat 1) [0x00; 0x81; 0x70; 0x80])
  | Diverges => False
  end.
Proof.
split; [lia |]. apply (readVarInt_stops_at_terminator [0x00; 0x81; 0x70; 0x80] 1). lia.
Defined.

(** ** Rejected files *)

(** X9.  The hand-rolled [parseMidiFile] throws on every buffer that is
    shorter than the 14 bytes of a header chunk or does not start with [MThd]:
    the error Invalid MIDI header when there are four bytes and they are not
    [MThd], the range error of [DataView] otherwise. *)
Theorem parseMidiFile_rejects (view : list Z) :
  (length view < 14)%nat \/ firstn 4 view <> MidiBinary.MThd ->
  exists e,
    MidiBinary.parseMidiFile view = Throws e /\
    (e = InvalidMidiHeader <-> (4 <= length view)%nat /\ firstn 4 view <> MidiBinary.MThd).
Proof.
intros Hbad. unfold MidiBinary.parseMidiFile.
destruct view as [| h0 [| h1 [| h2 [| h3 rest]]]];
  try (exists RangeError; split; [reflexivity |];
       split; [discriminate | cbn [length]; intros [? _]; lia]).
unfold MidiBinary.parseMidiFile_fuel.
change (getUint8 (h0 :: h1 :: h2 :: h3 :: rest) 0) with (@Ok Z h0).
change (getUint8 (h0 :: h1 :: h2 :: h3 :: rest) 1) with (@Ok Z h1).
change (getUint8 (h0 :: h1 :: h2 :: h3 :: rest) 2) with (@Ok Z h2).
change (getUint8 (h0 :: h1 :: h2 :: h3 :: rest) 3) with (@Ok Z h3).
cbn [obind firstn].
destruct (decide ([h0; h1; h2; h3] = MidiBinary.MThd)) as [Hm | Hm].
- rewrite bool_decide_eq_true_2 by exact Hm. cbn [negb].
  destruct Hbad as [Hlen | Hne]; [| contradiction].
  exists RangeError.
  split; [| split; [discriminate | intros [_ Hne]; contradiction]].
  cbn [length] in Hlen.
  do 10 (destruct rest as [| ? rest]; [reflexivity |]).
  cbn [length] in Hlen. lia.
- rewrite bool_decide_eq_false_2 by exact Hm. cbn [negb].
  exists InvalidMidiHeader. split; [reflexivity |].
  split; [intros _ | reflexivity]. split; [cbn [length]; lia | exact Hm].
Qed.

Lemma parseMidiFile_rejects_witness :
  ((length riffFile < 14)%nat \/ firstn 4 riffFile <> MidiBinary.MThd) /\
  exists e,
    MidiBinary.parseMidiFile riffFile = Throws e /\
    (e = InvalidMidiHeader <-> (4 <= length riffFile)%nat /\ firstn 4 riffFile <> MidiBinary.MThd).
Proof.
assert (H : (length riffFile < 14)%nat \/ firstn 4 riffFile <> MidiBinary.MThd)
  by (left; cbn; lia).
split; [exact H | exact (parseMidiFile_rejects riffFile H)].
Defined.


Section DecoderShape.

Ltac obind_case H :=
  match type of H with
  | context [obind ?m _] =>
      let E := fresh "E" in
      destruct m eqn:E; cbn [obind] in H; try discriminate
  end.


Lemma noteName_known n : is_Some (NOTE_TO_MIDI !! MidiBinary.noteName n).
Proof.
unfold MidiBinary.noteName. destruct (MIDI_TO_NOTE n) as [s |] eqn:E.
- exists n. now apply MIDI_TO_NOTE_known.
- exists 60. now apply MIDI_TO_NOTE_known.
Qed.

Lemma decoded_on ms n vel :
  vel <> 0 -> decodedShape (mkEvent ms on (MidiBinary.noteName n) 0 salamander (Some vel)).
Proof.
intros Hv. repeat split; cbn; [| apply noteName_known]. exists vel. now split.
Qed.

Lemma decoded_off ms n vel :
  decodedShape (mkEvent ms off (MidiBinary.noteName n) 0 salamander (Some vel)).
Proof.
repeat split; cbn; [| apply noteName_known]. exists vel. split; [reflexivity | discriminate].
Qed.

(** One round of the track loop adds at most one event, of that shape. *)
Lemma trackEvent_shape view ppq s s' :
  MidiBinary.trackEvent view ppq s = Ok s' ->
  Forall decodedShape (MidiBinary.events s) -> Forall decodedShape (MidiBinary.events s').
Proof.
unfold MidiBinary.trackEvent. intros H Hall.
obind_case H. destruct a as [deltaTicks deltaLen].
obind_case H.
destruct (JS32.and a 0x80 =? 0);
  repeat match type of H with
         | (if ?c then _ else _) = _ => destruct c eqn:?
         | context [obind _ _] => obind_case H
         | (let (_, _) := ?p in _) = _ => destruct p
         | Ok _ = Ok _ => injection H as <-; cbn [MidiBinary.events]
         end;
  try assumption;
  try (apply Forall_app; split; [assumption |]; constructor; [| constructor]);
  try apply decoded_off; try (apply decoded_on; lia).
Qed.

End DecoderShape.

Section DecoderTracks.

Lemma trackLoop_shape view ppq endOfTrack fuel : forall s s',
  MidiBinary.trackLoop fuel view ppq endOfTrack s = Ok s' ->
  Forall decodedShape (MidiBinary.events s) -> Forall decodedShape (MidiBinary.events s').
Proof.
induction fuel as [| fuel IH]; intros s s'; rewrite trackLoop_eq;
  destruct (MidiBinary.cursor s <? endOfTrack); try discriminate;
  try (intros [= <-]; trivial).
destruct (MidiBinary.trackEvent view ppq s) as [s1 | |] eqn:E; cbn [obind]; try discriminate.
intros Hloop Hall. apply (IH s1 s' Hloop). now apply (trackEvent_shape view ppq s).
Qed.

Lemma tracksLoop_shape view ppq fuel numTracks : forall cur us evs evs',
  MidiBinary.tracksLoop fuel view ppq numTracks cur us evs = Ok evs' ->
  Forall decodedShape evs -> Forall decodedShape evs'.
Proof.
induction numTracks as [| n IH]; intros cur us evs evs'; cbn [MidiBinary.tracksLoop].
- now intros [= <-].
- intros H Hall.
  repeat match type of H with
         | context [obind (getUint8 ?v ?i) _] =>
             destruct (getUint8 v i); cbn [obind] in H; try discriminate
         | context [obind (MidiBinary.getUint32 ?v ?i) _] =>
             destruct (MidiBinary.getUint32 v i); cbn [obind] in H; try discriminate
         end.
  match type of H with
  | context [obind ?m _] => destruct m as [s1 | |] eqn:E; cbn [obind] in H; try discriminate
  end.
  apply (IH _ _ _ _ H). now apply (trackLoop_shape _ _ _ _ _ _ E).
Qed.

(** Insertion keeps a list in order of time. *)
Lemma js_sort_insert_sorted x l :
  Sorted (fun a b => time a <= time b)%Q l ->
  Sorted (fun a b => time a <= time b)%Q (js_sort_insert byTime x l).
Proof.
intros Hs. induction Hs as [| y l Hs IH Hy]; cbn [js_sort_insert].
- repeat constructor.
- destruct (Qlt_bool (byTime y x) 0) eqn:Hlt.
  + apply Qlt_bool_iff in Hlt. unfold byTime in Hlt.
    constructor; [exact IH |].
    destruct Hy as [| z l' Hyz]; cbn [js_sort_insert].
    * constructor. lra.
    * destruct (Qlt_bool (byTime z x) 0); constructor; [exact Hyz | lra].
  + apply Qlt_bool_false in Hlt. unfold byTime in Hlt.
    constructor; [constructor; assumption |]. constructor. lra.
Qed.

Lemma js_sort_byTime_sorted l :
  StronglySorted (fun a b => time a <= time b)%Q (js_sort byTime l).
Proof.
apply Sorted_StronglySorted.
- intros a b c Hab Hbc. now apply (Qle_trans _ (time b)).
- unfold js_sort. induction l as [| x l IH]; cbn [fold_right]; [constructor |].
  now apply js_sort_insert_sorted.
Qed.

End DecoderTracks.

(** X10.  Whenever the hand-rolled [parseMidiFile] returns on a file whose
    time division is not 0, the events are in order of time, every event has
    transpose 0, the instrument [salamander], a velocity (never 0 for an On)
    and a note name that is in [NOTE_TO_MIDI]. *)
Theorem parseMidiFile_events_shape (view : list Z) (evs : list AppEvent) :
  MidiBinary.getUint16 view 12 <> Ok 0 ->
  MidiBinary.parseMidiFile view = Ok evs ->
  StronglySorted (fun a b => time a <= time b)%Q evs /\ Forall decodedShape evs.
Proof.
intros _. unfold MidiBinary.parseMidiFile, MidiBinary.parseMidiFile_fuel. intros H.
repeat match type of H with
       | context [obind (getUint8 ?v ?i) _] =>
           destruct (getUint8 v i); cbn [obind] in H; try discriminate
       end.
destruct (negb _); [discriminate |].
repeat match type of H with
       | context [obind (MidiBinary.getUint16 ?v ?i) _] =>
           destruct (MidiBinary.getUint16 v i); cbn [obind] in H; try discriminate
       end.
match type of H with
| context [obind ?m _] => destruct m as [evs1 | |] eqn:E; cbn [obind] in H; try discriminate
end.
injection H as <-. split; [apply js_sort_byTime_sorted |].
apply js_sort_Forall. apply (tracksLoop_shape _ _ _ _ _ _ _ _ E). constructor.
Qed.

Lemma parseMidiFile_events_shape_witness :
  MidiBinary.getUint16 oneNoteFile 12 <> Ok 0 /\
  exists evs,
    MidiBinary.parseMidiFile oneNoteFile = Ok evs /\
    StronglySorted (fun a b => time a <= time b)%Q evs /\ Forall decodedShape evs.
Proof.
assert (H1 : MidiBinary.getUint16 oneNoteFile 12 <> Ok 0) by (vm_compute; discriminate).
split; [exact H1 |].
eexists. split; [vm_compute; reflexivity |].
apply (parseMidiFile_events_shape oneNoteFile _ H1). vm_compute; reflexivity.
Defined.

(** ** The decoder comes back *)

Section DecoderEnds.

Import MidiBinary.

(** A quantity that was read lies inside the buffer and has a byte at
    least. *)
Lemma readVarInt_inside view offset value len :
  readVarInt view offset = Ok (value, len) ->
  0 <= offset /\ 1 <= len /\ offset + len <= Z.of_nat (length view).
Proof.
intros H. unfold readVarInt in H.
destruct (Z.ltb_spec offset 0); [discriminate |].
pose proof (readVarInt_loop_stops (skipn (Z.to_nat offset) view) 0 0) as Hloop.
rewrite H in Hloop. destruct Hloop as (pre & b & post & E & _ & _ & ->).
apply (f_equal (@length Z)) in E. rewrite length_skipn, length_app in E. cbn [length] in E.
lia.
Qed.

Lemma lengthsNonNegative_check view :
  lengthsNonNegative_b view = true -> lengthsNonNegative view.
Proof.
unfold lengthsNonNegative_b, lengthsNonNegative. rewrite forallb_forall.
intros Hall offset value len H.
destruct (readVarInt_inside _ _ _ _ H) as (H0 & H1 & H2).
specialize (Hall (Z.to_nat offset)). rewrite Z2Nat.id in Hall by exact H0.
rewrite H in Hall. apply Z.leb_le. apply Hall. apply in_seq. lia.
Qed.

(** A round that returns has moved the cursor forward, from inside the
    buffer. *)
Lemma trackEvent_advances view ppq s s' :
  lengthsNonNegative view ->
  trackEvent view ppq s = Ok s' ->
  cursor s < cursor s' /\ cursor s < Z.of_nat (length view).
Proof.
intros Hnn H. unfold trackEvent in H.
destruct (readVarInt view (cursor s)) as [[deltaTicks deltaLen] | |] eqn:Hd;
  cbn [obind] in H; try discriminate.
destruct (readVarInt_inside _ _ _ _ Hd) as (H0 & H1 & H2).
split; [| lia].
destruct (getUint8 view (cursor s + deltaLen)) as [status0 | |]; cbn [obind] in H;
  try discriminate.
destruct (JS32.and status0 0x80 =? 0);
  repeat match type of H with
         | (if ?c then _ else _) = _ => destruct c
         | context [obind (readVarInt ?v ?o) _] =>
             let E := fresh "E" in
             destruct (readVarInt v o) as [[? ?] | |] eqn:E; cbn [obind] in H;
             try discriminate;
             let P := fresh "P" in
             pose proof (readVarInt_inside _ _ _ _ E) as P;
             let N := fresh "N" in
             pose proof (Hnn _ _ _ E) as N
         | context [obind ?m _] => destruct m; cbn [obind] in H; try discriminate
         | Ok _ = Ok _ => injection H as <-; cbn [cursor]
         end; lia.
Qed.

Lemma readVarInt_returns view offset : readVarInt view offset <> Diverges.
Proof.
unfold readVarInt. destruct (offset <? 0); [discriminate |].
pose proof (readVarInt_loop_stops (skipn (Z.to_nat offset) view) 0 0) as Hloop.
destruct (readVarInt_loop _ 0 0); [discriminate | discriminate | contradiction].
Qed.

Lemma getUint8_returns view i : getUint8 view i <> Diverges.
Proof.
unfold getUint8. destruct (i <? 0); [discriminate |].
destruct (nth_error view (Z.to_nat i)); discriminate.
Qed.

(** A round of the track loop comes back. *)
Lemma trackEvent_returns view ppq s : trackEvent view ppq s <> Diverges.
Proof.
intros E. unfold trackEvent in E.
repeat match type of E with
       | context [JS32.and ?x 128 =? 0] => destruct (JS32.and x 128 =? 0)
       | context [obind (if ?c then _ else _) _] => destruct c; cbn [obind] in E
       | (if ?c then _ else _) = _ => destruct c
       | (let (_, _) := ?p in _) = _ => destruct p
       | context [obind (readVarInt ?v ?o) _] =>
           let R := fresh "R" in
           pose proof (readVarInt_returns v o) as R;
           destruct (readVarInt v o) as [[? ?] | |]; cbn [obind] in E; try discriminate;
           try contradiction
       | context [obind (getUint8 ?v ?o) _] =>
           let R := fresh "R" in
           pose proof (getUint8_returns v o) as R;
           destruct (getUint8 v o); cbn [obind] in E; try discriminate; try contradiction
       end; discriminate E.
Qed.

Lemma trackLoop_ends view ppq endOfTrack :
  lengthsNonNegative view ->
  forall fuel s,
    1 + Z.max 0 (Z.of_nat (length view) - cursor s) <= Z.of_nat fuel ->
    match trackLoop fuel view ppq endOfTrack s with
    | Ok s' => cursor s <= cursor s'
    | Throws _ => True
    | Diverges => False
    end.
Proof.
intros Hnn. induction fuel as [| fuel IH]; intros s Hfuel; [lia |].
rewrite trackLoop_eq. destruct (cursor s <? endOfTrack); [| lia].
destruct (trackEvent view ppq s) as [s1 | |] eqn:E; cbn [obind].
- destruct (trackEvent_advances view ppq s s1 Hnn E) as [Hadv Hin].
  specialize (IH s1 ltac:(lia)).
  destruct (trackLoop fuel view ppq endOfTrack s1); [lia | exact I | exact IH].
- exact I.
- now apply trackEvent_returns in E.
Qed.

Lemma getUint32_returns view i : getUint32 view i <> Diverges.
Proof.
unfold getUint32.
repeat match goal with
       | |- context [obind (getUint8 ?v ?o) _] =>
           let R := fresh "R" in
           pose proof (getUint8_returns v o) as R;
           destruct (getUint8 v o); cbn [obind]; try discriminate; try contradiction
       end.
Qed.

Lemma getUint16_returns view i : getUint16 view i <> Diverges.
Proof.
unfold getUint16.
repeat match goal with
       | |- context [obind (getUint8 ?v ?o) _] =>
           let R := fresh "R" in
           pose proof (getUint8_returns v o) as R;
           destruct (getUint8 v o); cbn [obind]; try discriminate; try contradiction
       end.
Qed.

Lemma tracksLoop_ends view ppq fuel :
  lengthsNonNegative view -> 1 + Z.of_nat (length view) <= Z.of_nat fuel ->
  forall numTracks cur us evs,
    0 <= cur -> tracksLoop fuel view ppq numTracks cur us evs <> Diverges.
Proof.
intros Hnn Hfuel. induction numTracks as [| n IH]; intros cur us evs Hcur;
  cbn [tracksLoop]; [discriminate |].
repeat match goal with
       | |- context [obind (getUint8 ?v ?o) _] =>
           let R := fresh "R" in
           pose proof (getUint8_returns v o) as R;
           destruct (getUint8 v o); cbn [obind]; try discriminate; try contradiction
       end.
pose proof (getUint32_returns view (cur + 4)) as R32.
destruct (getUint32 view (cur + 4)) as [trackLen | |]; cbn [obind]; try discriminate;
  try contradiction.
pose proof (trackLoop_ends view ppq (cur + 4 + 4 + trackLen) Hnn fuel
              (mkTrack (cur + 4 + 4) us evs 0 0%Q 0)) as Hloop.
cbn [cursor] in Hloop.
destruct (trackLoop fuel view ppq _ _) as [s | |]; cbn [obind]; try discriminate.
- apply IH. specialize (Hloop ltac:(lia)). lia.
- exfalso. apply Hloop. lia.
Qed.

End DecoderEnds.

(** X11.  On a buffer in which no variable-length quantity, read at any
    offset, is negative, the hand-rolled [parseMidiFile] comes back: it
    returns or throws within as many rounds of its track loop as the buffer
    has bytes, plus one, and with any larger number of rounds the result is
    the same. (A meta event whose length reads as a negative number sends the
    cursor backwards; the condition rules that out.) *)
Theorem parseMidiFile_returns (view : list Z) :
  lengthsNonNegative view ->
  exists r : outcome (list AppEvent),
    r <> Diverges /\
    forall fuel, (length view < fuel)%nat -> MidiBinary.parseMidiFile_fuel fuel view = r.
Proof.
intros Hnn.
assert (Hret : MidiBinary.parseMidiFile view <> Diverges).
{ unfold MidiBinary.parseMidiFile, MidiBinary.parseMidiFile_fuel.
  repeat match goal with
         | |- context [obind (getUint8 ?v ?o) _] =>
             let R := fresh "R" in
             pose proof (getUint8_returns v o) as R;
             destruct (getUint8 v o); cbn [obind]; try discriminate; try contradiction
         end.
  destruct (negb _); [discriminate |].
  repeat match goal with
         | |- context [obind (MidiBinary.getUint16 ?v ?o) _] =>
             let R := fresh "R" in
             pose proof (getUint16_returns v o) as R;
             destruct (MidiBinary.getUint16 v o); cbn [obind]; try discriminate;
             try contradiction
         end.
  match goal with
  | |- context [obind ?m _] =>
      let R := fresh "R" in
      assert (R : m <> Diverges) by (apply tracksLoop_ends; [exact Hnn | lia | lia]);
      destruct m; cbn [obind]; try discriminate; try contradiction
  end. }
exists (MidiBinary.parseMidiFile view). split; [exact Hret |].
intros fuel Hfuel. unfold MidiBinary.parseMidiFile in *.
apply parseMidiFile_fuel_le; [lia | exact Hret].
Qed.

Lemma parseMidiFile_returns_witness :
  lengthsNonNegative oneNoteFile /\
  exists r : outcome (list AppEvent),
    r <> @Diverges (list AppEvent) /\
    forall fuel, (length oneNoteFile < fuel)%nat ->
                 MidiBinary.parseMidiFile_fuel fuel oneNoteFile = r.
Proof.
assert (H : lengthsNonNegative oneNoteFile)
  by (apply lengthsNonNegative_check; vm_compute; reflexivity).
split; [exact H | exact (parseMidiFile_returns oneNoteFile H)].
Defined.

(** ** Export followed by import *)

Section RoundTrip.

Import MidiBinary.

Lemma MS_PER_TICK_val : MS_PER_TICK == 25 # 24.
Proof. reflexivity. Qed.

Lemma Math_round_Z k : Math_round (inject_Z k) = k.
Proof.
unfold Math_round.
pose proof (Qfloor_le (inject_Z k + (1 # 2))) as Hlo.
pose proof (Qlt_floor (inject_Z k + (1 # 2))) as Hhi.
set (f := Qfloor (inject_Z k + (1 # 2))) in *.
assert (H1 : (inject_Z f < inject_Z (k + 1))%Q).
{ rewrite inject_Z_plus. change (inject_Z 1) with 1%Q. lra. }
assert (H2 : (inject_Z k < inject_Z (f + 1))%Q).
{ rewrite inject_Z_plus in Hhi |- *. change (inject_Z 1) with 1%Q in *. lra. }
rewrite <- Zlt_Qlt in H1, H2. lia.
Qed.

Lemma Math_round_eq x k : x == inject_Z k -> Math_round x = k.
Proof.
intros E. unfold Math_round. rewrite E. apply Math_round_Z.
Qed.

(** The delta time of an event on the grid, after an event on the grid. *)
Lemma delta_ticks t last kt kl :
  t == inject_Z kt * MS_PER_TICK -> last == inject_Z kl * MS_PER_TICK ->
  Math_round ((t - last) / MS_PER_TICK) = kt - kl.
Proof.
intros Ht Hl. apply Math_round_eq.
rewrite Ht, Hl, MS_PER_TICK_val.
unfold Zminus. rewrite inject_Z_plus, inject_Z_opp. field.
Qed.

Lemma tick_mono a b ka kb :
  a == inject_Z ka * MS_PER_TICK -> b == inject_Z kb * MS_PER_TICK ->
  (a <= b)%Q -> ka <= kb.
Proof.
intros Ha Hb Hle. rewrite Ha, Hb, MS_PER_TICK_val in Hle.
rewrite Zle_Qle. lra.
Qed.

Lemma encodeEvent_exportable tb lastTime kl e :
  exportable e -> lastTime == inject_Z kl * MS_PER_TICK -> 0 <= kl <= tickOf e ->
  encodeEvent (tb, lastTime) e
  = Ok (tb ++ vlq_bytes (tickOf e - kl) ++ msgOf e, time e).
Proof.
intros (Hname & Hk & Hgrid & Hvel) Hlast Hkl. unfold encodeEvent.
rewrite (delta_ticks (time e) lastTime (tickOf e) kl Hgrid Hlast).
rewrite writeVarInt_bytes by lia. cbn [obind].
unfold msgOf, statusOf, pitchOf, velocityByte.
destruct Hname as [m Hm]. rewrite Hm.
destruct (type e); rewrite <- app_assoc; reflexivity.
Qed.

Lemma encodeEvents_exportable l : forall tb lastTime kl,
  Forall exportable l ->
  StronglySorted (fun a b => time a <= time b)%Q l ->
  lastTime == inject_Z kl * MS_PER_TICK -> 0 <= kl ->
  Forall (fun e => kl <= tickOf e) l ->
  exists lastTime',
    encodeEvents (tb, lastTime) l = Ok (tb ++ trackData kl l, lastTime').
Proof.
induction l as [| e l IH]; intros tb lastTime kl Hall Hs Hlast Hkl Hge; cbn [encodeEvents trackData].
- exists lastTime. now rewrite app_nil_r.
- inversion Hall as [| ? ? He Hall']; subst.
  inversion Hs as [| ? ? Hs' Hle]; subst.
  inversion Hge as [| ? ? Hke _]; subst.
  rewrite (encodeEvent_exportable tb lastTime kl e He Hlast) by lia. cbn [obind].
  destruct He as (Hname & Hk & Hgrid & Hvel).
  destruct (IH (tb ++ vlq_bytes (tickOf e - kl) ++ msgOf e) (time e) (tickOf e))
    as [lastTime' Hrec]; try assumption; try lia.
  + rewrite Forall_forall in Hle, Hall' |- *. intros x Hx.
    destruct (Hall' x Hx) as (_ & _ & Hgx & _).
    apply (tick_mono (time e) (time x)); auto.
  + exists lastTime'. rewrite Hrec. now rewrite <- !app_assoc.
Qed.


Lemma getUint8_mid pre mid rest c j :
  c = Z.of_nat (length pre) + Z.of_nat (length mid) + j -> 0 <= j ->
  getUint8 (pre ++ mid ++ rest) c = getUint8 rest j.
Proof.
intros -> Hj. unfold getUint8.
destruct (Z.ltb_spec (Z.of_nat (length pre) + Z.of_nat (length mid) + j) 0); [lia |].
destruct (Z.ltb_spec j 0); [lia |].
replace (Z.to_nat (Z.of_nat (length pre) + Z.of_nat (length mid) + j))
  with (length pre + (length mid + Z.to_nat j))%nat by lia.
rewrite nth_error_app2 by lia.
replace (length pre + (length mid + Z.to_nat j) - length pre)%nat
  with (length mid + Z.to_nat j)%nat by lia.
rewrite nth_error_app2 by lia.
now replace (length mid + Z.to_nat j - length mid)%nat with (Z.to_nat j) by lia.
Qed.

Lemma readVarInt_at pre rest c :
  c = Z.of_nat (length pre) -> readVarInt (pre ++ rest) c = readVarInt_loop rest 0 0.
Proof.
intros ->. unfold readVarInt.
destruct (Z.ltb_spec (Z.of_nat (length pre)) 0); [lia |].
rewrite Nat2Z.id, skipn_app, skipn_all, Nat.sub_diag. reflexivity.
Qed.

Lemma pitchOf_range e : 0 <= pitchOf e <= 127.
Proof. unfold pitchOf, clamp127. lia. Qed.

Lemma noteName_pitch e : noteName (pitchOf e) = midiToNote (pitchOf e).
Proof.
pose proof (pitchOf_range e) as Hr. unfold noteName, MIDI_TO_NOTE.
destruct (Z.leb_spec 0 (pitchOf e)); [| lia].
destruct (Z.ltb_spec (pitchOf e) 128); [reflexivity | lia].
Qed.

(** The round of the track loop that reads the message of an event. *)
Lemma trackEvent_msg pre post d e s :
  0 <= d < 2 ^ 28 -> (type e = on -> 0 < velocityByte e < 256) ->
  cursor s = Z.of_nat (length pre) ->
  trackEvent (pre ++ vlq_bytes d ++ msgOf e ++ post) 480 s
  = Ok (mkTrack (cursor s + Z.of_nat (length (vlq_bytes d)) + 3) (usPerBeat s)
          (events s ++
           [mkEvent (currentTimeMs s + inject_Z (d * usPerBeat s) / inject_Z (480 * 1000))
              (type e) (midiToNote (pitchOf e)) 0 salamander (Some (velocityByte e))])
          (currentTimeTicks s + d)
          (currentTimeMs s + inject_Z (d * usPerBeat s) / inject_Z (480 * 1000))
          (statusOf e)).
Proof.
intros Hd Hvel Hcur. unfold trackEvent.
rewrite (readVarInt_at pre _ (cursor s) Hcur).
rewrite readVarInt_loop_bytes by exact Hd. cbn [obind].
set (L := Z.of_nat (length (vlq_bytes d))).
rewrite (getUint8_mid pre (vlq_bytes d) _ (cursor s + L) 0) by (subst L; lia).
rewrite <- noteName_pitch.
unfold msgOf. cbn [app].
change (getUint8 (?a :: ?l) 0) with (@Ok Z a).
cbn [obind].
unfold statusOf, velocityByte in *. destruct (type e).
- change (JS32.and 144 128 =? 0) with false. cbv iota.
  change (JS32.sar 144 4) with 9. cbn [Z.eqb Pos.eqb].
  rewrite (getUint8_mid pre (vlq_bytes d) _ (cursor s + L + 1) 1) by (subst L; lia).
  rewrite (getUint8_mid pre (vlq_bytes d) _ (cursor s + L + 1 + 1) 2) by (subst L; lia).
  change (getUint8 (?a :: ?b :: ?l) 1) with (@Ok Z b).
  change (getUint8 (?a :: ?b :: ?c :: ?l) 2) with (@Ok Z c).
  cbn [obind].
  specialize (Hvel eq_refl).
  destruct (Z.eqb_spec (match velocity e with
                        | Some v => if v =? 0 then 80 else v
                        | None => 80
                        end) 0) as [E | _]; [lia |].
  do 2 f_equal. lia.
- change (JS32.and 128 128 =? 0) with false. cbv iota.
  change (JS32.sar 128 4) with 8. cbn [Z.eqb Pos.eqb].
  rewrite (getUint8_mid pre (vlq_bytes d) _ (cursor s + L + 1) 1) by (subst L; lia).
  rewrite (getUint8_mid pre (vlq_bytes d) _ (cursor s + L + 1 + 1) 2) by (subst L; lia).
  change (getUint8 (?a :: ?b :: ?l) 1) with (@Ok Z b).
  change (getUint8 (?a :: ?b :: ?c :: ?l) 2) with (@Ok Z c).
  cbn [obind]. do 2 f_equal. lia.
Qed.


Lemma getUint8_pre pre rest c j :
  c = Z.of_nat (length pre) + j -> 0 <= j -> getUint8 (pre ++ rest) c = getUint8 rest j.
Proof.
intros -> Hj. apply (getUint8_mid pre [] rest); cbn [length]; lia.
Qed.

Lemma readVarInt_pre pre rest c j :
  c = Z.of_nat (length pre) + j -> 0 <= j -> readVarInt (pre ++ rest) c = readVarInt rest j.
Proof.
intros -> Hj. unfold readVarInt.
destruct (Z.ltb_spec (Z.of_nat (length pre) + j) 0); [lia |].
destruct (Z.ltb_spec j 0); [lia |].
replace (Z.to_nat (Z.of_nat (length pre) + j)) with (length pre + Z.to_nat j)%nat by lia.
rewrite skipn_app, skipn_all2 by lia. cbn [app].
now replace (length pre + Z.to_nat j - length pre)%nat with (Z.to_nat j) by lia.
Qed.

(** The round that reads the End of Track event. *)
Lemma trackEvent_eot pre s :
  cursor s = Z.of_nat (length pre) ->
  trackEvent (pre ++ EOT) 480 s
  = Ok (mkTrack (cursor s + 4) (usPerBeat s) (events s) (currentTimeTicks s + 0)
          (currentTimeMs s + inject_Z (0 * usPerBeat s) / inject_Z (480 * 1000)) 0xFF).
Proof.
intros Hcur. unfold trackEvent.
rewrite (readVarInt_pre pre EOT (cursor s) 0) by lia.
change (readVarInt EOT 0) with (@Ok (Z * Z) (0, 1)). cbn [obind].
rewrite (getUint8_pre pre EOT (cursor s + 1) 1) by lia.
change (getUint8 EOT 1) with (@Ok Z 0xFF). cbn [obind].
change (JS32.and 255 128 =? 0) with false. cbv iota.
change (JS32.sar 255 4) with 15. cbn [Z.eqb Pos.eqb].
rewrite (getUint8_pre pre EOT (cursor s + 1 + 1) 2) by lia.
change (getUint8 EOT 2) with (@Ok Z 0x2F). cbn [obind].
rewrite (readVarInt_pre pre EOT (cursor s + 1 + 1 + 1) 3) by lia.
change (readVarInt EOT 3) with (@Ok (Z * Z) (0, 1)). cbn [obind Z.eqb Pos.eqb].
do 2 f_equal. lia.
Qed.

Lemma trackLoop_done fuel view ppq endOfTrack s :
  endOfTrack <= cursor s -> trackLoop fuel view ppq endOfTrack s = Ok s.
Proof.
intros Hle. rewrite trackLoop_eq. destruct (Z.ltb_spec (cursor s) endOfTrack); [lia | reflexivity].
Qed.

Lemma ticks_to_ms d ms kl :
  ms == inject_Z kl * MS_PER_TICK ->
  ms + inject_Z (d * 500000) / inject_Z (480 * 1000) == inject_Z (kl + d) * MS_PER_TICK.
Proof.
intros Hms. rewrite Hms, MS_PER_TICK_val, inject_Z_plus, inject_Z_mult.
change (inject_Z 500000) with 500000%Q. change (inject_Z (480 * 1000)) with 480000%Q.
field.
Qed.

(** The track loop on the data of a list of events. *)
Lemma trackLoop_data l : forall pre s kl fuel,
  Forall exportable l ->
  StronglySorted (fun a b => time a <= time b)%Q l ->
  0 <= kl -> Forall (fun e => kl <= tickOf e) l ->
  cursor s = Z.of_nat (length pre) -> usPerBeat s = 500000 ->
  currentTimeMs s == inject_Z kl * MS_PER_TICK ->
  (length l < fuel)%nat ->
  exists s' new,
    trackLoop fuel (pre ++ trackData kl l ++ EOT) 480
      (Z.of_nat (length pre) + Z.of_nat (length (trackData kl l)) + 4) s = Ok s' /\
    events s' = events s ++ new /\
    Forall2 sameEvent new (map reimported l) /\
    usPerBeat s' = 500000 /\
    cursor s' = Z.of_nat (length pre) + Z.of_nat (length (trackData kl l)) + 4.
Proof.
induction l as [| e l IH]; intros pre s kl fuel Hall Hs Hkl Hge Hcur Hus Hms Hfuel;
  (destruct fuel as [| fuel]; [cbn [length] in Hfuel; lia |]).
- cbn [trackData app length map]. rewrite trackLoop_eq.
  destruct (Z.ltb_spec (cursor s) (Z.of_nat (length pre) + Z.of_nat 0 + 4)); [| lia].
  rewrite (trackEvent_eot pre s Hcur). cbn [obind].
  rewrite trackLoop_done by (cbn [cursor]; lia).
  eexists. exists []. split; [reflexivity |]. cbn [events usPerBeat cursor].
  rewrite app_nil_r. repeat split; [constructor | assumption | lia].
- inversion Hall as [| ? ? He Hall']; subst.
  inversion Hs as [| ? ? Hs' Hle]; subst.
  inversion Hge as [| ? ? Hke _]; subst.
  destruct He as (Hname & Hk & Hgrid & Hvel).
  cbn [trackData map]. rewrite <- !app_assoc.
  set (d := tickOf e - kl).
  set (endOfTrack := Z.of_nat (length pre) + _ + 4).
  rewrite trackLoop_eq.
  assert (Hend : endOfTrack
                 = Z.of_nat (length (pre ++ vlq_bytes d ++ msgOf e))
                   + Z.of_nat (length (trackData (tickOf e) l)) + 4).
  { subst endOfTrack. rewrite !length_app. cbn [length msgOf]. lia. }
  destruct (Z.ltb_spec (cursor s) endOfTrack);
    [| rewrite Hend, !length_app in *; cbn [length msgOf] in *; lia].
  rewrite (trackEvent_msg pre _ d e s) by (subst d; assumption || lia). cbn [obind].
  set (s1 := mkTrack _ _ _ _ _ _).
  destruct (IH (pre ++ vlq_bytes d ++ msgOf e) s1 (tickOf e) fuel)
    as (s' & new & Hloop & Hev & Hsame & Hus' & Hcur'); try assumption; try lia.
  + rewrite Forall_forall in Hle, Hall' |- *. intros x Hx.
    destruct (Hall' x Hx) as (_ & _ & Hgx & _).
    apply (tick_mono (time e) (time x)); auto.
  + subst s1. cbn [cursor]. rewrite Hcur, !length_app. cbn [length msgOf]. lia.
  + subst s1. cbn [currentTimeMs]. rewrite Hus.
    replace (tickOf e) with (kl + d) by (subst d; lia). now apply ticks_to_ms.
  + cbn [length] in Hfuel. lia.
  + rewrite <- !app_assoc in Hloop. rewrite Hend. 
    exists s', (mkEvent (currentTimeMs s + inject_Z (d * usPerBeat s) / inject_Z (480 * 1000))
                  (type e) (midiToNote (pitchOf e)) 0 salamander (Some (velocityByte e)) :: new).
    split; [exact Hloop |]. split.
    * rewrite Hev. subst s1. cbn [events]. now rewrite <- app_assoc.
    * split; [| split; assumption].
      constructor; [| exact Hsame].
      unfold sameEvent, reimported. cbn. repeat split.
      rewrite Hus, Hgrid.
      replace (tickOf e) with (kl + d) by (subst d; lia). now apply ticks_to_ms.
Qed.


Lemma map_mod_bytes l : Forall isByte l -> map (fun b => b mod 256) l = l.
Proof.
intros H. induction H as [| b l Hb _ IH]; cbn [map]; [reflexivity |].
rewrite IH. f_equal. apply Z.mod_small. exact Hb.
Qed.

Lemma vlq_bytes_range v : 0 <= v < 2 ^ 28 -> Forall isByte (vlq_bytes v).
Proof.
intros Hv. unfold vlq_bytes, isByte.
change (2 ^ 7) with 128. change (2 ^ 14) with 16384. change (2 ^ 21) with 2097152.
destruct (Z.ltb_spec v 128); [repeat constructor; lia |].
destruct (Z.ltb_spec v 16384); [repeat constructor; vlq_arith |].
destruct (Z.ltb_spec v 2097152); repeat constructor; vlq_arith.
Qed.

Lemma msgOf_range e : (type e = on -> 0 < velocityByte e < 256) -> Forall isByte (msgOf e).
Proof.
intros Hvel. pose proof (pitchOf_range e). unfold msgOf, isByte.
repeat constructor; try lia.
- unfold statusOf. destruct (type e); lia.
- unfold statusOf. destruct (type e); lia.
- unfold velocityByte in *. destruct (type e); [specialize (Hvel eq_refl) |]; lia.
- unfold velocityByte in *. destruct (type e); [specialize (Hvel eq_refl) |]; lia.
Qed.

Lemma trackData_range l : forall kl,
  Forall exportable l -> 0 <= kl -> Forall (fun e => kl <= tickOf e) l ->
  StronglySorted (fun a b => time a <= time b)%Q l ->
  Forall isByte (trackData kl l) /\
  (length (trackData kl l) <= 7 * length l)%nat.
Proof.
induction l as [| e l IH]; intros kl Hall Hkl Hge Hs; cbn [trackData length];
  [split; [constructor | lia] |].
inversion Hall as [| ? ? He Hall']; subst.
inversion Hs as [| ? ? Hs' Hle]; subst.
inversion Hge as [| ? ? Hke _]; subst.
destruct He as (Hname & Hk & Hgrid & Hvel).
destruct (IH (tickOf e)) as [Hb Hlen]; try assumption; try lia.
{ rewrite Forall_forall in Hle, Hall' |- *. intros x Hx.
  destruct (Hall' x Hx) as (_ & _ & Hgx & _).
  apply (tick_mono (time e) (time x)); auto. }
split.
- apply Forall_app. split; [apply vlq_bytes_range; lia |].
  apply Forall_app. split; [now apply msgOf_range | exact Hb].
- rewrite !length_app. pose proof (vlq_bytes_length (tickOf e - kl)).
  cbn [msgOf length]. lia.
Qed.

Lemma trackHeader_bytes len :
  0 <= len < 2 ^ 31 ->
  trackHeader len
  = [0x4D; 0x54; 0x72; 0x6B;
     (len / 2 ^ 24) mod 256; (len / 2 ^ 16) mod 256; (len / 2 ^ 8) mod 256; len mod 256].
Proof.
intros Hlen. unfold trackHeader.
rewrite !sar_small by lia.
assert (Hq : forall k, 0 <= k -> 0 <= len / 2 ^ k < 2 ^ 31).
{ intros k Hk. pose proof (Z.pow_pos_nonneg 2 k ltac:(lia) Hk).
  split; [apply Z.div_pos; lia | apply Z.div_lt_upper_bound; nia]. }
rewrite (and_0xFF (len / 2 ^ 24)), (and_0xFF (len / 2 ^ 16)), (and_0xFF (len / 2 ^ 8)),
  (and_0xFF len) by (try apply Hq; lia).
reflexivity.
Qed.

Lemma js_sort_insert_length {A} cmp (x : A) l :
  length (js_sort_insert cmp x l) = S (length l).
Proof.
induction l as [| y l IH]; cbn [js_sort_insert length]; [reflexivity |].
destruct (Qlt_bool (cmp y x) 0); cbn [length]; [now rewrite IH | reflexivity].
Qed.

Lemma js_sort_length {A} cmp (l : list A) : length (js_sort cmp l) = length l.
Proof.
unfold js_sort. induction l as [| x l IH]; cbn [fold_right length]; [reflexivity |].
now rewrite js_sort_insert_length, IH.
Qed.

(** A file of one track at 480 pulses per quarter note: the header and the
    chunk header are read and the track loop is entered at byte 22. *)
Lemma parse_single_track b0 b1 b2 b3 body fuel :
  parseMidiFile_fuel fuel (header480 ++ [0x4D; 0x54; 0x72; 0x6B; b0; b1; b2; b3] ++ body)
  = let view := header480 ++ [0x4D; 0x54; 0x72; 0x6B; b0; b1; b2; b3] ++ body in
    let* s := trackLoop fuel view 480 (22 + (((b0 * 256 + b1) * 256 + b2) * 256 + b3))
                (mkTrack 22 500000 [] 0 0%Q 0) in
    Ok (js_sort byTime (events s)).
Proof.
cbv zeta. unfold parseMidiFile_fuel, header480. cbn [app].
set (view := 77 :: _).
change (getUint8 view 0) with (@Ok Z 77). change (getUint8 view 1) with (@Ok Z 84).
change (getUint8 view 2) with (@Ok Z 104). change (getUint8 view 3) with (@Ok Z 100).
cbn [obind].
change (negb (bool_decide ([77; 84; 104; 100] = MThd))) with false. cbv iota.
change (getUint16 view 8) with (@Ok Z 0).
change (getUint16 view (8 + 2)) with (@Ok Z 1).
change (getUint16 view (8 + 2 + 2)) with (@Ok Z 480). cbn [obind].
change (JS32.and 480 32768 =? 0) with true. cbv iota.
change (Z.to_nat 1) with 1%nat. cbn [tracksLoop].
change (getUint8 view (8 + 2 + 2 + 2)) with (@Ok Z 77).
change (getUint8 view (8 + 2 + 2 + 2 + 1)) with (@Ok Z 84).
change (getUint8 view (8 + 2 + 2 + 2 + 2)) with (@Ok Z 114).
change (getUint8 view (8 + 2 + 2 + 2 + 3)) with (@Ok Z 107).
cbn [obind].
change (getUint32 view (8 + 2 + 2 + 2 + 4))
  with (@Ok Z (((b0 * 256 + b1) * 256 + b2) * 256 + b3)).
cbn [obind].
change (8 + 2 + 2 + 2 + 4 + 4) with 22.
destruct (trackLoop fuel view 480 _ _) as [s | e |]; reflexivity.
Qed.

Lemma sorted_transfer (l1 l2 : list AppEvent) :
  Forall2 sameEvent l1 l2 ->
  StronglySorted (fun a b => time a <= time b)%Q l2 ->
  StronglySorted (fun a b => time a <= time b)%Q l1.
Proof.
intros H. induction H as [| a b l1 l2 Hab Hrest IH]; intros Hs; [constructor |].
inversion Hs as [| ? ? Hs' Hle]; subst.
constructor; [now apply IH |].
destruct Hab as (Ht & _).
clear IH Hs Hs'. induction Hrest as [| a' b' l1 l2 Hab' _ IH]; [constructor |].
inversion Hle as [| ? ? Hb' Hle']; subst.
constructor; [| now apply IH].
destruct Hab' as (Ht' & _). rewrite Ht, Ht'. exact Hb'.
Qed.

Lemma reimported_sorted l :
  StronglySorted (fun a b => time a <= time b)%Q l ->
  StronglySorted (fun a b => time a <= time b)%Q (map reimported l).
Proof.
intros Hs. induction Hs as [| x l Hs IH Hx]; cbn [map]; constructor; [exact IH |].
rewrite Forall_map. exact Hx.
Qed.

End RoundTrip.

Lemma trackData_long l : forall kl, (length l <= length (trackData kl l))%nat.
Proof.
induction l as [| e l IH]; intros kl; cbn [trackData length]; [lia |].
rewrite !length_app. cbn [msgOf length]. specialize (IH (tickOf e)). lia.
Qed.

Lemma be32 len :
  0 <= len < 2 ^ 32 ->
  (((len / 2 ^ 24) mod 256 * 256 + (len / 2 ^ 16) mod 256) * 256
   + (len / 2 ^ 8) mod 256) * 256 + len mod 256 = len.
Proof.
intros Hlen.
change (2 ^ 24) with 16777216. change (2 ^ 16) with 65536. change (2 ^ 8) with 256.
Z.div_mod_to_equations. lia.
Qed.

(** X12.  A recording of fewer than 2^24 events, each with a name of
    [NOTE_TO_MIDI], a time that is a whole number of ticks between 0 and 2^28
    and, for an On, a velocity byte between 1 and 255, is exported by the
    hand-rolled [generateMidiFile] to a file that the hand-rolled
    [parseMidiFile] reads back as the same events in order of time: same times
    and types, the name of the clamped pitch with the transpose folded in,
    transpose 0, the instrument [salamander], and the velocity byte that was
    written (0 for an Off, 80 for an On without one). *)
Theorem export_import_roundtrip (evts : list AppEvent) :
  Forall exportable evts -> Z.of_nat (length evts) < 2 ^ 24 ->
  exists bytes evs,
    MidiBinary.generateMidiFile evts = Ok bytes /\
    MidiBinary.parseMidiFile bytes = Ok evs /\
    Forall2 sameEvent evs (map reimported (js_sort byTime evts)).
Proof.
intros Hall Hlen.
set (l := js_sort byTime evts).
assert (Hl : Forall exportable l) by now apply js_sort_Forall.
assert (Hs : StronglySorted (fun a b => time a <= time b)%Q l) by apply js_sort_byTime_sorted.
assert (Hge : Forall (fun e => 0 <= tickOf e) l).
{ eapply Forall_impl; [| exact Hl]. intros e (_ & Hk & _). lia. }
assert (Hll : length l = length evts) by apply js_sort_length.
destruct (trackData_range l 0 Hl ltac:(lia) Hge Hs) as [Hbytes Hsize].
set (data := trackData 0 l) in *.
set (len := Z.of_nat (length (data ++ EOT))).
assert (Hlenr : 0 <= len < 2 ^ 31).
{ subst len. rewrite length_app. cbn [length EOT]. lia. }
(* the export *)
assert (Hgen : MidiBinary.generateMidiFile evts
               = Ok (header480 ++
                     [0x4D; 0x54; 0x72; 0x6B; (len / 2 ^ 24) mod 256; (len / 2 ^ 16) mod 256;
                      (len / 2 ^ 8) mod 256; len mod 256] ++ data ++ EOT)).
{ unfold MidiBinary.generateMidiFile, MidiBinary.trackBytesOf. fold l.
  destruct (encodeEvents_exportable l [] 0%Q 0 Hl Hs) as [lastTime' Henc];
    [reflexivity | lia | exact Hge |].
  rewrite Henc. cbn [obind app]. fold data. fold EOT. fold len.
  rewrite trackHeader_bytes by exact Hlenr.
  change MidiBinary.header with header480.
  rewrite map_mod_bytes; [reflexivity |].
  apply Forall_app. split; [repeat constructor; unfold isByte; lia |].
  apply Forall_app. split.
  - repeat constructor; unfold isByte; try lia; apply Z.mod_pos_bound; lia.
  - apply Forall_app. split; [exact Hbytes | repeat constructor; unfold isByte; lia]. }
rewrite Hgen.
set (view := header480 ++ _).
(* the import *)
set (pre := header480 ++
            [0x4D; 0x54; 0x72; 0x6B; (len / 2 ^ 24) mod 256; (len / 2 ^ 16) mod 256;
             (len / 2 ^ 8) mod 256; len mod 256]).
assert (Hview : view = pre ++ data ++ EOT).
{ subst view pre. now rewrite <- app_assoc. }
assert (Hpre : Z.of_nat (length pre) = 22) by reflexivity.
assert (Hend : 22 + ((((len / 2 ^ 24) mod 256 * 256 + (len / 2 ^ 16) mod 256) * 256
                      + (len / 2 ^ 8) mod 256) * 256 + len mod 256)
               = Z.of_nat (length pre) + Z.of_nat (length data) + 4).
{ rewrite Hpre, (be32 len) by lia.
  subst len. rewrite length_app. cbn [length EOT]. lia. }
destruct (trackLoop_data l pre (MidiBinary.mkTrack 22 500000 [] 0 0%Q 0) 0 (S (length view)))
  as (s' & new & Hloop & Hev & Hsame & _ & _);
  try assumption; try lia; try reflexivity.
{ rewrite Hview, !length_app. pose proof (trackData_long l 0). fold data in H. lia. }
fold data in Hloop. rewrite <- Hview, <- Hend in Hloop.
exists view, new. split; [reflexivity |]. split; [| exact Hsame].
unfold MidiBinary.parseMidiFile. subst view.
rewrite parse_single_track. cbv zeta.
rewrite Hloop. cbn [obind]. rewrite Hev. cbn [app].
f_equal. apply js_sort_sorted.
apply (sorted_transfer new (map reimported l) Hsame).
now apply reimported_sorted.
Qed.

Lemma export_import_roundtrip_witness :
  Forall exportable tuneShort /\ Z.of_nat (length tuneShort) < 2 ^ 24 /\
  exists bytes evs,
    MidiBinary.generateMidiFile tuneShort = Ok bytes /\
    MidiBinary.parseMidiFile bytes = Ok evs /\
    Forall2 sameEvent evs (map reimported (js_sort byTime tuneShort)).
Proof.
assert (H1 : Forall exportable tuneShort).
{ repeat constructor; try (eexists; vm_compute; reflexivity); try (vm_compute; reflexivity);
    try (vm_compute; discriminate); intros _; vm_compute; split; reflexivity. }
assert (H2 : Z.of_nat (length tuneShort) < 2 ^ 24) by (cbn; lia).
split; [exact H1 |]. split; [exact H2 |].
exact (export_import_roundtrip tuneShort H1 H2).
Defined.

(** ** The writer outside of its range *)

Section WriterRange.

(** Bit 7 alone, whatever the sign. *)
Lemma land_128_any a : Z.land a 128 = if a mod 256 <? 128 then 0 else 128.
Proof.
apply Z.bits_inj'. intros n Hn.
rewrite Z.land_spec.
change 128 with (2 ^ 7) at 1. rewrite Z.pow2_bits_eqb by lia.
destruct (Z.eqb_spec 7 n) as [<- | Hne].
- rewrite andb_true_r.
  rewrite <- (Z.mod_pow2_bits_low a 8 7) by lia. change (2 ^ 8) with 256.
  rewrite Z.testbit_eqb by lia. change (2 ^ 7) with 128.
  destruct (Z.ltb_spec (a mod 256) 128).
  + rewrite Z.div_small by (pose proof (Z.mod_pos_bound a 256); lia). reflexivity.
  + replace (a mod 256 / 128) with 1
      by (pose proof (Z.mod_pos_bound a 256); Z.div_mod_to_equations; lia).
    reflexivity.
- rewrite andb_false_r.
  destruct (a mod 256 <? 128).
  + now rewrite Z.bits_0.
  + change 128 with (2 ^ 7). rewrite Z.pow2_bits_eqb by lia.
    symmetry. now apply Z.eqb_neq.
Qed.

Lemma and_0x80_any a :
  - 2 ^ 31 <= a < 2 ^ 31 -> (JS32.and a 0x80 =? 0) = (a mod 256 <? 128).
Proof.
intros Ha. unfold JS32.and.
rewrite (toInt32_id a), (toInt32_id 128) by lia.
rewrite land_128_any.
destruct (a mod 256 <? 128); reflexivity.
Qed.

(** A round of the second loop on a buffer whose low byte has its top bit
    set: if what follows never ends, neither does this. *)
Lemma emit_continues fuel buffer bytes :
  - 2 ^ 31 <= buffer < 2 ^ 31 -> 128 <= buffer mod 256 ->
  (forall fuel' bytes', writeVarInt_emit fuel' (buffer / 256) bytes' = Diverges) ->
  writeVarInt_emit fuel buffer bytes = Diverges.
Proof.
intros Hb Hhigh Hrest. destruct fuel as [| fuel]; [reflexivity |].
rewrite emit_eq, and_0x80_any by exact Hb.
destruct (Z.ltb_spec (buffer mod 256) 128); [lia |].
rewrite sar_div by lia. rewrite toInt32_id by exact Hb. apply Hrest.
Qed.

Lemma emit_more_fuel fuel : forall buffer bytes r,
  writeVarInt_emit fuel buffer bytes = Ok r ->
  writeVarInt_emit (S fuel) buffer bytes = Ok r.
Proof.
induction fuel as [| fuel IH]; intros buffer bytes r; [discriminate |].
rewrite (emit_eq (S fuel)), emit_eq.
destruct (JS32.and buffer 128 =? 0); [trivial | apply IH].
Qed.

Lemma writeVarInt_fuel_mono fuel fuel' value r :
  (fuel <= fuel')%nat ->
  writeVarInt_fuel fuel value = Ok r -> writeVarInt_fuel fuel' value = Ok r.
Proof.
intros Hle. induction Hle as [| fuel' Hle IH]; [trivial |].
intros H. specialize (IH H). unfold writeVarInt_fuel in *.
destruct (writeVarInt_pack fuel' value (JS32.and value 127)) as [b | |] eqn:Hp;
  cbn [obind] in IH; try discriminate.
rewrite (pack_more_fuel _ _ _ _ Hp). cbn [obind]. now apply emit_more_fuel.
Qed.

Lemma pack_not_throws fuel : forall value buffer e,
  writeVarInt_pack fuel value buffer <> Throws e.
Proof.
induction fuel as [| fuel IH]; intros value buffer e; [discriminate |].
rewrite pack_eq. destruct (JS32.sar value 7 =? 0); [discriminate | apply IH].
Qed.

Lemma emit_not_throws fuel : forall buffer bytes e,
  writeVarInt_emit fuel buffer bytes <> Throws e.
Proof.
induction fuel as [| fuel IH]; intros buffer bytes e; [discriminate |].
rewrite emit_eq. destruct (JS32.and buffer 128 =? 0); [discriminate | apply IH].
Qed.

(** Five groups of seven bits do not fit the 32-bit buffer: the first group
    is shifted out and the buffer comes out negative. *)
Lemma pack_five_groups v :
  2 ^ 28 <= v < 2 ^ 31 ->
  exists b, writeVarInt_pack 8 v (JS32.and v 0x7F) = Ok b /\
            - 2 ^ 31 <= b < 0 /\ 128 <= b mod 256 /\ 128 <= (b / 256) mod 256 /\
            128 <= (b / 256 / 256) mod 256 /\ - 128 <= b / 256 / 256 / 256 < 0.
Proof.
intros Hv. rewrite and_0x7F by lia.
rewrite pack_go by vlq_arith.
rewrite pack_go by vlq_arith.
rewrite pack_go by vlq_arith.
set (b3 := ((v mod 128 * 256 + (v / 128 mod 128 + 128)) * 256
            + (v / 128 / 128 mod 128 + 128)) * 256 + (v / 128 / 128 / 128 mod 128 + 128)).
set (v3 := v / 128 / 128 / 128).
assert (Hv3 : 128 <= v3 < 1024) by (subst v3; vlq_arith).
rewrite pack_eq. rewrite (sar_small v3) by lia. change (2 ^ 7) with 128.
destruct (Z.eqb_spec (v3 / 128) 0) as [E | _]; [vlq_arith |].
rewrite pack_stop by vlq_arith.
eexists. split; [reflexivity |].
rewrite and_0x7F by vlq_arith.
rewrite or_0x80 by (apply Z.mod_pos_bound; lia).
set (g := v3 / 128 mod 128 + 128).
assert (Hg : 128 <= g < 256) by (subst g; vlq_arith).
assert (Hb3 : 0 <= b3 < 2 ^ 32) by (subst b3; vlq_arith).
assert (Hhi : 2 ^ 23 <= b3 mod 2 ^ 24) by (subst b3; vlq_arith).
unfold JS32.shl. rewrite (toInt32_id b3) by (subst b3; vlq_arith).
change (8 mod 32) with 8. rewrite Z.shiftl_mul_pow2 by lia.
set (X := JS32.toInt32 (b3 * 2 ^ 8)).
assert (HX : X = (b3 mod 2 ^ 24) * 256 - 2 ^ 32).
{ subst X. unfold JS32.toInt32.
  assert (Hm : (b3 * 2 ^ 8) mod 2 ^ 32 = (b3 mod 2 ^ 24) * 256) by vlq_arith.
  rewrite Hm. destruct (Z.ltb_spec (b3 mod 2 ^ 24 * 256) (2 ^ 31)); lia. }
unfold JS32.or. rewrite (toInt32_id X), (toInt32_id g) by (rewrite ?HX; vlq_arith).
replace X with ((b3 mod 2 ^ 24 - 2 ^ 24) * 2 ^ 8) by (rewrite HX; lia).
rewrite lor_shifted by lia.
rewrite toInt32_id by vlq_arith.
subst b3 g v3. repeat split; vlq_arith.
Qed.

End WriterRange.

Section WriterOutside.

Lemma writeVarInt_outside v :
  - 2 ^ 31 <= v < 2 ^ 31 -> ~ 0 <= v < 2 ^ 28 -> writeVarInt v = Diverges.
Proof.
intros Hr Hout. unfold writeVarInt, writeVarInt_fuel.
destruct (Z.lt_ge_cases v 0) as [Hneg | Hpos].
- rewrite pack_negative; [reflexivity |].
  rewrite sar_div by lia. rewrite toInt32_id by lia. vlq_arith.
- destruct (pack_five_groups v ltac:(lia)) as (b & Hb & Hrange & H0 & H1 & H2 & H3).
  rewrite Hb. cbn [obind].
  apply emit_continues; [lia | exact H0 |]. intros f1 bs1.
  apply emit_continues; [vlq_arith | exact H1 |]. intros f2 bs2.
  apply emit_continues; [vlq_arith | exact H2 |]. intros f3 bs3.
  apply emit_negative. rewrite toInt32_id by vlq_arith. exact H3.
Qed.

Lemma writeVarInt_fuel_not_throws fuel value e : writeVarInt_fuel fuel value <> Throws e.
Proof.
unfold writeVarInt_fuel.
destruct (writeVarInt_pack fuel value (JS32.and value 127)) as [b | e' |] eqn:Hp; cbn [obind].
- apply emit_not_throws.
- now apply pack_not_throws in Hp.
- discriminate.
Qed.

End WriterOutside.

(** X13.  On a 32-bit integer below 0 or above 2^28 - 1, [writeVarInt] never
    returns, whatever the number of rounds it is given: one of its two loops
    does not reach its exit. *)
Theorem writeVarInt_hangs_outside_range (v : Z) (fuel : nat) :
  - 2 ^ 31 <= v < 2 ^ 31 -> ~ 0 <= v < 2 ^ 28 -> writeVarInt_fuel fuel v = Diverges.
Proof.
intros Hr Hout. pose proof (writeVarInt_outside v Hr Hout) as H8.
destruct (Nat.le_gt_cases 8 fuel) as [Hbig | Hsmall].
- now rewrite writeVarInt_fuel_enough.
- destruct (writeVarInt_fuel fuel v) as [r | e |] eqn:E; [| | reflexivity].
  + apply (writeVarInt_fuel_mono fuel 8) in E; [| lia].
    unfold writeVarInt in H8. congruence.
  + now apply writeVarInt_fuel_not_throws in E.
Qed.

Lemma writeVarInt_hangs_outside_range_witness :
  - 2 ^ 31 <= -1 < 2 ^ 31 /\ ~ 0 <= -1 < 2 ^ 28 /\ writeVarInt_fuel 100 (-1) = Diverges.
Proof.
split; [lia |]. split; [lia |].
apply (writeVarInt_hangs_outside_range (-1) 100); lia.
Defined.


Section ExportHangs.

Import MidiBinary.

Lemma lastEventOf_cons x y (l : list AppEvent) :
  lastEventOf (x :: y :: l) = lastEventOf (y :: l).
Proof.
unfold lastEventOf. cbn [length].
replace (S (S (length l)) - 1)%nat with (S (length l)) by lia.
replace (S (length l) - 1)%nat with (length l) by lia. reflexivity.
Qed.

Lemma encodeEvent_lastTime st evt st' :
  encodeEvent st evt = Ok st' -> snd st' = time evt.
Proof.
destruct st as [tb lastTime]. unfold encodeEvent.
destruct (writeVarInt _); cbn [obind]; try discriminate.
destruct (NOTE_TO_MIDI !! note evt); [| destruct (inherited (note evt))];
  try destruct (type evt); intros [= <-]; reflexivity.
Qed.

Lemma encodeEvents_lastTime l : forall st st',
  encodeEvents st l = Ok st' ->
  snd st' = match lastEventOf l with Some x => time x | None => snd st end.
Proof.
induction l as [| e l IH]; intros st st'; cbn [encodeEvents].
- now intros [= <-].
- destruct (encodeEvent st e) as [st1 | |] eqn:E; cbn [obind]; try discriminate.
  intros Hrest. rewrite (IH _ _ Hrest).
  destruct l as [| y l]; [unfold lastEventOf; cbn; now apply encodeEvent_lastTime in E |].
  rewrite lastEventOf_cons.
  destruct (lastEventOf (y :: l)) eqn:Hl; [reflexivity |].
  unfold lastEventOf in Hl. apply nth_error_None in Hl. cbn [length] in Hl. lia.
Qed.

Lemma encodeEvents_app l1 l2 : forall st,
  encodeEvents st (l1 ++ l2) = (let* st1 := encodeEvents st l1 in encodeEvents st1 l2).
Proof.
induction l1 as [| e l1 IH]; intros st; cbn [app encodeEvents obind]; [reflexivity |].
destruct (encodeEvent st e) as [st1 | |]; cbn [obind]; [apply IH | reflexivity | reflexivity].
Qed.

Lemma sorted_prefix (l1 l2 : list AppEvent) :
  StronglySorted (fun a b => time a <= time b)%Q (l1 ++ l2) ->
  StronglySorted (fun a b => time a <= time b)%Q l1.
Proof.
induction l1 as [| x l1 IH]; cbn [app]; intros H; [constructor |].
inversion H as [| ? ? Hs Hle]; subst. constructor; [now apply IH |].
apply Forall_app in Hle. tauto.
Qed.

End ExportHangs.

(** X14.  The hand-rolled [generateMidiFile] never returns when, in order of
    time, some event follows events that are all written as messages (a name
    of [NOTE_TO_MIDI], a time that is a whole number of ticks between 0 and
    2^28, for an On a velocity byte between 1 and 255) and its delta time, in
    ticks, is a 32-bit integer below 0 or above 2^28 - 1: a recording whose
    first event lies before time zero, or a silence of more than about 77
    hours. *)
Theorem export_hangs_on_delta_outside_range (evts before rest : list AppEvent)
    (e : AppEvent) :
  js_sort byTime evts = before ++ e :: rest ->
  Forall exportable before ->
  let deltaTicks := Math_round ((time e - lastTimeOf before) / MidiBinary.MS_PER_TICK) in
  - 2 ^ 31 <= deltaTicks < 2 ^ 31 ->
  ~ 0 <= deltaTicks < 2 ^ 28 ->
  MidiBinary.generateMidiFile evts = Diverges.
Proof.
intros Hsort Hbefore d Hr Hout.
unfold MidiBinary.generateMidiFile, MidiBinary.trackBytesOf.
pose proof (js_sort_byTime_sorted evts) as Hs. rewrite Hsort in Hs |- *.
apply sorted_prefix in Hs.
rewrite encodeEvents_app.
destruct (encodeEvents_exportable before [] 0%Q 0 Hbefore Hs) as [lastTime' Henc];
  [reflexivity | lia | |].
{ eapply Forall_impl; [| exact Hbefore]. intros x (_ & Hk & _). lia. }
rewrite Henc. cbn [obind].
apply encodeEvents_lastTime in Henc as Hlast. cbn [snd] in Hlast.
assert (Hlt : lastTime' = lastTimeOf before).
{ rewrite Hlast. unfold lastTimeOf. destruct (lastEventOf before); reflexivity. }
rewrite Hlt.
cbn [MidiBinary.encodeEvents]. unfold MidiBinary.encodeEvent at 1.
fold d. rewrite (writeVarInt_outside d Hr Hout). reflexivity.
Qed.

Lemma export_hangs_on_delta_outside_range_witness :
  js_sort byTime tuneEarly = [] ++ mkEvent (-5) on "C4" 0 salamander (Some 100) :: [] /\
  Forall exportable [] /\
  - 2 ^ 31 <= -5 < 2 ^ 31 /\ ~ 0 <= -5 < 2 ^ 28 /\
  MidiBinary.generateMidiFile tuneEarly = Diverges.
Proof.
assert (H1 : js_sort byTime tuneEarly
             = [] ++ mkEvent (-5) on "C4" 0 salamander (Some 100) :: []) by reflexivity.
assert (H2 : Forall exportable []) by constructor.
split; [exact H1 |]. split; [exact H2 |]. split; [lia |]. split; [lia |].
apply (export_hangs_on_delta_outside_range tuneEarly [] []
         (mkEvent (-5) on "C4" 0 salamander (Some 100)) H1 H2);
  change (Math_round ((time (mkEvent (-5) on "C4" 0 salamander (Some 100)) - lastTimeOf [])
                      / MidiBinary.MS_PER_TICK)) with (-5); lia.
Defined.

(** ** The notes of the library-based export *)

Section Pairing.

Import MidiTone.

Lemma pairEvent_noteOk st evt :
  Forall noteOk (snd st) -> Forall noteOk (snd (pairEvent st evt)).
Proof.
destruct st as [pending notes]. unfold pairEvent. cbn [snd]. intros Hall.
destruct (type evt); [exact Hall |].
destruct (pending !! _) as [p |]; [| exact Hall]. cbn [snd].
apply Forall_app. split; [exact Hall |]. constructor; [| constructor].
split; cbn [midi duration].
- unfold clamp127. lia.
- destruct (Qle_bool (time evt / 1000 - startTime p) 0) eqn:E; [reflexivity |].
  apply Qnot_le_lt. intros H. apply Qle_bool_iff in H. congruence.
Qed.

Lemma fold_pairEvent_noteOk evts : forall st,
  Forall noteOk (snd st) -> Forall noteOk (snd (fold_left pairEvent evts st)).
Proof.
induction evts as [| e evts IH]; intros st Hst; cbn [fold_left]; [exact Hst |].
apply IH. now apply pairEvent_noteOk.
Qed.

(** Notes offered and notes pending, against the events met. *)
Lemma pairEvent_count st evt ons offs :
  (length (snd st) + size (fst st) <= ons)%nat -> (length (snd st) <= offs)%nat ->
  let st' := pairEvent st evt in
  (length (snd st') + size (fst st')
   <= ons + match type evt with on => 1 | off => 0 end)%nat /\
  (length (snd st') <= offs + match type evt with on => 0 | off => 1 end)%nat.
Proof.
destruct st as [pending notes]. unfold pairEvent. cbn [fst snd]. intros Hon Hoff.
destruct (type evt); cbn [fst snd].
- split; [| lia].
  set (key := noteToMidi (note evt) + transpose evt).
  destruct (pending !! key) as [p |] eqn:E.
  + rewrite map_size_insert_Some by (rewrite E; eauto). lia.
  + rewrite map_size_insert_None by exact E. lia.
- set (key := noteToMidi (note evt) + transpose evt).
  destruct (pending !! key) as [p |] eqn:E; cbn [fst snd].
  + rewrite length_app. cbn [length].
    rewrite map_size_delete_Some by (rewrite E; eauto).
    assert (Hpos : size pending <> 0%nat).
    { intros Hz. apply map_size_empty_iff in Hz. subst pending.
      now rewrite lookup_empty in E. }
    split; lia.
  + lia.
Qed.

Lemma fold_pairEvent_count evts : forall st ons offs,
  (length (snd st) + size (fst st) <= ons)%nat -> (length (snd st) <= offs)%nat ->
  (length (snd (fold_left pairEvent evts st)) <= ons + countType on evts)%nat /\
  (length (snd (fold_left pairEvent evts st)) <= offs + countType off evts)%nat.
Proof.
induction evts as [| e evts IH]; intros st ons offs Hon Hoff; cbn [fold_left].
- unfold countType. cbn. lia.
- destruct (pairEvent_count st e ons offs Hon Hoff) as [H1 H2]. cbv zeta in H1, H2.
  destruct (IH _ _ _ H1 H2) as [I1 I2].
  unfold countType in *. cbn [List.filter]. destruct (type e); cbn [length]; lia.
Qed.

Lemma js_sort_insert_count (P : AppEvent -> bool) x l :
  length (List.filter P (js_sort_insert byTime x l)) = length (List.filter P (x :: l)).
Proof.
induction l as [| y l IH]; cbn [js_sort_insert]; [reflexivity |].
destruct (Qlt_bool (byTime y x) 0); [| reflexivity].
cbn [List.filter] in *. destruct (P y), (P x); cbn [length] in *; lia.
Qed.

Lemma js_sort_count (P : AppEvent -> bool) l :
  length (List.filter P (js_sort byTime l)) = length (List.filter P l).
Proof.
unfold js_sort. induction l as [| x l IH]; cbn [fold_right]; [reflexivity |].
rewrite js_sort_insert_count. cbn [List.filter]. destruct (P x); cbn [length]; lia.
Qed.

End Pairing.

(** X15.  Every note that the library-based [generateMidiFile] offers to
    [track.addNote] has a pitch between 0 and 127 and a duration above zero,
    and there are at most as many notes as On events and at most as many as
    Off events in the recording. *)
Theorem notesOf_wellformed (evts : list AppEvent) :
  Forall noteOk (MidiTone.notesOf evts) /\
  (length (MidiTone.notesOf evts) <= countType on evts)%nat /\
  (length (MidiTone.notesOf evts) <= countType off evts)%nat.
Proof.
unfold MidiTone.notesOf. split.
- apply fold_pairEvent_noteOk. constructor.
- destruct (fold_pairEvent_count (js_sort byTime evts) (∅, []) 0 0) as [H1 H2].
  + cbn [fst snd length]. rewrite map_size_empty. lia.
  + cbn. lia.
  + unfold countType in *. rewrite !js_sort_count in *. lia.
Qed.

(** ** Samples, gains and the start of the metronome *)

Section Samples.

(** One round of the search keeps the nearest note seen so far. *)
Lemma closer_step midi (o : option Z) (b x : string) :
  (forall d, o = Some d -> d = midi - getNoteNumber b) ->
  exists d b',
    closer midi (o, b) x = (Some d, b') /\ d = midi - getNoteNumber b' /\
    Z.abs d <= Z.abs (midi - getNoteNumber x) /\
    (b' = x \/ o = Some d /\ b' = b) /\
    (forall d0, o = Some d0 -> Z.abs d <= Z.abs d0).
Proof.
intros Hacc. unfold closer. cbn [fst].
destruct o as [minDist |].
- specialize (Hacc minDist eq_refl).
  destruct (Z.ltb_spec (Z.abs (midi - getNoteNumber x)) (Z.abs minDist)).
  + do 2 eexists. split; [reflexivity |]. repeat split; auto; try lia.
    intros d0 [= <-]. lia.
  + exists minDist, b. split; [reflexivity |]. repeat split; auto; try lia.
    intros d0 [= <-]. lia.
- do 2 eexists. split; [reflexivity |]. repeat split; auto; try lia. intros d0 [=].
Qed.

(** The state of the search after the notes of [l]. *)
Lemma closer_fold midi l : forall (o : option Z) (b : string),
  (forall d, o = Some d -> d = midi - getNoteNumber b) ->
  match fold_left (closer midi) l (o, b) with
  | (None, _) => l = [] /\ o = None
  | (Some d, b') =>
      d = midi - getNoteNumber b' /\
      (In b' l \/ o = Some d /\ b' = b) /\
      (forall x, In x l -> Z.abs d <= Z.abs (midi - getNoteNumber x)) /\
      (forall d0, o = Some d0 -> Z.abs d <= Z.abs d0)
  end.
Proof.
induction l as [| x l IH]; intros o b Hacc; cbn [fold_left].
- destruct o as [d |]; [| now split].
  repeat split; auto. + intros x []. + intros d0 [= <-]. lia.
- destruct (closer_step midi o b x Hacc) as (d1 & b1 & Hc & Hnum & Hle & Hwho & Hold).
  rewrite Hc. specialize (IH (Some d1) b1).
  destruct (fold_left (closer midi) l (Some d1, b1)) as [[d |] b'].
  + destruct IH as (Hd & Hin & Hmin & Hprev); [intros d0 [= <-]; exact Hnum |].
    specialize (Hprev d1 eq_refl).
    repeat split; auto.
    * destruct Hin as [Hin | [[= <-] ->]]; [left; now right |].
      destruct Hwho as [-> | [-> ->]]; [left; now left | now right].
    * intros y [<- | Hy]; [lia | now apply Hmin].
    * intros d0 Hd0. specialize (Hold d0 Hd0). lia.
  + destruct IH as [_ Hnone]; [intros d0 [= <-]; exact Hnum | discriminate].
Qed.

End Samples.

(** X16.  With at least one sample loaded, and none under the empty name,
    [getClosestBuffer] returns a loaded sample together with its distance to
    the pitch asked for, and no loaded sample is nearer to that pitch. *)
Theorem getClosestBuffer_nearest (e : AudioEngine) (midi : Z) :
  buffers e <> [] -> ~ In EmptyString (buffers e) ->
  exists b d,
    getClosestBuffer e midi = Some (b, d) /\
    In b (buffers e) /\ d = midi - getNoteNumber b /\
    forall b', In b' (buffers e) -> Z.abs d <= Z.abs (midi - getNoteNumber b').
Proof.
intros Hne Hnoempty. unfold getClosestBuffer.
destruct (buffers e) as [| b0 bs] eqn:Hb; [contradiction |]. rewrite <- Hb in *.
pose proof (closer_fold midi (buffers e) None EmptyString) as Hfold.
destruct (fold_left (closer midi) (buffers e) (None, EmptyString)) as [[d |] b].
- destruct Hfold as (Hd & Hin & Hmin & _); [intros d0 [=] |].
  destruct Hin as [Hin | [[=] _]].
  destruct b as [| c s]; [contradiction |].
  exists (String c s), d. repeat split; auto.
- destruct Hfold as [Hnil _]; [intros d0 [=] |]. rewrite Hb in Hnil. discriminate.
Qed.

Lemma getClosestBuffer_nearest_witness :
  buffers loadedEngine <> [] /\ ~ In EmptyString (buffers loadedEngine) /\
  exists b d,
    getClosestBuffer loadedEngine 62 = Some (b, d) /\
    In b (buffers loadedEngine) /\ d = 62 - getNoteNumber b /\
    forall b', In b' (buffers loadedEngine) -> Z.abs d <= Z.abs (62 - getNoteNumber b').
Proof.
assert (H1 : buffers loadedEngine <> []) by (vm_compute; discriminate).
assert (H2 : ~ In EmptyString (buffers loadedEngine)).
{ vm_compute. intros H. repeat (destruct H as [H | H]; [discriminate H |]). exact H. }
split; [exact H1 |]. split; [exact H2 |].
exact (getClosestBuffer_nearest loadedEngine 62 H1 H2).
Defined.


Section SampleMaps.

Lemma instrumentMap_covers id :
  coversThirds (map fst (instrumentMap id)) = true /\
  noEmptyKey (map fst (instrumentMap id)) = true.
Proof. destruct id; split; vm_compute; reflexivity. Qed.

Lemma coversThirds_spec keys midi :
  coversThirds keys = true -> 21 <= midi <= 108 ->
  exists k, In k keys /\ -1 <= midi - getNoteNumber k <= 1.
Proof.
unfold coversThirds. rewrite forallb_forall. intros Hcov Hm.
specialize (Hcov (Z.to_nat ((midi - 20) / 3))).
rewrite existsb_exists in Hcov.
destruct Hcov as (k & Hk & Hnum).
- apply in_seq. Z.div_mod_to_equations. lia.
- exists k. split; [exact Hk |].
  apply Z.eqb_eq in Hnum. rewrite Hnum, Z2Nat.id by (Z.div_mod_to_equations; lia).
  Z.div_mod_to_equations. lia.
Qed.

End SampleMaps.

(** X17.  When the samples loaded are those of the map that [loadInstrument]
    builds for an instrument, every pitch from 21 (A0) to 108 (C8) is played
    from a sample at most one semitone away. *)
Theorem loaded_sample_within_semitone (e : AudioEngine) (id : InstrumentID) (midi : Z) :
  (forall k, In k (buffers e) <-> In k (map fst (instrumentMap id))) ->
  21 <= midi <= 108 ->
  exists b d,
    getClosestBuffer e midi = Some (b, d) /\ In b (buffers e) /\
    d = midi - getNoteNumber b /\ -1 <= d <= 1.
Proof.
intros Hkeys Hm.
destruct (instrumentMap_covers id) as [Hcov Hnoempty].
destruct (coversThirds_spec _ midi Hcov Hm) as (k & Hk & Hnear).
assert (Hne : buffers e <> []).
{ intros E. apply Hkeys in Hk. rewrite E in Hk. contradiction. }
assert (Hno : ~ In EmptyString (buffers e)).
{ intros Hin. apply Hkeys in Hin. unfold noEmptyKey in Hnoempty.
  rewrite forallb_forall in Hnoempty. specialize (Hnoempty _ Hin). discriminate. }
assert (Hnearest : exists b d,
  getClosestBuffer e midi = Some (b, d) /\ In b (buffers e) /\ d = midi - getNoteNumber b /\
  forall b', In b' (buffers e) -> Z.abs d <= Z.abs (midi - getNoteNumber b')).
{ unfold getClosestBuffer.
  destruct (buffers e) as [| b0 bs] eqn:Hb; [contradiction |]. rewrite <- Hb in *.
  pose proof (closer_fold midi (buffers e) None EmptyString) as Hfold.
  destruct (fold_left (closer midi) (buffers e) (None, EmptyString)) as [[d |] b].
  - destruct Hfold as (Hd & Hin & Hmin & _); [intros d0 [=] |].
    destruct Hin as [Hin | [[=] _]].
    destruct b as [| c s]; [contradiction |].
    exists (String c s), d. repeat split; auto.
  - destruct Hfold as [Hnil _]; [intros d0 [=] |]. rewrite Hb in Hnil. discriminate. }
destruct Hnearest as (b & d & Hres & Hin & Hd & Hmin).
exists b, d. repeat split; try assumption.
- specialize (Hmin k (proj2 (Hkeys k) Hk)). lia.
- specialize (Hmin k (proj2 (Hkeys k) Hk)). lia.
Qed.

Lemma loaded_sample_within_semitone_witness :
  (forall k, In k (buffers loadedEngine) <-> In k (map fst (instrumentMap salamander))) /\
  21 <= 62 <= 108 /\
  exists b d,
    getClosestBuffer loadedEngine 62 = Some (b, d) /\ In b (buffers loadedEngine) /\
    d = 62 - getNoteNumber b /\ -1 <= d <= 1.
Proof.
assert (H1 : forall k, In k (buffers loadedEngine) <-> In k (map fst (instrumentMap salamander)))
  by (intros k; reflexivity).
split; [exact H1 |]. split; [lia |].
apply (loaded_sample_within_semitone loadedEngine salamander 62 H1). lia.
Defined.

Section Gains.

Lemma velocity_gain v :
  let normalizedVel := (inject_Z (clamp127 v) / 127)%Q in
  (0 <= normalizedVel * normalizedVel <= 1)%Q.
Proof.
cbv zeta. assert (Hc : 0 <= clamp127 v <= 127) by (unfold clamp127; lia).
assert (H0 : (0 <= inject_Z (clamp127 v))%Q) by (rewrite Zle_Qle in Hc; apply Hc).
assert (H1 : (inject_Z (clamp127 v) <= 127)%Q) by (destruct Hc as [_ Hc]; now rewrite Zle_Qle in Hc).
set (x := inject_Z (clamp127 v)) in *.
assert (Hx : (0 <= x / 127 <= 1)%Q).
{ split; [apply Qle_shift_div_l; lra | apply Qle_shift_div_r; lra]. }
set (y := (x / 127)%Q) in *. nra.
Qed.

Lemma stopNote_gains e now n t when :
  Forall gainOk (audio e) -> Forall gainOk (audio (stopNote e now n t when)).
Proof.
intros H. unfold stopNote. destruct (activeSources e !! mapKey n t); [| exact H].
destruct (ctx e); [| exact H]. cbn [with_sources audio].
apply Forall_app. split; [exact H | repeat constructor].
Qed.

Lemma playNote_gains e now n t vel when :
  Forall gainOk (audio e) -> Forall gainOk (audio (playNote e now n t vel when)).
Proof.
intros H. unfold playNote.
destruct (negb (ctx e) || negb (isLoaded e) || negb (masterGain e)); [exact H |].
set (e1 := if Qeq_bool when 0 then stopNote e now n t 0 else e).
assert (H1 : Forall gainOk (audio e1)).
{ subst e1. destruct (Qeq_bool when 0); [now apply stopNote_gains | exact H]. }
destruct (getNoteNumber n =? 0); [exact H1 |].
destruct (getClosestBuffer e1 _) as [[buffer distance] |]; [| exact H1].
cbn [with_sources audio]. apply Forall_app. split; [exact H1 |].
constructor; [| constructor]. cbn [gainOk]. apply velocity_gain.
Qed.

End Gains.

(** X18.  Whatever sequence of [playNote] and [stopNote] calls is made, with
    any velocities, no source is started with a gain below 0 or above 1. *)
Theorem gains_stay_in_range (calls : list (Q * Call)) (e : AudioEngine) :
  Forall gainOk (audio e) -> Forall gainOk (audio (fold_left engineCall calls e)).
Proof.
revert e. induction calls as [| [clock c] calls IH]; intros e H; cbn [fold_left]; [exact H |].
apply IH. unfold engineCall. cbn [fst snd].
destruct c; [now apply playNote_gains | now apply stopNote_gains].
Qed.

Lemma gains_stay_in_range_witness :
  Forall gainOk (audio readyEngine) /\
  Forall gainOk (audio (fold_left engineCall
                          [(1%Q, PlayNote "C4" 0 (Some 300) 0); (2%Q, StopNote "C4" 0 0)]
                          readyEngine)).
Proof.
assert (H : Forall gainOk (audio readyEngine)) by constructor.
split; [exact H |].
exact (gains_stay_in_range [(1%Q, PlayNote "C4" 0 (Some 300) 0); (2%Q, StopNote "C4" 0 0)]
         readyEngine H).
Defined.

Section MetronomeStart.

(** What a finished loop has done, with the times of its rounds: every tick
    it asked for was due, and the next one is not. *)
Lemma schedulerLoop_due fuel : forall e now e',
  schedulerLoop fuel e now = Ok e' ->
  exists n,
    tickTimes e'
    = tickTimes e ++ (if ctx e && masterGain e
                      then grid (nextNoteTime e) (60 / bpm e) n else []) /\
    Forall (fun t => t < now + scheduleAheadTime)%Q (grid (nextNoteTime e) (60 / bpm e) n) /\
    nextNoteTime e' = gridEnd (nextNoteTime e) (60 / bpm e) n /\
    (now + scheduleAheadTime <= nextNoteTime e')%Q /\
    bpm e' = bpm e /\ isMetronomePlaying e' = isMetronomePlaying e /\
    timerID e' = timerID e /\ activeSources e' = activeSources e.
Proof.
induction fuel as [| fuel IH]; intros e now e'; cbn [schedulerLoop];
  destruct (Qlt_bool (nextNoteTime e) (now + scheduleAheadTime)) eqn:Hdue;
  try discriminate.
- intros [= <-]. apply Qlt_bool_false in Hdue. exists 0%nat. cbn [grid gridEnd].
  destruct (ctx e && masterGain e); rewrite app_nil_r; repeat split;
    try reflexivity; try constructor; exact Hdue.
- intros Hloop. apply IH in Hloop as (n & Ht & Hall & Hn & Hexit & Hb & Hp & Hti & Ha).
  pose proof (scheduler_round e) as (Rt & Rn & Rb & Rc & Rm & Rp & Rti & Ra).
  cbv zeta in *. apply Qlt_bool_iff in Hdue.
  rewrite Rt, Rn, Rb, Rc, Rm in Ht. rewrite Rn, Rb in Hall, Hn.
  rewrite Rb in Hb. rewrite Rp in Hp. rewrite Rti in Hti. rewrite Ra in Ha.
  exists (S n). cbn [grid gridEnd].
  split; [rewrite Ht; destruct (ctx e && masterGain e); rewrite <- ?app_assoc; reflexivity |].
  split; [constructor; assumption |].
  repeat split; assumption.
- intros [= <-]. apply Qlt_bool_false in Hdue. exists 0%nat. cbn [grid gridEnd].
  destruct (ctx e && masterGain e); rewrite app_nil_r; repeat split;
    try reflexivity; try constructor; exact Hdue.
Qed.

(** With a negative tempo the time of the next tick moves backwards, and a
    loop that has something due never ends. *)
Lemma schedulerLoop_negative now fuel : forall e,
  (bpm e < 0)%Q -> (nextNoteTime e < now + scheduleAheadTime)%Q ->
  schedulerLoop fuel e now = Diverges.
Proof.
induction fuel as [| fuel IH]; intros e Hb Hdue; cbn [schedulerLoop];
  apply Qlt_bool_iff in Hdue as Hdue'; rewrite Hdue'; [reflexivity |].
pose proof (scheduler_round e) as (_ & Rn & Rb & _). cbv zeta in Rn, Rb.
apply IH; [now rewrite Rb |]. rewrite Rn.
assert (Hneg : (60 / bpm e < 0)%Q).
{ assert (Hpos : (0 < 60 / - bpm e)%Q) by (apply Qlt_shift_div_l; lra).
  assert (E : 60 / bpm e == - (60 / - bpm e)) by (field; lra).
  rewrite E. lra. }
lra.
Qed.

End MetronomeStart.

(** X19.  [startMetronome] with a tempo above zero, on an engine that has an
    audio context and whose metronome is off, returns; the first tick is set
    50 ms after the call, at least one tick is requested (when there is a
    master gain), every requested tick lies on the grid of the tempo less than
    100 ms ahead, the next one does not, and the metronome is left on with a
    timeout pending. *)
Theorem startMetronome_first_tick (e : AudioEngine) (now b : Q) :
  ctx e = true -> isMetronomePlaying e = false -> (0 < b)%Q ->
  exists n, forall fuel, (n <= fuel)%nat ->
    exists e' k,
      startMetronome fuel e now b = Ok e' /\
      (1 <= k)%nat /\
      tickTimes e'
      = tickTimes e ++ (if masterGain e then grid (now + 0.05) (60 / b) k else []) /\
      Forall (fun t => t < now + 0.1)%Q (grid (now + 0.05) (60 / b) k) /\
      (now + 0.1 <= nextNoteTime e')%Q /\
      isMetronomePlaying e' = true /\ timerID e' = true /\ bpm e' = b.
Proof.
intros Hc Hoff Hb.
set (e0 := with_metronome (with_metronome e (nextNoteTime e) (timerID e) true b)
             (now + 0.05)%Q (timerID e) true b).
destruct (schedulerLoop_fuel e0 now Hb) as [n Hn].
exists n. intros fuel Hfuel.
unfold startMetronome. rewrite Hoff. cbn [with_metronome ctx timerID]. rewrite Hc.
fold e0. unfold scheduler. change (ctx e0) with (ctx e). rewrite Hc. cbn [negb].
destruct (Hn fuel Hfuel) as [e1 Hloop]. rewrite Hloop. cbn [obind].
apply schedulerLoop_due in Hloop as (k & Ht & Hall & Hnext & Hexit & Hbpm & Hp & Hti & _).
cbn [e0 with_metronome ctx masterGain nextNoteTime bpm isMetronomePlaying timerID] in *.
rewrite Hc in Ht. cbn [andb] in Ht. rewrite Hp.
eexists. exists k. split; [reflexivity |].
cbn [with_metronome isMetronomePlaying timerID bpm nextNoteTime].
split.
- destruct k as [| k]; [| lia]. cbn [gridEnd] in Hnext. rewrite Hnext in Hexit.
  unfold scheduleAheadTime in Hexit. lra.
- unfold tickTimes in *. cbn [with_metronome audio] in *. repeat split; assumption.
Qed.

Lemma startMetronome_first_tick_witness :
  ctx readyEngine = true /\ isMetronomePlaying readyEngine = false /\ (0 < 120)%Q /\
  exists n, forall fuel, (n <= fuel)%nat ->
    exists e' k,
      startMetronome fuel readyEngine 1 120 = Ok e' /\
      (1 <= k)%nat /\
      tickTimes e'
      = tickTimes readyEngine ++ (if masterGain readyEngine
                                  then grid (1 + 0.05) (60 / 120) k else []) /\
      Forall (fun t => t < 1 + 0.1)%Q (grid (1 + 0.05) (60 / 120) k) /\
      (1 + 0.1 <= nextNoteTime e')%Q /\
      isMetronomePlaying e' = true /\ timerID e' = true /\ bpm e' = 120%Q.
Proof.
assert (H3 : (0 < 120)%Q) by reflexivity.
split; [reflexivity |]. split; [reflexivity |]. split; [exact H3 |].
exact (startMetronome_first_tick readyEngine 1 120 eq_refl eq_refl H3).
Defined.

(** X20.  With a negative tempo the time of the next tick moves backwards:
    [startMetronome] never returns, and after [setBPM] with such a tempo the
    scheduler never returns once a tick is due. *)
Theorem negative_bpm_never_returns (e : AudioEngine) (now b : Q) :
  ctx e = true -> (b < 0)%Q ->
  (isMetronomePlaying e = false ->
   forall fuel, startMetronome fuel e now b = Diverges) /\
  ((nextNoteTime e < now + 0.1)%Q ->
   forall fuel, scheduler fuel (setBPM e b) now = Diverges).
Proof.
intros Hc Hb. split.
- intros Hoff fuel. unfold startMetronome. rewrite Hoff.
  cbn [with_metronome ctx timerID]. rewrite Hc.
  unfold scheduler. cbn [with_metronome ctx]. rewrite Hc. cbn [negb].
  rewrite schedulerLoop_negative; [reflexivity | exact Hb |].
  cbn [with_metronome nextNoteTime]. unfold scheduleAheadTime. lra.
- intros Hdue fuel. unfold scheduler, setBPM. cbn [with_metronome ctx]. rewrite Hc.
  cbn [negb]. rewrite schedulerLoop_negative; [reflexivity | exact Hb | exact Hdue].
Qed.

Lemma negative_bpm_never_returns_witness :
  ctx readyEngine = true /\ (-(120) < 0)%Q /\
  (isMetronomePlaying readyEngine = false ->
   forall fuel, startMetronome fuel readyEngine 1 (-(120)) = Diverges) /\
  ((nextNoteTime readyEngine < 1 + 0.1)%Q ->
   forall fuel, scheduler fuel (setBPM readyEngine (-(120))) 1 = Diverges).
Proof.
assert (H2 : (-(120) < 0)%Q) by reflexivity.
split; [reflexivity |]. split; [exact H2 |].
exact (negative_bpm_never_returns readyEngine 1 (-(120)) eq_refl H2).
Defined.

(** ** A play scheduled ahead for a pair that sounds *)

Section Orphans.

Lemma stopNote_orphaned e now n t when id :
  orphaned e id -> orphaned (stopNote e now n t when) id.
Proof.
intros (Hid & Hf & Hno & Hst & Hre).
pose proof (stopNote_fresh e now n t when Hf) as Hf'.
unfold orphaned. unfold stopNote in *.
destruct (activeSources e !! mapKey n t) as [active |] eqn:Ha; [| repeat split; assumption].
destruct (ctx e); [| repeat split; assumption].
cbn [with_sources nextNode activeSources audio] in *.
split; [exact Hid |]. split; [exact Hf' |]. split; [| split].
- intros key Hk. apply lookup_delete_Some in Hk as [_ Hk]. now apply (Hno key).
- rewrite startedIn_app, Hst. reflexivity.
- rewrite releasedIn_app, Hre. cbn. rewrite orb_false_r.
  apply Nat.eqb_neq. intros ->. now apply (Hno (mapKey n t)).
Qed.

Lemma playNote_orphaned e now n t vel when id :
  orphaned e id -> orphaned (playNote e now n t vel when) id.
Proof.
intros Ho.
pose proof (playNote_fresh e now n t vel when (proj1 (proj2 Ho))) as Hf'.
unfold playNote in *.
destruct (negb (ctx e) || negb (isLoaded e) || negb (masterGain e)); [exact Ho |].
set (e1 := if Qeq_bool when 0 then stopNote e now n t 0 else e) in *.
assert (H1 : orphaned e1 id).
{ subst e1. destruct (Qeq_bool when 0); [now apply stopNote_orphaned | exact Ho]. }
destruct (getNoteNumber n =? 0); [exact H1 |].
destruct (getClosestBuffer e1 _) as [[buffer distance] |]; [| exact H1].
destruct H1 as (Hid & Hf & Hno & Hst & Hre).
unfold orphaned. cbn [with_sources nextNode activeSources audio] in *.
split; [lia |]. split; [exact Hf' |]. split; [| split].
- intros key Hk. apply lookup_insert_Some in Hk as [[_ Hk] | [_ Hk]]; [lia |].
  now apply (Hno key).
- rewrite startedIn_app, Hst. reflexivity.
- rewrite releasedIn_app, Hre. reflexivity.
Qed.

Lemma engineCalls_orphaned calls : forall e id,
  orphaned e id -> orphaned (fold_left engineCall calls e) id.
Proof.
induction calls as [| [clock c] calls IH]; intros e id Ho; cbn [fold_left]; [exact Ho |].
apply IH. unfold engineCall. cbn [fst snd].
destruct c; [now apply playNote_orphaned | now apply stopNote_orphaned].
Qed.

End Orphans.

(** X21.  A [playNote] that is scheduled ahead (its [when] is not 0) for a
    pair of note and transpose that already sounds puts the new source under
    the key of the pair without releasing the old one: whatever calls follow,
    the old source is never released and no key of the map leads to it. *)
Theorem scheduled_retrigger_orphans_source (e : AudioEngine) (now : Q) (n : string) (t : Z)
    (vel : option Z) (when : Q) (old : nat) (buffer : string) (distance : Z) :
  inOrder e ->
  activeSources e !! mapKey n t = Some old ->
  ~ when == 0 ->
  ctx e && isLoaded e && masterGain e = true ->
  getNoteNumber n <> 0 ->
  getClosestBuffer e (getNoteNumber n + t) = Some (buffer, distance) ->
  let e' := playNote e now n t vel when in
  activeSources e' !! mapKey n t = Some (nextNode e) /\ old <> nextNode e /\
  forall calls,
    let e'' := fold_left engineCall calls e' in
    startedIn (audio e'') old = true /\ releasedIn (audio e'') old = false /\
    forall key, activeSources e'' !! key <> Some old.
Proof.
intros (Hf & Hs & Hr & Hin & Hlive & Hinj) Hold Hwhen Hready Hnum Hbuf e'.
apply andb_prop in Hready as [Hready Hm]. apply andb_prop in Hready as [Hc Hl].
assert (He' : e' = with_sources e (<[mapKey n t := nextNode e]> (activeSources e))
                     (S (nextNode e))
                     (SourceStart (nextNode e) buffer distance
                        (inject_Z (clamp127 (match vel with Some v => v | None => 100 end)) / 127
                         * (inject_Z (clamp127 (match vel with Some v => v | None => 100 end)) / 127))
                        (orNow when now))).
{ subst e'. unfold playNote. rewrite Hc, Hl, Hm. cbn [negb orb].
  assert (Hq : Qeq_bool when 0 = false).
  { destruct (Qeq_bool when 0) eqn:E; [| reflexivity]. apply Qeq_bool_iff in E. contradiction. }
  rewrite Hq. destruct (Z.eqb_spec (getNoteNumber n) 0); [contradiction |].
  rewrite Hbuf. reflexivity. }
pose proof (Hf _ _ Hold) as Hlt.
destruct (Hin _ _ Hold) as [Hst Hre].
assert (Ho : orphaned e' old).
{ rewrite He'. unfold orphaned. cbn [with_sources nextNode activeSources audio].
  split; [lia |]. split; [| split; [| split]].
  - intros key id Hk. cbn [with_sources nextNode activeSources] in Hk |- *.
    apply lookup_insert_Some in Hk as [[_ <-] | [_ Hk]]; [lia |].
    specialize (Hf key id Hk). lia.
  - intros key Hk. apply lookup_insert_Some in Hk as [[_ Hk] | [Hne Hk]]; [lia |].
    apply Hne. now apply (Hinj _ _ old).
  - rewrite startedIn_app, Hst. reflexivity.
  - rewrite releasedIn_app, Hre. reflexivity. }
split; [rewrite He'; cbn; apply lookup_insert_eq |]. split; [lia |].
intros calls e''. destruct (engineCalls_orphaned calls e' old Ho) as (_ & _ & Hno & Hst' & Hre').
repeat split; assumption.
Qed.

Lemma scheduled_retrigger_orphans_source_witness :
  inOrder soundingEngine /\
  activeSources soundingEngine !! mapKey "C4" 0 = Some 0%nat /\
  ~ 3 == 0 /\
  ctx soundingEngine && isLoaded soundingEngine && masterGain soundingEngine = true /\
  getNoteNumber "C4" <> 0 /\
  getClosestBuffer soundingEngine (getNoteNumber "C4" + 0) = Some ("C4"%string, 0) /\
  let e' := playNote soundingEngine 2 "C4" 0 (Some 100) 3 in
  activeSources e' !! mapKey "C4" 0 = Some (nextNode soundingEngine) /\
  0%nat <> nextNode soundingEngine /\
  forall calls,
    let e'' := fold_left engineCall calls e' in
    startedIn (audio e'') 0 = true /\ releasedIn (audio e'') 0 = false /\
    forall key, activeSources e'' !! key <> Some 0%nat.
Proof.
assert (H1 : inOrder soundingEngine) by (apply playNow_inOrder, readyEngine_inOrder).
assert (H2 : activeSources soundingEngine !! mapKey "C4" 0 = Some 0%nat)
  by (vm_compute; reflexivity).
assert (H3 : ~ 3 == 0) by (vm_compute; lia).
assert (H4 : ctx soundingEngine && isLoaded soundingEngine && masterGain soundingEngine = true)
  by (vm_compute; reflexivity).
assert (H5 : getNoteNumber "C4" <> 0) by (vm_compute; lia).
assert (H6 : getClosestBuffer soundingEngine (getNoteNumber "C4" + 0) = Some ("C4"%string, 0))
  by (vm_compute; reflexivity).
split; [exact H1 |]. split; [exact H2 |]. split; [exact H3 |]. split; [exact H4 |].
split; [exact H5 |]. split; [exact H6 |].
exact (scheduled_retrigger_orphans_source soundingEngine 2 "C4" 0 (Some 100) 3 0%nat "C4" 0
         H1 H2 H3 H4 H5 H6).
Defined.

(** ** Resuming playback, and what a tick plays *)

Section Resume.

Lemma fastForward_spec elapsed evts : forall idx,
  let c := fastForward elapsed evts idx in
  (idx <= c <= idx + length evts)%nat /\
  (forall i e, (i < c - idx)%nat -> nth_error evts i = Some e -> (time e < elapsed)%Q) /\
  (forall e, nth_error evts (c - idx) = Some e -> (elapsed <= time e)%Q).
Proof.
induction evts as [| evt evts IH]; intros idx; cbv zeta; cbn [fastForward length].
- split; [lia |]. split.
  + intros i e Hi. lia.
  + intros e. rewrite Nat.sub_diag. discriminate.
- destruct (Qlt_bool (time evt) elapsed) eqn:Hlt.
  + destruct (IH (S idx)) as (Hr & Hbefore & Hat). cbv zeta in *.
    set (c := fastForward elapsed evts (S idx)) in *.
    split; [lia |]. split.
    * intros i e Hi Hnth. destruct i as [| i]; cbn [nth_error] in Hnth.
      -- injection Hnth as <-. now apply Qlt_bool_iff.
      -- apply (Hbefore i); [lia | exact Hnth].
    * intros e. replace (c - idx)%nat with (S (c - S idx)) by lia. cbn [nth_error].
      apply Hat.
  + rewrite Nat.sub_diag. split; [lia |]. split.
    * intros i e Hi. lia.
    * intros e [= <-]. now apply Qlt_bool_false.
Qed.

End Resume.

(** X22.  [startPlayback] on a recording that is not empty starts the
    transport and resumes at the elapsed time shown, or at 0 when that time
    has reached the last event: the track time read right away is that
    position and the cursor stands on the first event at or after it.  No
    note is played or stopped; the one call on the engine is
    [resumeIfSuspended], made once. *)
Theorem startPlayback_position (p : Player) (clock : Q) (lastEvent : AppEvent) :
  lastEventOf (recording p) = Some lastEvent ->
  let p' := startPlayback p clock in
  let restart := Qle_bool (time lastEvent) (elapsedTime p) in
  let start := if restart then 0%Q else elapsedTime p in
  isPlayingBack p' = true /\ workerTicking p' = true /\ animFrame p' = true /\
  elapsedTime p' = start /\ playbackStartOffset p' = start /\
  trackPlayTime p' clock == start / 1000 /\
  playbackSpeed p' = playbackSpeed p /\
  calls p' = calls p /\ resumeCalls p' = S (resumeCalls p) /\
  (if restart then audioCursor p' = 0%nat
   else (forall i e, (i < audioCursor p')%nat -> nth_error (recording p) i = Some e ->
                     (time e < elapsedTime p)%Q) /\
        (forall e, nth_error (recording p) (audioCursor p') = Some e ->
                   (elapsedTime p <= time e)%Q)).
Proof.
intros Hlast. cbv zeta. unfold startPlayback. rewrite Hlast.
change (elapsedTime (callResume p)) with (elapsedTime p).
change (recording (callResume p)) with (recording p).
destruct (Qle_bool (time lastEvent) (elapsedTime p)) eqn:Hre; cbn;
  do 5 (split; [reflexivity |]);
  (split; [unfold trackPlayTime; cbn; field |]);
  do 3 (split; [reflexivity |]); [reflexivity |].
destruct (fastForward_spec (elapsedTime p) (recording p) 0) as (_ & Hbefore & Hat).
cbv zeta in Hbefore, Hat. rewrite Nat.sub_0_r in Hbefore, Hat. split; assumption.
Qed.

Lemma startPlayback_position_witness :
  lastEventOf (recording (player0 tuneTwo)) = Some (mkEvent 500 off "D4" 0 salamander None) /\
  let p := player0 tuneTwo in
  let p' := startPlayback p 1 in
  let restart := Qle_bool (time (mkEvent 500 off "D4" 0 salamander None)) (elapsedTime p) in
  let start := if restart then 0%Q else elapsedTime p in
  isPlayingBack p' = true /\ workerTicking p' = true /\ animFrame p' = true /\
  elapsedTime p' = start /\ playbackStartOffset p' = start /\
  trackPlayTime p' 1 == start / 1000 /\
  playbackSpeed p' = playbackSpeed p /\
  calls p' = calls p /\ resumeCalls p' = S (resumeCalls p) /\
  (if restart then audioCursor p' = 0%nat
   else (forall i e, (i < audioCursor p')%nat -> nth_error (recording p) i = Some e ->
                     (time e < elapsedTime p)%Q) /\
        (forall e, nth_error (recording p) (audioCursor p') = Some e ->
                   (elapsedTime p <= time e)%Q)).
Proof.
assert (H : lastEventOf (recording (player0 tuneTwo))
            = Some (mkEvent 500 off "D4" 0 salamander None)) by reflexivity.
split; [exact H |].
exact (startPlayback_position (player0 tuneTwo) 1 _ H).
Defined.

Section TickCalls.

(** The calls of the loop of a tick: those of the first [k] events that are
    left, all of them inside the horizon. *)
Lemma scheduleLoop_calls scheduleUntil c clock rest : forall p,
  exists k,
    calls (scheduleLoop scheduleUntil c clock rest p)
    = calls p ++ flat_map (callsFor p c) (firstn k rest) /\
    Forall (fun e => time e / 1000 <= scheduleUntil)%Q (firstn k rest).
Proof.
induction rest as [| evt rest IH]; intros p; cbn [scheduleLoop].
- exists 0%nat. cbn. rewrite app_nil_r. split; [reflexivity | constructor].
- destruct (Qlt_bool scheduleUntil (time evt / 1000)) eqn:Hfar.
  + exists 0%nat. cbn. rewrite app_nil_r. split; [reflexivity | constructor].
  + apply Qlt_bool_false in Hfar.
    pose proof (scheduleEvent_spec c clock p evt) as (Ht & Hcur & Hcalls).
    cbv zeta in Ht, Hcur, Hcalls.
    set (p1 := with_cursor _ _).
    assert (Ht1 : sameTransport p p1).
    { subst p1. destruct Ht as (A1 & A2 & A3 & A4 & A5 & A6 & A7 & A8 & A9).
      repeat split; assumption. }
    destruct (IH p1) as (k & Hk & Hin).
    exists (S k). cbn [firstn flat_map]. split; [| constructor; assumption].
    rewrite Hk. subst p1. cbn [calls with_cursor]. rewrite Hcalls, <- app_assoc.
    do 2 f_equal. apply flat_map_ext. intros e. now apply callsFor_transport.
Qed.

Lemma In_slice {A} (x : A) k i l : In x (firstn k (skipn i l)) -> In x l.
Proof.
intros H. rewrite <- (firstn_skipn i l). apply in_or_app. right.
rewrite <- (firstn_skipn k (skipn i l)). apply in_or_app. now left.
Qed.

Lemma callsFor_play p c evt n t v w :
  In (PlayNote n t v w) (callsFor p c evt) ->
  isPracticeMode p = false /\ (c - 0.05 < w)%Q /\
  type evt = on /\ note evt = n /\ transpose evt = t /\ velocity evt = v /\
  w = absolutePlayTime p evt.
Proof.
unfold callsFor. destruct (type evt) eqn:Hty.
- destruct (Qlt_bool (c - 0.05) (absolutePlayTime p evt)) eqn:Hlate; cbn [andb];
    [| intros []].
  destruct (isPracticeMode p); cbn [negb]; [intros [] |].
  intros [[= <- <- <- <-] | []]. apply Qlt_bool_iff in Hlate. repeat split; assumption.
- intros [[=] | []].
Qed.

End TickCalls.

(** X23.  At a speed other than 0, every [playNote] that a tick of the
    scheduler asks for is the On of an event of the recording, with its note,
    transpose and velocity, at its own play time; that time is later than 50
    ms before the reading of the audio clock, the event lies within the
    look-ahead, and no play is asked for in practice mode. *)
Theorem tick_plays_within_window (p : Player) (clock : Q) :
  ~ playbackSpeed p == 0 ->
  let p' := runAudioScheduler p clock in
  let now := currentTime (engine p) clock in
  exists cs,
    calls p' = calls p ++ cs /\
    forall n t v w, In (PlayNote n t v w) cs ->
      isPracticeMode p = false /\ (now - 0.05 < w)%Q /\
      exists evt,
        In evt (recording p) /\ type evt = on /\ note evt = n /\ transpose evt = t /\
        velocity evt = v /\ w = absolutePlayTime p evt /\
        (time evt / 1000 <= trackPlayTime p clock + 0.1 * playbackSpeed p)%Q.
Proof.
intros _. cbv zeta. unfold runAudioScheduler.
destruct (recording p) as [| e0 evts] eqn:Hrec.
{ exists []. rewrite app_nil_r. split; [reflexivity | intros n t v w []]. }
rewrite <- Hrec.
set (horizon := (trackPlayTime p clock + 0.1 * playbackSpeed p)%Q).
destruct (scheduleLoop_calls horizon (currentTime (engine p) clock) clock
            (skipn (audioCursor p) (recording p)) p) as (k & Hcalls & Hin).
set (p1 := scheduleLoop _ _ _ _ _) in *.
set (played := flat_map _ _) in Hcalls.
assert (Hplayed : forall n t v w, In (PlayNote n t v w) played ->
  isPracticeMode p = false /\ (currentTime (engine p) clock - 0.05 < w)%Q /\
  exists evt,
    In evt (recording p) /\ type evt = on /\ note evt = n /\ transpose evt = t /\
    velocity evt = v /\ w = absolutePlayTime p evt /\ (time evt / 1000 <= horizon)%Q).
{ intros n t v w Hplay. subst played. apply in_flat_map in Hplay as (evt & Hevt & Hc).
  apply callsFor_play in Hc as (Hpm & Hlate & Hty & Hn & Htr & Hv & Hw).
  split; [exact Hpm |]. split; [exact Hlate |].
  exists evt. rewrite Forall_forall in Hin.
  repeat split; try assumption; [| now apply Hin].
  now apply (In_slice evt k (audioCursor p)). }
destruct (lastEventOf (recording p1)) as [lastEvent |].
- destruct (Qlt_bool _ _).
  + exists (played ++ [StopNote "C4" 0 0]). split.
    * cbn. rewrite Hcalls. now rewrite <- app_assoc.
    * intros n t v w Hplay. apply in_app_or in Hplay as [Hplay | [[=] | []]].
      now apply Hplayed.
  + exists played. split; [exact Hcalls | exact Hplayed].
- exists played. split; [exact Hcalls | exact Hplayed].
Qed.

Lemma tick_plays_within_window_witness :
  ~ playbackSpeed startedTwo == 0 /\
  let p' := runAudioScheduler startedTwo 1.025 in
  let now := currentTime (engine startedTwo) 1.025 in
  exists cs,
    calls p' = calls startedTwo ++ cs /\
    forall n t v w, In (PlayNote n t v w) cs ->
      isPracticeMode startedTwo = false /\ (now - 0.05 < w)%Q /\
      exists evt,
        In evt (recording startedTwo) /\ type evt = on /\ note evt = n /\ transpose evt = t /\
        velocity evt = v /\ w = absolutePlayTime startedTwo evt /\
        (time evt / 1000 <= trackPlayTime startedTwo 1.025 + 0.1 * playbackSpeed startedTwo)%Q.
Proof.
assert (H : ~ playbackSpeed startedTwo == 0) by (vm_compute; discriminate).
split; [exact H |].
exact (tick_plays_within_window startedTwo 1.025 H).
Defined.

(** ** Notes held by the playback by timeouts *)

Section LegacyHeld.

Lemma pairEqb_eq a b : pairEqb a b = true <-> a = b.
Proof.
destruct a as [n t], b as [n' t']. unfold pairEqb. cbn [fst snd].
rewrite andb_true_iff, String.eqb_eq, Z.eqb_eq. split; [intros [-> ->] | intros [= -> ->]]; auto.
Qed.

Lemma mapKey_eqb n t n' t' :
  String.eqb (mapKey n t) (mapKey n' t') = pairEqb (n, t) (n', t').
Proof.
destruct (pairEqb (n, t) (n', t')) eqn:E.
- apply pairEqb_eq in E. injection E as -> ->. apply String.eqb_refl.
- apply String.eqb_neq. intros Hk. apply mapKey_inj in Hk as [-> ->].
  assert (H : pairEqb (n', t') (n', t') = true) by now apply pairEqb_eq. congruence.
Qed.

Lemma setAdd_keys nt held :
  Legacy.setAdd (keyOf nt) (map keyOf held)
  = map keyOf (if existsb (pairEqb nt) held then held else held ++ [nt]).
Proof.
unfold Legacy.setAdd.
assert (E : existsb (String.eqb (keyOf nt)) (map keyOf held) = existsb (pairEqb nt) held).
{ induction held as [| [n t] held IH]; cbn [map existsb]; [reflexivity |].
  rewrite IH. destruct nt as [n0 t0]. unfold keyOf. cbn [fst snd]. now rewrite mapKey_eqb. }
rewrite E. destruct (existsb (pairEqb nt) held); [reflexivity |].
now rewrite map_app.
Qed.

Lemma setDelete_keys nt held :
  Legacy.setDelete (keyOf nt) (map keyOf held)
  = map keyOf (List.filter (fun x => negb (pairEqb nt x)) held).
Proof.
unfold Legacy.setDelete.
induction held as [| [n t] held IH]; cbn [map List.filter]; [reflexivity |].
destruct nt as [n0 t0]. unfold keyOf at 1 2. cbn [fst snd]. rewrite mapKey_eqb.
destruct (pairEqb (n0, t0) (n, t)); cbn [negb map]; rewrite IH; reflexivity.
Qed.

(** The set of the player follows the pairs, and nothing else moves but the
    calls. *)
Lemma fire_held evts : forall p held,
  Legacy.activePlaybackNotes p = map keyOf held ->
  let p1 := fold_left Legacy.fire evts p in
  Legacy.activePlaybackNotes p1 = map keyOf (fold_left holdStep evts held) /\
  Legacy.elapsedTime p1 = Legacy.elapsedTime p /\
  Legacy.recordedEvents p1 = Legacy.recordedEvents p.
Proof.
induction evts as [| evt evts IH]; intros p held Hp; cbn [fold_left]; [now repeat split |].
cbv zeta. specialize (IH (Legacy.fire p evt) (holdStep held evt)).
destruct IH as (H1 & H2 & H3); [| rewrite H1, H2, H3; repeat split;
                                   unfold Legacy.fire; destruct (type evt); reflexivity].
unfold Legacy.fire, holdStep. fold (keyOf (note evt, transpose evt)).
destruct (type evt); cbn [Legacy.activePlaybackNotes]; rewrite Hp.
- apply (setAdd_keys (note evt, transpose evt)).
- apply (setDelete_keys (note evt, transpose evt)).
Qed.

Lemma holdStep_NoDup held evt : NoDup held -> NoDup (holdStep held evt).
Proof.
intros Hnd. unfold holdStep. destruct (type evt).
- destruct (existsb _ held) eqn:E; [exact Hnd |].
  apply List.NoDup_app; [exact Hnd | repeat constructor; intros [] |].
  intros x Hx [<- | []].
  assert (Hex : existsb (pairEqb (note evt, transpose evt)) held = true).
  { apply existsb_exists. exists (note evt, transpose evt). split; [exact Hx |].
    now apply pairEqb_eq. }
  congruence.
- now apply List.NoDup_filter.
Qed.

Lemma holdStep_sounds held evt n t b :
  (b = true <-> In (n, t) held) ->
  ((if pairEqb (note evt, transpose evt) (n, t)
    then match type evt with on => true | off => false end else b) = true
   <-> In (n, t) (holdStep held evt)).
Proof.
intros Hb. unfold holdStep.
destruct (pairEqb (note evt, transpose evt) (n, t)) eqn:E.
- apply pairEqb_eq in E. rewrite E. destruct (type evt).
  + split; [intros _ | reflexivity].
    destruct (existsb (pairEqb (n, t)) held) eqn:Hex.
    * apply existsb_exists in Hex as (x & Hx & Heq). apply pairEqb_eq in Heq. now subst x.
    * apply in_or_app. right. now left.
  + split; [discriminate |]. intros Hin. apply filter_In in Hin as [_ Hne].
    assert (H : pairEqb (n, t) (n, t) = true) by now apply pairEqb_eq.
    rewrite H in Hne. discriminate.
- rewrite Hb. destruct (type evt).
  + destruct (existsb _ held); [reflexivity |].
    split; [intros H; apply in_or_app; now left |].
    intros H. apply in_app_or in H as [H | [H | []]]; [exact H |].
    rewrite H in E. assert (H' : pairEqb (n, t) (n, t) = true) by now apply pairEqb_eq.
    congruence.
  + rewrite filter_In. split; [| now intros [? _]].
    intros H. split; [exact H |]. now rewrite E.
Qed.

Lemma held_sounds evts n t : forall held b,
  (b = true <-> In (n, t) held) ->
  (soundsAfter evts n t b = true <-> In (n, t) (fold_left holdStep evts held)).
Proof.
induction evts as [| evt evts IH]; intros held b Hb; cbn [soundsAfter fold_left];
  [exact Hb |].
apply IH. now apply holdStep_sounds.
Qed.

Lemma fold_holdStep_NoDup evts : forall held,
  NoDup held -> NoDup (fold_left holdStep evts held).
Proof.
induction evts as [| evt evts IH]; intros held H; cbn [fold_left]; [exact H |].
apply IH. now apply holdStep_NoDup.
Qed.

Lemma holdStep_names evts : forall held,
  Forall (fun e => has_underscore (note e) = false) evts ->
  Forall (fun nt => has_underscore (fst nt) = false) held ->
  Forall (fun nt => has_underscore (fst nt) = false) (fold_left holdStep evts held).
Proof.
induction evts as [| evt evts IH]; intros held Hev Hheld; cbn [fold_left]; [exact Hheld |].
inversion Hev as [| ? ? He Hev']; subst.
apply IH; [exact Hev' |]. unfold holdStep. destruct (type evt).
- destruct (existsb _ held); [exact Hheld |].
  apply Forall_app. split; [exact Hheld | repeat constructor; exact He].
- rewrite Forall_forall in Hheld |- *. intros x Hx. apply filter_In in Hx as [Hx _].
  now apply Hheld.
Qed.

End LegacyHeld.

(** X24.  In the playback by timeouts, started with no note held, after the
    callbacks of any events whose note names hold no underscore,
    [pausePlayback] asks for one stop for each pair of note and transpose
    whose latest event was an On, and for no other, and leaves no note held,
    no timeout pending and the transport stopped. *)
Theorem legacy_pause_silences_sounding (p : Legacy.Player) (evts : list AppEvent) :
  Legacy.activePlaybackNotes p = [] ->
  Forall (fun e => has_underscore (note e) = false) evts ->
  let p1 := fold_left Legacy.fire evts p in
  exists stops : list (string * Z),
    Legacy.calls (Legacy.pausePlayback p1)
    = Legacy.calls p1 ++ map (fun nt => StopNote (fst nt) (snd nt) 0) stops /\
    NoDup stops /\
    (forall n t, In (n, t) stops <-> soundsAfter evts n t false = true) /\
    Legacy.activePlaybackNotes (Legacy.pausePlayback p1) = [] /\
    Legacy.playbackTimeouts (Legacy.pausePlayback p1) = [] /\
    Legacy.isPlayingBack (Legacy.pausePlayback p1) = false.
Proof.
intros Hnone Hnames p1.
destruct (fire_held evts p [] Hnone) as (Hkeys & Hel & _). fold p1 in Hkeys, Hel.
exists (fold_left holdStep evts []).
split; [| split; [| split; [| repeat split]]].
- apply legacy_pause_stops_each; [| exact Hkeys].
  apply holdStep_names; [exact Hnames | constructor].
- apply fold_holdStep_NoDup. constructor.
- intros n t. symmetry. apply held_sounds. split; [discriminate | intros []].
Qed.

Lemma legacy_pause_silences_sounding_witness :
  Legacy.activePlaybackNotes legacyD4 = [] /\
  Forall (fun e => has_underscore (note e) = false) tuneD4On /\
  let p1 := fold_left Legacy.fire tuneD4On legacyD4 in
  exists stops : list (string * Z),
    Legacy.calls (Legacy.pausePlayback p1)
    = Legacy.calls p1 ++ map (fun nt => StopNote (fst nt) (snd nt) 0) stops /\
    NoDup stops /\
    (forall n t, In (n, t) stops <-> soundsAfter tuneD4On n t false = true) /\
    Legacy.activePlaybackNotes (Legacy.pausePlayback p1) = [] /\
    Legacy.playbackTimeouts (Legacy.pausePlayback p1) = [] /\
    Legacy.isPlayingBack (Legacy.pausePlayback p1) = false.
Proof.
assert (H1 : Legacy.activePlaybackNotes legacyD4 = []) by reflexivity.
assert (H2 : Forall (fun e => has_underscore (note e) = false) tuneD4On)
  by (repeat constructor).
split; [exact H1 |]. split; [exact H2 |].
exact (legacy_pause_silences_sounding legacyD4 tuneD4On H1 H2).
Defined.

(** ** The computer keyboard *)

Section KeyboardFacts.

Import Keys.

Lemma has_In k l : has k l = true <-> In k l.
Proof.
unfold has. rewrite existsb_exists. split.
- intros (x & Hx & E). apply String.eqb_eq in E. now subst.
- intros H. exists k. split; [exact H | apply String.eqb_refl].
Qed.

Lemma setAdd_In x k l : In x (Legacy.setAdd k l) <-> x = k \/ In x l.
Proof.
unfold Legacy.setAdd. fold (has k l). destruct (has k l) eqn:E.
- apply has_In in E. split; [now right | intros [-> | H]; assumption].
- rewrite in_app_iff. cbn. split; [intros [H | [<- | []]]; auto | intros [-> | H]; auto].
Qed.

Lemma setDelete_In x k l : In x (Legacy.setDelete k l) <-> x <> k /\ In x l.
Proof.
unfold Legacy.setDelete. rewrite filter_In. split.
- intros [H E]. split; [| exact H]. intros ->. now rewrite String.eqb_refl in E.
- intros [Hne H]. split; [exact H |].
  destruct (String.eqb_spec k x) as [-> |]; [contradiction | reflexivity].
Qed.

Lemma has_setAdd c k l : has c (Legacy.setAdd k l) = String.eqb c k || has c l.
Proof.
apply eq_true_iff_eq. rewrite orb_true_iff, !has_In, setAdd_In.
now rewrite String.eqb_eq.
Qed.

Lemma has_setDelete c k l : has c (Legacy.setDelete k l) = negb (String.eqb c k) && has c l.
Proof.
apply eq_true_iff_eq. rewrite andb_true_iff, negb_true_iff, !has_In, setDelete_In.
now rewrite String.eqb_neq.
Qed.

(** What [updateModifiers] leaves alone. *)
Lemma updateModifiers_frame s now code isDown :
  let s' := updateModifiers s now code isDown in
  activeKeys s' = activeKeys s /\ transposeBase s' = transposeBase s /\
  octaveShift s' = octaveShift s /\ currentKeyMap s' = currentKeyMap s /\
  engine s' = engine s /\ volume s' = volume s /\ isRecording s' = isRecording s /\
  recordingRef s' = recordingRef s.
Proof.
cbv zeta. unfold updateModifiers.
destruct (String.eqb code "ShiftLeft"); [now repeat split |].
destruct (String.eqb code "ControlLeft"); now repeat split.
Qed.

(** The modifier after a key event: [updateModifiers] followed by the
    update of the set of keys. *)
Lemma updateModifiers_held s now code (isDown : bool) :
  tempTranspose s = heldModifier (activeKeys s) ->
  tempTranspose (updateModifiers s now code isDown)
  = heldModifier (if isDown then Legacy.setAdd code (activeKeys s)
                  else Legacy.setDelete code (activeKeys s)).
Proof.
intros Hinv. unfold updateModifiers, heldModifier.
destruct (String.eqb_spec code "ShiftLeft") as [-> | Hs].
- cbn [tempTranspose with_modifiers].
  destruct isDown; rewrite ?has_setAdd, ?has_setDelete; cbn;
    destruct (has "ControlLeft" (activeKeys s)); reflexivity.
- destruct (String.eqb_spec code "ControlLeft") as [-> | Hc].
  + cbn [tempTranspose with_modifiers].
    destruct isDown; rewrite ?has_setAdd, ?has_setDelete; cbn;
      destruct (has "ShiftLeft" (activeKeys s)); reflexivity.
  + rewrite Hinv. unfold heldModifier.
    assert (E1 : String.eqb "ShiftLeft" code = false)
      by (apply String.eqb_neq; congruence).
    assert (E2 : String.eqb "ControlLeft" code = false)
      by (apply String.eqb_neq; congruence).
    destruct isDown; rewrite ?has_setAdd, ?has_setDelete, ?E1, ?E2; reflexivity.
Qed.

Lemma heldModifier_range keys : -1 <= heldModifier keys <= 1.
Proof.
unfold heldModifier. destruct (has "ShiftLeft" keys), (has "ControlLeft" keys); lia.
Qed.

Lemma getEffectiveTranspose_range s now code :
  -1 <= tempTranspose s <= 1 -> -1 <= getEffectiveTranspose s now code <= 1.
Proof.
intros H. unfold getEffectiveTranspose.
destruct (negb (String.eqb code "") && has code IMMUNE_TO_MODIFIERS); [lia |].
destruct (negb (String.eqb code "") && (tempTranspose s =? 0) && String.prefix "Numpad" code);
  [| exact H].
destruct (now - lastShiftLeftReleaseTime s <? 100); [lia | exact H].
Qed.

(** A stop takes entries away and adds none. *)
Lemma stopNote_lookup_Some e now n t when (key : string) id :
  activeSources (stopNote e now n t when) !! key = Some id ->
  activeSources e !! key = Some id.
Proof.
unfold stopNote. destruct (activeSources e !! mapKey n t); [| trivial].
destruct (ctx e); [| trivial]. cbn. intros H. now apply lookup_delete_Some in H as [_ H].
Qed.

Lemma playNote_ctx e now n t vel when : ctx (playNote e now n t vel when) = ctx e.
Proof.
unfold playNote.
destruct (negb (ctx e) || negb (isLoaded e) || negb (masterGain e)); [reflexivity |].
set (e1 := if Qeq_bool when 0 then stopNote e now n t 0 else e).
assert (H1 : ctx e1 = ctx e).
{ subst e1. destruct (Qeq_bool when 0); [apply stopNote_ctx | reflexivity]. }
destruct (getNoteNumber n =? 0); [exact H1 |].
destruct (getClosestBuffer e1 _) as [[buffer distance] |]; [| exact H1].
exact H1.
Qed.

(** Without an audio context nothing is started. *)
Lemma playNote_no_ctx e now n t vel when : ctx e = false -> playNote e now n t vel when = e.
Proof. intros H. unfold playNote. now rewrite H. Qed.

Lemma noteOfCode_updateModifiers s now code isDown c :
  noteOfCode (updateModifiers s now code isDown) c = noteOfCode s c.
Proof.
unfold noteOfCode.
destruct (updateModifiers_frame s now code isDown) as (_ & _ & _ & -> & _). reflexivity.
Qed.

Lemma keyDown_inv actions s now clock code :
  has code ACTION_KEYS = false -> keysInv s ->
  let s' := playNoteByCode actions s now clock code in
  keysInv s' /\ transposeBase s' = transposeBase s /\ octaveShift s' = octaveShift s /\
  currentKeyMap s' = currentKeyMap s.
Proof.
intros Hact (Hmod & Hctx & Hheld). cbv zeta. unfold playNoteByCode.
assert (E0 : (if has code ["Escape"; "Coffee"]%string || String.prefix "F" code
              then handleFunctionKey actions code s else s) = s).
{ unfold handleFunctionKey. rewrite Hact. now destruct (_ || _). }
rewrite E0. clear E0.
pose proof (updateModifiers_held s now code true Hmod) as Hmod'.
destruct (updateModifiers_frame s now code true) as (Fk & Fb & Fo & Fm & Fe & _).
cbv zeta in *.
pose proof (noteOfCode_updateModifiers s now code true) as Fn.
set (s1 := updateModifiers s now code true) in *.
assert (Hr : -1 <= tempTranspose s1 <= 1) by (rewrite Hmod'; apply heldModifier_range).
destruct (noteOfCode s1 code) as [note |] eqn:Hnote.
- set (tau := getEffectiveTranspose s1 now code).
  pose proof (getEffectiveTranspose_range s1 now code Hr) as Htau. fold tau in Htau.
  unfold keysInv, heldSources, noteOfCode.
  cbn [with_keys with_sound activeKeys tempTranspose engine transposeBase octaveShift
       currentKeyMap].
  rewrite Fk, Fb, Fo, Fm, Fe.
  split; [| now repeat split]. split; [exact Hmod' |]. split.
  + intros Hc. rewrite playNote_ctx in Hc. rewrite playNote_no_ctx by exact Hc. now apply Hctx.
  + intros key id Hk.
    destruct (decide (key = mapKey note (transposeBase s + octaveShift s * 12 + tau)))
      as [-> | Hne].
    * exists code, note, tau. split; [apply setAdd_In; now left |].
      rewrite Fn in Hnote. unfold noteOfCode in Hnote. now repeat split.
    * rewrite playNote_other in Hk by exact Hne.
      destruct (Hheld key id Hk) as (c & n & t & Hin & Hn & Ht & ->).
      exists c, n, t. split; [apply setAdd_In; now right |]. now repeat split.
- unfold keysInv, heldSources, noteOfCode.
  cbn [with_keys activeKeys tempTranspose engine transposeBase octaveShift currentKeyMap].
  rewrite Fk, Fb, Fo, Fm, Fe.
  split; [| now repeat split]. split; [exact Hmod' |]. split; [exact Hctx |].
  intros key id Hk.
  destruct (Hheld key id Hk) as (c & n & t & Hin & Hn & Ht & ->).
  exists c, n, t. split; [apply setAdd_In; now right |]. now repeat split.
Qed.

Lemma keyUp_inv s now clock code :
  keysInv s ->
  let s' := stopNoteByCode s now clock code in
  keysInv s' /\ transposeBase s' = transposeBase s /\ octaveShift s' = octaveShift s /\
  currentKeyMap s' = currentKeyMap s.
Proof.
intros (Hmod & Hctx & Hheld). cbv zeta. unfold stopNoteByCode.
pose proof (updateModifiers_held s now code false Hmod) as Hmod'.
destruct (updateModifiers_frame s now code false) as (Fk & Fb & Fo & Fm & Fe & _).
cbv zeta in *.
pose proof (noteOfCode_updateModifiers s now code false) as Fn.
set (s1 := updateModifiers s now code false) in *.
assert (Hr : -1 <= tempTranspose s1 <= 1) by (rewrite Hmod'; apply heldModifier_range).
destruct (noteOfCode s1 code) as [note |] eqn:Hnote.
- set (tau := getEffectiveTranspose s1 now code).
  unfold keysInv, heldSources, noteOfCode.
  cbn [with_keys with_sound activeKeys tempTranspose engine transposeBase octaveShift
       currentKeyMap].
  rewrite Fk, Fb, Fo, Fm, Fe. set (base := transposeBase s + octaveShift s * 12).
  set (e1 := stopNote (engine s) clock note (base + tau) 0).
  set (e2 := stopNote e1 clock note base 0).
  set (e3 := stopNote e2 clock note (base + 1) 0).
  set (e4 := stopNote e3 clock note (base - 1) 0).
  assert (Hsub : forall key id, activeSources e4 !! key = Some id ->
                                activeSources (engine s) !! key = Some id).
  { intros key id H. now do 4 apply stopNote_lookup_Some in H. }
  split; [| now repeat split]. split; [exact Hmod' |]. split.
  + intros Hc. subst e4 e3 e2 e1. rewrite !stopNote_ctx in Hc.
    apply map_eq. intros key. rewrite lookup_empty.
    destruct (activeSources _ !! key) as [id |] eqn:Hk; [| reflexivity].
    apply Hsub in Hk. rewrite (Hctx Hc), lookup_empty in Hk. discriminate.
  + intros key id Hk. pose proof (Hsub key id Hk) as Hold.
    destruct (Hheld key id Hold) as (c & n & t & Hin & Hn & Ht & ->).
    exists c, n, t. split; [| now repeat split].
    apply setDelete_In. split; [| exact Hin]. intros ->.
    rewrite Fn in Hnote. rewrite Hnote in Hn. injection Hn as <-.
    destruct (ctx (engine s)) eqn:Hc;
      [| rewrite (Hctx eq_refl), lookup_empty in Hold; discriminate].
    fold base in Hk.
    assert (Ht3 : t = 0 \/ t = 1 \/ t = -1) by lia.
    destruct Ht3 as [-> | [-> | ->]].
    * replace (base + 0) with base in Hk by lia.
      do 2 apply stopNote_lookup_Some in Hk.
      subst e2. rewrite stopNote_clears in Hk; [discriminate |].
      subst e1. now rewrite stopNote_ctx.
    * apply stopNote_lookup_Some in Hk.
      subst e3. rewrite stopNote_clears in Hk; [discriminate |].
      subst e2 e1. now rewrite !stopNote_ctx.
    * replace (base + -1) with (base - 1) in Hk by lia.
      subst e4. rewrite stopNote_clears in Hk; [discriminate |].
      subst e3 e2 e1. now rewrite !stopNote_ctx.
- unfold keysInv, heldSources, noteOfCode.
  cbn [with_keys activeKeys tempTranspose engine transposeBase octaveShift currentKeyMap].
  rewrite Fk, Fb, Fo, Fm, Fe.
  split; [| now repeat split]. split; [exact Hmod' |]. split; [exact Hctx |].
  intros key id Hk.
  destruct (Hheld key id Hk) as (c & n & t & Hin & Hn & Ht & ->).
  exists c, n, t. split; [| now repeat split].
  apply setDelete_In. split; [| exact Hin]. intros ->.
  rewrite Fn in Hnote. congruence.
Qed.

Lemma keyEvents_inv actions evs : forall s,
  Forall (fun ev => has (codeOf ev) ACTION_KEYS = false) evs -> keysInv s ->
  let s' := fold_left (keyEvent actions) evs s in
  keysInv s' /\ transposeBase s' = transposeBase s /\ octaveShift s' = octaveShift s /\
  currentKeyMap s' = currentKeyMap s.
Proof.
induction evs as [| ev evs IH]; intros s Hall Hinv; cbn [fold_left];
  [split; [exact Hinv | now repeat split] |].
inversion Hall as [| ? ? Hev Hrest]; subst.
assert (Hstep : keysInv (keyEvent actions s ev) /\
                transposeBase (keyEvent actions s ev) = transposeBase s /\
                octaveShift (keyEvent actions s ev) = octaveShift s /\
                currentKeyMap (keyEvent actions s ev) = currentKeyMap s).
{ destruct ev as [code now clock | code now clock]; cbn [keyEvent codeOf] in *.
  - now apply keyDown_inv.
  - now apply keyUp_inv. }
destruct Hstep as (Hinv1 & Hb & Ho & Hm).
destruct (IH _ Hrest Hinv1) as (Hinv' & Hb' & Ho' & Hm').
cbv zeta in *. split; [exact Hinv' |]. repeat split; congruence.
Qed.

End KeyboardFacts.

Lemma keyEvent_modifier actions s ev :
  Keys.has (Keys.codeOf ev) Keys.ACTION_KEYS = false ->
  Keys.tempTranspose s = Keys.heldModifier (Keys.activeKeys s) ->
  Keys.tempTranspose (Keys.keyEvent actions s ev)
  = Keys.heldModifier (Keys.activeKeys (Keys.keyEvent actions s ev)).
Proof.
intros Hact Hmod. destruct ev as [code now clock | code now clock]; cbn [Keys.keyEvent Keys.codeOf] in *.
- unfold Keys.playNoteByCode.
  assert (E0 : (if Keys.has code ["Escape"; "Coffee"]%string || String.prefix "F" code
                then Keys.handleFunctionKey actions code s else s) = s).
  { unfold Keys.handleFunctionKey. rewrite Hact. now destruct (_ || _). }
  rewrite E0. clear E0.
  pose proof (updateModifiers_held s now code true Hmod) as Hmod'.
  destruct (updateModifiers_frame s now code true) as (Fk & _). cbv zeta in Fk.
  destruct (Keys.noteOfCode _ code); cbn; rewrite Fk; exact Hmod'.
- unfold Keys.stopNoteByCode.
  pose proof (updateModifiers_held s now code false Hmod) as Hmod'.
  destruct (updateModifiers_frame s now code false) as (Fk & _). cbv zeta in Fk.
  destruct (Keys.noteOfCode _ code); cbn; rewrite Fk; exact Hmod'.
Qed.

(** X25.  If the temporary transposition is what the held modifiers amount to
    (1 with the left Shift held, -1 with the left Control held, 0 with both or
    neither), as it is when no key is held and it is 0, it stays so across
    key-down and key-up events of keys other than the function keys with an
    action, in any order and with repeats. *)
Theorem modifiers_follow_held_keys (actions : string -> Keys.Keyboard -> Keys.Keyboard)
    (evs : list Keys.KeyEvent) (s : Keys.Keyboard) :
  Keys.tempTranspose s
  = (if Keys.has "ShiftLeft" (Keys.activeKeys s) then 1 else 0)
    - (if Keys.has "ControlLeft" (Keys.activeKeys s) then 1 else 0) ->
  Forall (fun ev => Keys.has (Keys.codeOf ev) Keys.ACTION_KEYS = false) evs ->
  let s' := fold_left (Keys.keyEvent actions) evs s in
  Keys.tempTranspose s'
  = (if Keys.has "ShiftLeft" (Keys.activeKeys s') then 1 else 0)
    - (if Keys.has "ControlLeft" (Keys.activeKeys s') then 1 else 0).
Proof.
revert s. induction evs as [| ev evs IH]; intros s Hmod Hall; cbn [fold_left]; [exact Hmod |].
inversion Hall as [| ? ? Hev Hrest]; subst.
apply IH; [| exact Hrest]. now apply keyEvent_modifier.
Qed.

Lemma modifiers_follow_held_keys_witness :
  Keys.tempTranspose keyboard0
  = (if Keys.has "ShiftLeft" (Keys.activeKeys keyboard0) then 1 else 0)
    - (if Keys.has "ControlLeft" (Keys.activeKeys keyboard0) then 1 else 0) /\
  Forall (fun ev => Keys.has (Keys.codeOf ev) Keys.ACTION_KEYS = false) shiftedQ /\
  let s' := fold_left (Keys.keyEvent noActions) shiftedQ keyboard0 in
  Keys.tempTranspose s'
  = (if Keys.has "ShiftLeft" (Keys.activeKeys s') then 1 else 0)
    - (if Keys.has "ControlLeft" (Keys.activeKeys s') then 1 else 0).
Proof.
assert (H1 : Keys.tempTranspose keyboard0
             = (if Keys.has "ShiftLeft" (Keys.activeKeys keyboard0) then 1 else 0)
               - (if Keys.has "ControlLeft" (Keys.activeKeys keyboard0) then 1 else 0))
  by reflexivity.
assert (H2 : Forall (fun ev => Keys.has (Keys.codeOf ev) Keys.ACTION_KEYS = false) shiftedQ)
  by (repeat constructor).
split; [exact H1 |]. split; [exact H2 |].
exact (modifiers_follow_held_keys noActions shiftedQ keyboard0 H1 H2).
Defined.

(** X26.  Started with no key held and nothing sounding, after key-down and
    key-up events of keys other than the function keys with an action, every
    source that the engine holds belongs to a key that is still held: it is
    the note of that key, at the base transposition or one semitone from it.
    So once every key is released the engine holds no source, whatever the
    modifiers were at the press and at the release. *)
Theorem released_keys_leave_no_note (actions : string -> Keys.Keyboard -> Keys.Keyboard)
    (s : Keys.Keyboard) (evs : list Keys.KeyEvent) :
  Keys.activeKeys s = [] -> Keys.tempTranspose s = 0 ->
  activeSources (Keys.engine s) = ∅ ->
  Forall (fun ev => Keys.has (Keys.codeOf ev) Keys.ACTION_KEYS = false) evs ->
  let s' := fold_left (Keys.keyEvent actions) evs s in
  (forall key id,
     activeSources (Keys.engine s') !! key = Some id ->
     exists code note tau,
       In code (Keys.activeKeys s') /\ Keys.currentKeyMap s !! code = Some note /\
       -1 <= tau <= 1 /\
       key = mapKey note (Keys.transposeBase s + Keys.octaveShift s * 12 + tau)) /\
  (Keys.activeKeys s' = [] -> activeSources (Keys.engine s') = ∅).
Proof.
intros Hk Ht He Hall.
assert (Hinv : keysInv s).
{ split; [rewrite Hk, Ht; reflexivity |]. split; [intros _; exact He |].
  intros key id H. rewrite He, lookup_empty in H. discriminate. }
destruct (keyEvents_inv actions evs s Hall Hinv) as ((_ & _ & Hheld) & Hb & Ho & Hm).
cbv zeta in *.
assert (Hsrc : forall key id,
  activeSources (Keys.engine (fold_left (Keys.keyEvent actions) evs s)) !! key = Some id ->
  exists code note tau,
    In code (Keys.activeKeys (fold_left (Keys.keyEvent actions) evs s)) /\
    Keys.currentKeyMap s !! code = Some note /\ -1 <= tau <= 1 /\
    key = mapKey note (Keys.transposeBase s + Keys.octaveShift s * 12 + tau)).
{ intros key id H. destruct (Hheld key id H) as (c & n & t & Hin & Hn & Hr & ->).
  exists c, n, t. split; [exact Hin |]. rewrite <- Hb, <- Ho, <- Hm.
  unfold Keys.noteOfCode in Hn.
  destruct (Keys.currentKeyMap _ !! c) as [n' |]; [| discriminate].
  destruct (String.eqb n' ""); [discriminate |]. injection Hn as ->. now repeat split. }
split; [exact Hsrc |].
intros Hnone. apply map_eq. intros key. rewrite lookup_empty.
destruct (activeSources _ !! key) as [id |] eqn:E; [| reflexivity].
destruct (Hsrc key id E) as (c & _ & _ & Hin & _). rewrite Hnone in Hin. contradiction.
Qed.

Lemma released_keys_leave_no_note_witness :
  Keys.activeKeys keyboard0 = [] /\ Keys.tempTranspose keyboard0 = 0 /\
  activeSources (Keys.engine keyboard0) = ∅ /\
  Forall (fun ev => Keys.has (Keys.codeOf ev) Keys.ACTION_KEYS = false) shiftedQ /\
  let s' := fold_left (Keys.keyEvent noActions) shiftedQ keyboard0 in
  (forall key id,
     activeSources (Keys.engine s') !! key = Some id ->
     exists code note tau,
       In code (Keys.activeKeys s') /\ Keys.currentKeyMap keyboard0 !! code = Some note /\
       -1 <= tau <= 1 /\
       key = mapKey note (Keys.transposeBase keyboard0 + Keys.octaveShift keyboard0 * 12 + tau)) /\
  (Keys.activeKeys s' = [] -> activeSources (Keys.engine s') = ∅).
Proof.
assert (H4 : Forall (fun ev => Keys.has (Keys.codeOf ev) Keys.ACTION_KEYS = false) shiftedQ)
  by (repeat constructor).
split; [reflexivity |]. split; [reflexivity |]. split; [reflexivity |]. split; [exact H4 |].
exact (released_keys_leave_no_note noActions keyboard0 shiftedQ eq_refl eq_refl eq_refl H4).
Defined.
